(** * maildev: the message store and the ingestion pipeline

    A shallow embedding of [lib/store.js] (in two revisions: the file
    [src/lib/store.js] that [lib/mailserver.js] requires, and the later
    revision kept as [src/unnamed/part_002]) and of the store-facing part of
    [lib/mailserver.js].

    - JavaScript objects whose keys are chosen at run time (the message
      record, the header collection, a parser datum) are finite maps from
      property names to values; fixed-shape objects are records.
    - A Node callback [callback(err, value)] becomes a returned [Result];
      a [throw] that nothing catches becomes [Thrown].
    - The file system is a finite map from paths to file contents, and a
      write stream is an index in a table of open sinks.
    - Event emitters (the inbound stream, the MIME parser, the content
      stream of an attachment) become an [Event] type; the listeners that
      [parseMessage] registers become one transition function. *)

From Stdlib Require Import ZArith Lia List Ascii String.
From stdpp Require Import base option list strings gmap.

Open Scope string_scope.
Open Scope list_scope.
Open Scope Z_scope.

(** ** JavaScript values *)

Module Js.

(** The values that reach the store: header values, parser fields,
  envelope fields.  [VObj] is an object the store only passes along
  (an address list, a header map). *)
Inductive JsVal :=
| VUndef
| VNull
| VBool (b : bool)
| VNum (n : Z)
| VStr (s : string)
| VDate (t : Z)
| VObj (tag : string).

#[export] Instance JsVal_eq_dec : EqDecision JsVal.
Proof. solve_decision. Defined.

(** [ToBoolean]: what [if (v)] and [!v] test. *)
Definition truthy (v : JsVal) : bool :=
match v with
| VUndef | VNull => false
| VBool b => b
| VNum n => negb (n =? 0)
| VStr s => negb (String.eqb s "")
| VDate _ | VObj _ => true
end.

Inductive JsError :=
| Error (msg : string)
| TypeError (msg : string)
| ReferenceError (ident : string).

#[export] Instance JsError_eq_dec : EqDecision JsError.
Proof. solve_decision. Defined.

(** What a call leaves behind: [callback(null, a)], [callback(err)], or an
  exception that leaves the function. *)
Inductive Result (A : Type) :=
| Ok (a : A)
| Err (e : JsError)
| Thrown (e : JsError).
Arguments Ok {A} a.
Arguments Err {A} e.
Arguments Thrown {A} e.

(** Sequencing of statements that may throw. *)
Definition bind {A B} (r : Result A) (k : A -> Result B) : Result B :=
match r with
| Ok a => k a
| Err e => Err e
| Thrown e => Thrown e
end.

End Js.
Export Js.

#[export] Instance Result_bind : MBind Result := fun A B k r => Js.bind r k.

(** ** Paths and the file system *)

Module Fs.

(** A path is the list of its segments; [path.join(dir, name)] appends one
  segment (names are used as given: no [..] or separator inside). *)
Definition Path := list string.

Definition path_join (dir : Path) (name : string) : Path := dir ++ [name].

Record Disk := {
files : gmap Path string;
dirs : gset Path
}.

Definition empty_disk : Disk := {| files := ∅; dirs := ∅ |}.

Definition is_prefix (p q : Path) : bool :=
bool_decide (take (List.length p) q = p).

(** [fs.existsSync]. *)
Definition existsSync (d : Disk) (p : Path) : bool :=
bool_decide (p ∈ dirs d) || bool_decide (is_Some (files d !! p)).

(** [fs.mkdirSync]. *)
Definition mkdirSync (d : Disk) (p : Path) : Disk :=
{| files := files d; dirs := {[p]} ∪ dirs d |}.

(** The name of the entry of [root] that [p] lies in, when [p] is below
  [root]. *)
Definition entry_under (root p : Path) : option string :=
if is_prefix root p then drop (List.length root) p !! 0%nat else None.

(** [fs.readdir]: the entries directly under [root]. *)
Definition readdir (d : Disk) (root : Path) : list string :=
remove_dups (omap (entry_under root)
               ((map_to_list (files d)).*1 ++ elements (dirs d))).

(** [rimraf]: removes [p] and everything below it. *)
Definition remove_tree (p : Path) (d : Disk) : Disk :=
{| files := filter (fun kv => is_prefix p kv.1 = false) (files d);
   dirs := filter (fun q => is_prefix p q = false) (dirs d) |}.

(** A readable stream opened on a path by [fs.createReadStream]; the file
  is opened when the stream is read. *)
Inductive ReadStream := ReadStreamOf (p : Path).


(** [fs.createReadStream(path)]: a missing ([undefined]) path is refused
  with a [TypeError] before any stream exists. *)
Definition createReadStream (p : option Path) : Result ReadStream :=
match p with
| Some q => Ok (ReadStreamOf q)
| None => Thrown (TypeError "The path argument must be of type string")
end.

End Fs.
Export Fs.

(** ** The data model *)

Record Attachment := {
  att_generatedFileName : JsVal;
  att_filename : JsVal;
  att_contentType : JsVal;
  att_contentDisposition : JsVal;
  att_checksum : JsVal;
  att_size : JsVal;
  att_headers : JsVal;
  att_contentId : JsVal;
  att_related : JsVal;
  att_source : option Path
}.

(** The message record.  [msg_props] holds the properties that are written
    under computed keys: the envelope spread into the record and every
    target of [copy]. *)
Record Message := {
  msg_id : string;
  msg_props : gmap string JsVal;
  msg_attachments : list Attachment;
  msg_source : option Path;
  msg_size : option Z;
  msg_sizeHuman : option string;
  msg_read : option bool
}.

Definition set_read (m : Message) : Message :=
  {| msg_id := msg_id m; msg_props := msg_props m;
     msg_attachments := msg_attachments m; msg_source := msg_source m;
     msg_size := msg_size m; msg_sizeHuman := msg_sizeHuman m;
     msg_read := Some true |}.

(** [!m.read] *)
Definition not_read (m : Message) : bool :=
  match msg_read m with
  | Some true => false
  | _ => true
  end.

Record Store := {
  mailDir : Path;
  messages : list Message
}.

Definition with_messages (s : Store) (ms : list Message) : Store :=
  {| mailDir := mailDir s; messages := ms |}.

(** ** Store methods that both revisions share *)

(** [emailById]: filter on [element.id === id], succeed on exactly one hit. *)
Definition emailById (s : Store) (id : string) : Result Message :=
  let email := filter (fun element => msg_id element = id) (messages s) in
  match email with
  | [e] => Ok e
  | _ => Err (Error "Email was not found")
  end.

Definition emailStreamById (s : Store) (id : string) : Result ReadStream :=
  match emailById s id with
  | Ok email => createReadStream (msg_source email)
  | Err e => Err e
  | Thrown e => Thrown e
  end.

(** The [for (let m of this.messages)] loop of [markAllEmailRead], with its
    counter. *)
Fixpoint mark_loop (ms : list Message) (count : Z) : list Message * Z :=
  match ms with
  | [] => ([], count)
  | m :: rest =>
      if not_read m
      then let '(rest', c) := mark_loop rest (count + 1) in (set_read m :: rest', c)
      else let '(rest', c) := mark_loop rest count in (m :: rest', c)
  end.

Definition markAllEmailRead (s : Store) : Store * Z :=
  let '(ms, count) := mark_loop (messages s) 0 in
  (with_messages s ms, count).

Definition allEmails (s : Store) : list Message := messages s.

(** *** Free identifiers of the module

    [deleteAll] and [deleteById] call [rimraf], and [deleteById] pushes to
    and measures [errors].  The module declares neither ([os], [fs], [path],
    [utils], [logger], [stripTags] and [MailParser] are all it requires), so
    what they resolve to is a matter of the global scope: [None] is an
    identifier that is not bound, whose evaluation raises a
    [ReferenceError]. *)
Record Globals := {
  (** [rimraf(p, cb)]: the disk once the removal is over, or [Err e] for
      [cb(e)]; the callback runs after the caller has returned. *)
  g_rimraf : option (option Path -> Disk -> Result Disk);
  g_errors : option (list JsError)
}.

(** The scope the module really has. *)
Definition module_globals : Globals :=
  {| g_rimraf := None; g_errors := None |}.

(** What [callback(err, ok)] receives, or the exception that escapes. *)
Inductive CallbackArgs (A : Type) :=
| Callback (err : option JsError) (ok : option A)
| Uncaught (e : JsError).
Arguments Callback {A} err ok.
Arguments Uncaught {A} e.

(** The search loop of [deleteById]: [index] stays [undefined] ([None])
    unless some [messages[i].id === id], and the first hit breaks out. *)
Fixpoint find_index (id : string) (ms : list Message) (i : nat) : option nat :=
  match ms with
  | [] => None
  | m :: rest => if decide (msg_id m = id) then Some i else find_index id rest (S i)
  end.

(** [!index] *)
Definition index_falsy (index : option nat) : bool :=
  match index with
  | None | Some O => true
  | Some (S _) => false
  end.

(** [this.messages.splice(index, 1)] *)
Definition splice1 (index : nat) (ms : list Message) : list Message :=
  take index ms ++ drop (S index) ms.

(** One [rimraf(p, function (err) { if (err) errors.push(err) ... })] of
    [deleteById], on the disk; the pushes happen after [deleteById] has
    returned and are not seen by it. *)
Definition rimraf_later (rimraf : option Path -> Disk -> Result Disk)
    (p : option Path) (d : Disk) : Result Disk :=
  match rimraf p d with
  | Ok d' => Ok d'
  | Err _ => Ok d
  | Thrown e => Thrown e
  end.

Definition deleteById (g : Globals) (s : Store) (d : Disk) (id : string)
  : CallbackArgs (string * nat) * Store * Disk :=
  let index := find_index id (messages s) 0 in
  if index_falsy index then
    (Callback (Some (Error "Email not found")) None, s, d)
  else
    let index := default 0%nat index in
    match messages s !! index with
    | None => (Uncaught (TypeError "Cannot read properties of undefined"), s, d)
    | Some email =>
        match g_rimraf g with
        | None => (Uncaught (ReferenceError "rimraf"), s, d)
        | Some rimraf =>
            match rimraf_later rimraf (msg_source email) d with
            | Thrown e | Err e => (Uncaught e, s, d)
            | Ok d1 =>
                (* [email.attachmentDir]: no such property on a record *)
                match rimraf_later rimraf None d1 with
                | Thrown e | Err e => (Uncaught e, s, d1)
                | Ok d2 =>
                    match g_errors g with
                    | None => (Uncaught (ReferenceError "errors"), s, d2)
                    | Some errors =>
                        let err := if (0 <? Z.of_nat (List.length errors))
                                   then Some (Error "errors") else None in
                        (* [ok] is assigned by the first removal's callback,
                           which has not run yet *)
                        (Callback err None,
                         with_messages s (splice1 index (messages s)), d2)
                    end
                end
            end
        end
    end.

(** [fs.readdir(rootDir, cb)] *)
Definition fs_readdir (d : Disk) (root : Path) : Result (list string) :=
  if existsSync d root || negb (bool_decide (readdir d root = []))
  then Ok (readdir d root)
  else Err (Error "ENOENT").

(** [files.forEach(file => rimraf(path.join(rootDir, file), err => { if (err) throw err }))]:
    the removals are started in the order of the listing.  The model runs
    them one after the other and stops at the first exception, which
    nothing catches: the disk reached, and what was thrown. *)
Fixpoint sweep (g : Globals) (root : Path) (fs : list string) (d : Disk)
  : Disk * option JsError :=
  match fs with
  | [] => (d, None)
  | file :: rest =>
      match g_rimraf g with
      | None => (d, Some (ReferenceError "rimraf"))
      | Some rimraf =>
          match rimraf (Some (path_join root file)) d with
          | Ok d' => sweep g root rest d'
          | Err e | Thrown e => (d, Some e)
          end
      end
  end.

(** [deleteAll(callback)]: the index is emptied at once; the directory is
    listed and swept afterwards.  [callback] is never called: the result is
    the store, the disk, and the exception thrown from the [readdir]
    callback, if any. *)
Definition deleteAll (g : Globals) (s : Store) (d : Disk)
  : Store * Disk * option JsError :=
  let s' := with_messages s [] in
  let rootDir := mailDir s in
  match fs_readdir d rootDir with
  | Err err | Thrown err => (s', d, Some err)
  | Ok fs =>
      let '(d', thrown) := sweep g rootDir fs d in
      (s', d', thrown)
  end.

(** [a === b] on the values a file name can be; two objects are never the
    same object here. *)
Definition strict_eq (a b : JsVal) : bool :=
  match a, b with
  | VUndef, VUndef | VNull, VNull => true
  | VBool x, VBool y => bool_decide (x = y)
  | VNum x, VNum y => bool_decide (x = y)
  | VStr x, VStr y => bool_decide (x = y)
  | _, _ => false
  end.

(** ** [parseMessage]: the assembler *)

(** *** Record updates *)

(** [message[key] = v] *)
Definition set_prop (m : Message) (key : string) (v : JsVal) : Message :=
  {| msg_id := msg_id m; msg_props := <[key := v]> (msg_props m);
     msg_attachments := msg_attachments m; msg_source := msg_source m;
     msg_size := msg_size m; msg_sizeHuman := msg_sizeHuman m;
     msg_read := msg_read m |}.

(** [message.key], [undefined] when the property is missing. *)
Definition prop (m : Message) (key : string) : JsVal :=
  default VUndef (msg_props m !! key).

Definition set_attachments (m : Message) (l : list Attachment) : Message :=
  {| msg_id := msg_id m; msg_props := msg_props m;
     msg_attachments := l; msg_source := msg_source m;
     msg_size := msg_size m; msg_sizeHuman := msg_sizeHuman m;
     msg_read := msg_read m |}.

Definition set_source (m : Message) (p : option Path) : Message :=
  {| msg_id := msg_id m; msg_props := msg_props m;
     msg_attachments := msg_attachments m; msg_source := p;
     msg_size := msg_size m; msg_sizeHuman := msg_sizeHuman m;
     msg_read := msg_read m |}.

Definition set_size (m : Message) (n : Z) (human : string) : Message :=
  {| msg_id := msg_id m; msg_props := msg_props m;
     msg_attachments := msg_attachments m; msg_source := msg_source m;
     msg_size := Some n; msg_sizeHuman := Some human;
     msg_read := msg_read m |}.

Definition att_set_source (a : Attachment) (p : option Path) : Attachment :=
  {| att_generatedFileName := att_generatedFileName a;
     att_filename := att_filename a; att_contentType := att_contentType a;
     att_contentDisposition := att_contentDisposition a;
     att_checksum := att_checksum a; att_size := att_size a;
     att_headers := att_headers a; att_contentId := att_contentId a;
     att_related := att_related a; att_source := p |}.

(** *** What [copy] reads from *)

(** A header collection or a parser datum: a [Map], a plain object, or a
    value that is not an object at all. *)
Inductive Src :=
| SrcMap (entries : gmap string JsVal)
| SrcObj (props : gmap string JsVal)
| SrcPrim (v : JsVal).

(** [src[key]].  The entries of a [Map] are not properties of it (the keys
    asked for are header and field names, none a member of
    [Map.prototype]); a string or a number has no property of these names;
    reading a property of [undefined] or [null] throws. *)
Definition get_prop (src : Src) (key : string) : Result JsVal :=
  match src with
  | SrcMap _ => Ok VUndef
  | SrcObj props => Ok (default VUndef (props !! key))
  | SrcPrim VUndef | SrcPrim VNull =>
      Thrown (TypeError "Cannot read properties of undefined")
  | SrcPrim _ => Ok VUndef
  end.

(** [src.has && src.has(key)] *)
Definition has_entry (src : Src) (key : string) : Result bool :=
  match src with
  | SrcMap entries => Ok (bool_decide (is_Some (entries !! key)))
  | SrcObj props =>
      if truthy (default VUndef (props !! "has"))
      then Thrown (TypeError "src.has is not a function")
      else Ok false
  | SrcPrim VUndef | SrcPrim VNull =>
      Thrown (TypeError "Cannot read properties of undefined")
  | SrcPrim _ => Ok false
  end.

(** [src.get(key)], once [src.has(key)] has answered. *)
Definition map_get (src : Src) (key : string) : JsVal :=
  match src with
  | SrcMap entries => default VUndef (entries !! key)
  | _ => VUndef
  end.

(** *** Events *)

Record AttachmentDatum := {
  d_filename : JsVal;
  d_contentType : JsVal;
  d_contentDisposition : JsVal;
  d_checksum : JsVal;
  d_size : JsVal;
  d_headers : JsVal;
  d_cid : JsVal;
  d_related : JsVal
}.

(** What the parser's ['data'] event carries, by [data.type]. *)
Inductive Datum :=
| DAttachment (a : AttachmentDatum)
| DText (fields : gmap string JsVal)
| DOther.

Inductive Event :=
| InData (chunk : string)               (* inStream 'data' *)
| InEnd                                 (* inStream 'end' *)
| ParserHeaders (headers : Src) (now : Z) (* parseStream 'headers'; [now] is [new Date()] *)
| ParserData (data : Datum)             (* parseStream 'data' *)
| ParserEnd                             (* parseStream 'end' *)
| ContentData (i : nat) (chunk : string) (* data.content 'data' of the i-th attachment *)
| ContentEnd (i : nat).                 (* data.content 'end' of the i-th attachment *)

(** *** Write streams *)

Record Sink := {
  sink_path : Path;
  sink_ended : bool
}.

Record Io := {
  disk : Disk;
  sinks : list Sink
}.

(** [fs.createWriteStream(p)]: the file exists and is empty, the stream is
    the next sink. *)
Definition createWriteStream (p : Path) (io : Io) : nat * Io :=
  (List.length (sinks io),
   {| disk := {| files := <[p := ""]> (files (disk io)); dirs := dirs (disk io) |};
      sinks := sinks io ++ [{| sink_path := p; sink_ended := false |}] |}).

(** [stream.write(chunk)]; a stream that was ended takes no more bytes. *)
Definition sink_write (w : nat) (chunk : string) (io : Io) : Io :=
  match sinks io !! w with
  | Some k =>
      if sink_ended k then io
      else {| disk := {| files := <[sink_path k :=
                                      default "" (files (disk io) !! sink_path k) +:+ chunk]>
                                    (files (disk io));
                         dirs := dirs (disk io) |};
              sinks := sinks io |}
  | None => io
  end.

(** [stream.end()] *)
Definition sink_end (w : nat) (io : Io) : Io :=
  match sinks io !! w with
  | Some k => {| disk := disk io;
                 sinks := <[w := {| sink_path := sink_path k; sink_ended := true |}]> (sinks io) |}
  | None => io
  end.

Definition opt_write (w : option nat) (chunk : string) (io : Io) : Io :=
  match w with Some w => sink_write w chunk io | None => io end.

Definition opt_end (w : option nat) (io : Io) : Io :=
  match w with Some w => sink_end w io | None => io end.

(** What a provider of [outStreams] returns: the write stream itself, or an
    object with an optional [source] and named stream members.  An
    [fs.WriteStream] has no [source], [emlStream] or [stream] property. *)
Inductive JsObject :=
| WriteStreamObj (w : nat)
| SinkObj (source : option Path) (members : list (string * nat)).

Definition obj_source (o : JsObject) : option Path :=
  match o with
  | SinkObj source _ => source
  | WriteStreamObj _ => None
  end.

Definition obj_member (o : JsObject) (key : string) : option nat :=
  match o with
  | SinkObj _ members => snd <$> List.find (fun kv => String.eqb (fst kv) key) members
  | WriteStreamObj _ => None
  end.

(** The [outStreams] argument: any of the three members may be missing. *)
Record OutStreams := {
  emlStream : option (Io -> Result (JsObject * Io));
  attachmentStream : option (Attachment -> Io -> Result (JsObject * Io));
  attachmentWriteStream : option (Attachment -> Io -> Result (JsObject * Io))
}.

(** *** The state of one ingestion *)

Record Ingest := {
  ing_message : Message;                 (* [message] *)
  ing_size : Z;                          (* [let size] *)
  ing_emlStream : option nat;            (* [emlStream], when the pipe was set up *)
  ing_contents : list (option nat);      (* per attachment: the sink its content is piped to *)
  ing_released : list nat;               (* [data.release()] calls *)
  ing_parser_input : string;             (* bytes the pipe wrote to the parser *)
  ing_parser_end_called : bool;          (* [parseStream.end()] was called *)
  ing_in_ended : bool;                   (* inStream has emitted 'end' *)
  ing_parser_ended : bool;               (* parseStream has emitted 'end' *)
  ing_io : Io
}.

(** The state, and the state as it was at each [callback(null, message)]. *)
Record Run := {
  run_state : Ingest;
  run_completions : list Ingest
}.

Definition with_message (st : Ingest) (m : Message) : Ingest :=
  {| ing_message := m; ing_size := ing_size st; ing_emlStream := ing_emlStream st;
     ing_contents := ing_contents st; ing_released := ing_released st;
     ing_parser_input := ing_parser_input st;
     ing_parser_end_called := ing_parser_end_called st;
     ing_in_ended := ing_in_ended st; ing_parser_ended := ing_parser_ended st;
     ing_io := ing_io st |}.

Definition with_io (st : Ingest) (io : Io) : Ingest :=
  {| ing_message := ing_message st; ing_size := ing_size st;
     ing_emlStream := ing_emlStream st;
     ing_contents := ing_contents st; ing_released := ing_released st;
     ing_parser_input := ing_parser_input st;
     ing_parser_end_called := ing_parser_end_called st;
     ing_in_ended := ing_in_ended st; ing_parser_ended := ing_parser_ended st;
     ing_io := io |}.

(** The listeners that [inStream.pipe(emlStream)] and
    [inStream.pipe(parseStream)] install, and [size += chunk.length]. *)
Definition on_in_data (chunk : string) (st : Ingest) : Ingest :=
  {| ing_message := ing_message st;
     ing_size := ing_size st + Z.of_nat (String.length chunk);
     ing_emlStream := ing_emlStream st;
     ing_contents := ing_contents st; ing_released := ing_released st;
     ing_parser_input := ing_parser_input st +:+ chunk;
     ing_parser_end_called := ing_parser_end_called st;
     ing_in_ended := ing_in_ended st; ing_parser_ended := ing_parser_ended st;
     ing_io := opt_write (ing_emlStream st) chunk (ing_io st) |}.

(** On 'end' the two pipes end their destinations; these listeners were
    installed before the one [parseMessage] adds. *)
Definition pipes_on_end (st : Ingest) : Ingest :=
  {| ing_message := ing_message st; ing_size := ing_size st;
     ing_emlStream := ing_emlStream st;
     ing_contents := ing_contents st; ing_released := ing_released st;
     ing_parser_input := ing_parser_input st;
     ing_parser_end_called := true;
     ing_in_ended := true; ing_parser_ended := ing_parser_ended st;
     ing_io := opt_end (ing_emlStream st) (ing_io st) |}.

(** [parseStream.end()] *)
Definition parser_end_call (st : Ingest) : Ingest :=
  {| ing_message := ing_message st; ing_size := ing_size st;
     ing_emlStream := ing_emlStream st;
     ing_contents := ing_contents st; ing_released := ing_released st;
     ing_parser_input := ing_parser_input st;
     ing_parser_end_called := true;
     ing_in_ended := ing_in_ended st; ing_parser_ended := ing_parser_ended st;
     ing_io := ing_io st |}.

Definition mark_parser_ended (st : Ingest) : Ingest :=
  {| ing_message := ing_message st; ing_size := ing_size st;
     ing_emlStream := ing_emlStream st;
     ing_contents := ing_contents st; ing_released := ing_released st;
     ing_parser_input := ing_parser_input st;
     ing_parser_end_called := ing_parser_end_called st;
     ing_in_ended := ing_in_ended st; ing_parser_ended := true;
     ing_io := ing_io st |}.

(** The content stream of attachment [i]: the pipe writes each chunk to the
    sink; on 'end' the pipe and the listener end it, and the listener
    releases the datum. *)
Definition on_content_data (i : nat) (chunk : string) (st : Ingest) : Ingest :=
  match ing_contents st !! i with
  | Some (Some w) => with_io st (sink_write w chunk (ing_io st))
  | _ => st
  end.

Definition on_content_end (i : nat) (st : Ingest) : Ingest :=
  match ing_contents st !! i with
  | Some (Some w) =>
      {| ing_message := ing_message st; ing_size := ing_size st;
         ing_emlStream := ing_emlStream st;
         ing_contents := ing_contents st; ing_released := i :: ing_released st;
         ing_parser_input := ing_parser_input st;
         ing_parser_end_called := ing_parser_end_called st;
         ing_in_ended := ing_in_ended st; ing_parser_ended := ing_parser_ended st;
         ing_io := sink_end w (ing_io st) |}
  | _ => st
  end.

(** The attachment branch after [message.attachments.push(attachment)]: ask
    the provider for a sink, record [attachment.source], pipe. *)
Definition open_attachment_sink
    (provider : option (Attachment -> Io -> Result (JsObject * Io)))
    (streamAttachments : bool) (attachment : Attachment) (st : Ingest)
  : Result Ingest :=
  let pushed := msg_attachments (ing_message st) ++ [attachment] in
  if streamAttachments then
    match provider with
    | None => Thrown (TypeError "outStreams member is not a function")
    | Some f =>
        '(o, io) ← f attachment (ing_io st);
        let source := obj_source o in
        let attachment' := att_set_source attachment source in
        match obj_member o "stream" with
        | None =>
            Thrown (Error "Do not ask for 'streamAttachments' if no write stream can be opened")
        | Some w =>
            Ok {| ing_message := set_attachments (ing_message st)
                                   (msg_attachments (ing_message st) ++ [attachment']);
                  ing_size := ing_size st; ing_emlStream := ing_emlStream st;
                  ing_contents := ing_contents st ++ [Some w];
                  ing_released := ing_released st;
                  ing_parser_input := ing_parser_input st;
                  ing_parser_end_called := ing_parser_end_called st;
                  ing_in_ended := ing_in_ended st;
                  ing_parser_ended := ing_parser_ended st;
                  ing_io := io |}
        end
    end
  else
    Ok {| ing_message := set_attachments (ing_message st) pushed;
          ing_size := ing_size st; ing_emlStream := ing_emlStream st;
          ing_contents := ing_contents st ++ [None];
          ing_released := ing_released st;
          ing_parser_input := ing_parser_input st;
          ing_parser_end_called := ing_parser_end_called st;
          ing_in_ended := ing_in_ended st;
          ing_parser_ended := ing_parser_ended st;
          ing_io := ing_io st |}.

(** [message.size = size; message.sizeHuman = utils.formatBytes(size)] *)
Definition record_size (formatBytes : Z -> string) (st : Ingest) : Ingest :=
  with_message st (set_size (ing_message st) (ing_size st) (formatBytes (ing_size st))).

(** [callback(null, message)] *)
Definition complete (r : Run) : Run :=
  {| run_state := run_state r;
     run_completions := run_completions r ++ [run_state r] |}.

Record Envelope := {
  env_from : JsVal;
  env_to : JsVal;
  env_host : JsVal;
  env_remoteAddress : JsVal
}.

(** [{ ...envelope, id, attachments: [] }] *)
Definition new_message (envelope : Envelope) (id : string) : Message :=
  {| msg_id := id;
     msg_props := <["from" := env_from envelope]>
                  (<["to" := env_to envelope]>
                  (<["host" := env_host envelope]>
                  (<["remoteAddress" := env_remoteAddress envelope]> ∅)));
     msg_attachments := []; msg_source := None;
     msg_size := None; msg_sizeHuman := None; msg_read := None |}.

(** The statements of [parseMessage] that run at once: the record is
    created, [outStreams.emlStream()] is asked for the raw sink and its
    result is destructured as [{ source, emlStream }]; only a truthy
    [emlStream] sets [message.source] and is piped to. *)
Definition parseMessage_start (envelope : Envelope) (id : string)
    (outStreams : OutStreams) (io : Io) : Result Run :=
  let message := new_message envelope id in
  match emlStream outStreams with
  | None => Thrown (TypeError "outStreams.emlStream is not a function")
  | Some f =>
      '(o, io') ← f io;
      let source := obj_source o in
      let emlStream := obj_member o "emlStream" in
      Ok {| run_state :=
              {| ing_message := match emlStream with
                                | Some _ => set_source message source
                                | None => message
                                end;
                 ing_size := 0; ing_emlStream := emlStream;
                 ing_contents := []; ing_released := [];
                 ing_parser_input := "";
                 ing_parser_end_called := false;
                 ing_in_ended := false; ing_parser_ended := false;
                 ing_io := io' |};
            run_completions := [] |}
  end.

Definition with_state (r : Run) (st : Ingest) : Run :=
  {| run_state := st; run_completions := run_completions r |}.

(** [this.messages.push(message)] at every completion.  The store holds the
    record itself, not a copy: what it shows is the record as the
    listeners have left it. *)
Definition register (s : Store) (r : Run) : Store :=
  with_messages s
    (messages s ++ repeat (ing_message (run_state r)) (List.length (run_completions r))).

(** ** [src/lib/store.js] *)
Module StoreJs.

Definition copy (src : Src) (srcKey : string) (dst : Message) (dstKey : string)
  (defaultValue : JsVal) : Result Message :=
v ← get_prop src srcKey;
if truthy v then Ok (set_prop dst dstKey v)
else if truthy defaultValue then Ok (set_prop dst dstKey defaultValue)
else Ok dst.

(** The ['headers'] listener. *)
Definition on_headers (headers : Src) (now : Z) (message : Message) : Result Message :=
sender ← get_prop headers "sender";
m ← copy headers "from" message "from" sender;
m ← copy headers "to" m "to" VUndef;
m ← copy headers "cc" m "cc" VUndef;
m ← copy headers "bcc" m "bcc" VUndef;
m ← copy headers "sender" m "sender" VUndef;
m ← copy headers "reply-to" m "replyTo" VUndef;
m ← copy headers "delivered-to" m "deliveredTo" VUndef;
m ← copy headers "return-path" m "returnPath" VUndef;
m ← copy headers "priority" m "priority" VUndef;
m ← copy headers "subject" m "subject" VUndef;
m ← copy headers "content-type" m "contentType" VUndef;
m ← copy headers "content-disposition" m "contentDisposition" VUndef;
m ← copy headers "dkim-signature" m "dkimSignature" VUndef;
copy headers "date" m "time" (VDate now).

(** The attachment record of this revision has no [generatedFileName]. *)
Definition attachment_of (data : AttachmentDatum) : Attachment :=
{| att_generatedFileName := VUndef;
   att_filename := d_filename data;
   att_contentType := d_contentType data;
   att_contentDisposition := d_contentDisposition data;
   att_checksum := d_checksum data;
   att_size := d_size data;
   att_headers := d_headers data;
   att_contentId := d_cid data;
   att_related := d_related data;
   att_source := None |}.

(** The text branch reads from [data.text], not from [data]. *)
Definition on_text (fields : gmap string JsVal) (message : Message) : Result Message :=
let text := SrcPrim (default VUndef (fields !! "text")) in
m ← copy text "text" message "text" VUndef;
m ← copy text "html" m "html" VUndef;
copy text "textAsHtml" m "textAsHtml" VUndef.

(** The ['data'] listener of the parser.  The sink is asked of
  [outStreams.attachmentWriteStream]. *)
Definition on_parser_data (streamAttachments : bool) (outStreams : OutStreams)
  (data : Datum) (st : Ingest) : Result Ingest :=
match data with
| DAttachment a =>
    open_attachment_sink (attachmentWriteStream outStreams) streamAttachments
      (attachment_of a) st
| DText fields =>
    m ← on_text fields (ing_message st);
    Ok (with_message st m)
| DOther => Ok st
end.

Section Assembler.
Variable formatBytes : Z -> string.
Variable streamAttachments : bool.
Variable outStreams : OutStreams.

(** The ['end'] listener of [inStream]: it ends the raw sink, records
the size and completes. *)
Definition on_in_end (r : Run) : Run :=
let st := pipes_on_end (run_state r) in
let st := with_io st (opt_end (ing_emlStream st) (ing_io st)) in
let st := record_size formatBytes st in
complete (with_state r st).

(** This revision has no ['end'] listener on the parser. *)
Definition handle (r : Run) (ev : Event) : Result Run :=
let st := run_state r in
match ev with
| InData chunk => Ok (with_state r (on_in_data chunk st))
| InEnd => Ok (on_in_end r)
| ParserHeaders headers now =>
  m ← on_headers headers now (ing_message st);
  Ok (with_state r (with_message st m))
| ParserData data =>
  st' ← on_parser_data streamAttachments outStreams data st;
  Ok (with_state r st')
| ParserEnd => Ok (with_state r (mark_parser_ended st))
| ContentData i chunk => Ok (with_state r (on_content_data i chunk st))
| ContentEnd i => Ok (with_state r (on_content_end i st))
end.

Fixpoint run (r : Run) (trace : list Event) : Result Run :=
match trace with
| [] => Ok r
| ev :: rest => r' ← handle r ev; run r' rest
end.

Definition parseMessage (envelope : Envelope) (id : string) (io : Io)
(trace : list Event) : Result Run :=
r ← parseMessage_start envelope id outStreams io;
run r trace.

End Assembler.

(** [emlWriteStream(id)], bound and then called without an argument:
  [id + '.eml'] is ["undefined.eml"]. *)
Definition emlWriteStream (s : Store) (io : Io) : Result (JsObject * Io) :=
let '(w, io') := createWriteStream (path_join (mailDir s) "undefined.eml") io in
Ok (WriteStreamObj w, io').

(** [attachmentWriteStream(attachment)]: [this.attachmentDir()] joins the
  root with [undefined], which [path.join] refuses. *)
Definition attachmentWriteStream_method (s : Store) (attachment : Attachment) (io : Io)
: Result (JsObject * Io) :=
Thrown (TypeError "The path argument must be of type string").

Definition handleNewMessage (formatBytes : Z -> string) (s : Store) (id : string)
  (envelope : Envelope) (io : Io) (trace : list Event) : Result (Store * Run) :=
let outStreams :=
  {| emlStream := Some (emlWriteStream s);
     attachmentStream := Some (attachmentWriteStream_method s);
     attachmentWriteStream := None |} in
r ← parseMessage formatBytes true outStreams envelope id io trace;
Ok (register s r, r).

(** [match] is the array that [filter] returns: [match.contentType] and
  [match.source] are properties the array does not have. *)
Definition emailAttachmentStreamById (s : Store) (id : string) (filename : JsVal)
: Result (JsVal * ReadStream) :=
email ← emailById s id;
if bool_decide (msg_attachments email = []) then
  Err (Error "Email has no attachments")
else
  let match_ := filter (fun attachment =>
                  strict_eq (att_generatedFileName attachment) filename = true)
                  (msg_attachments email) in
  if bool_decide (match_ = []) then Err (Error "Attachment not found")
  else
    let contentType := VUndef in
    stream ← createReadStream None;
    Ok (contentType, stream).

End StoreJs.

(** ** [src/unnamed/part_002] *)
Module Part002.

(** The fifth argument of [copy]: a default value, or (when
  [typeof defaultValue === 'function']) a transformation. *)
Inductive DefaultValue :=
| DefaultVal (v : JsVal)
| Transform (f : JsVal -> JsVal).

Definition identity (t : JsVal) : JsVal := t.

(** [defaultValue] as a value: a function is an object. *)
Definition value_of (defaultValue : DefaultValue) : JsVal :=
match defaultValue with
| DefaultVal v => v
| Transform _ => VObj "function"
end.

Definition copy (src : Src) (srcKey : string) (dst : Message) (dstKey : string)
  (defaultValue : DefaultValue) : Result Message :=
let is_transform := match defaultValue with Transform _ => true | DefaultVal _ => false end in
let transform := match defaultValue with Transform f => f | DefaultVal _ => identity end in
in_map ← has_entry src srcKey;
if (in_map : bool) then Ok (set_prop dst dstKey (transform (map_get src srcKey)))
else
  v ← get_prop src srcKey;
  if truthy v then Ok (set_prop dst dstKey (transform v))
  else if negb is_transform && truthy (value_of defaultValue)
  then Ok (set_prop dst dstKey (value_of defaultValue))
  else Ok dst.

(** The ['headers'] listener. *)
Definition on_headers (headers : Src) (now : Z) (message : Message) : Result Message :=
sender ← get_prop headers "sender";
m ← copy headers "from" message "from" (DefaultVal sender);
m ← copy headers "to" m "to" (DefaultVal VUndef);
m ← copy headers "cc" m "cc" (DefaultVal VUndef);
m ← copy headers "bcc" m "bcc" (DefaultVal VUndef);
m ← copy headers "sender" m "sender" (DefaultVal VUndef);
m ← copy headers "reply-to" m "replyTo" (DefaultVal VUndef);
m ← copy headers "delivered-to" m "deliveredTo" (DefaultVal VUndef);
m ← copy headers "return-path" m "returnPath" (DefaultVal VUndef);
m ← copy headers "priority" m "priority" (DefaultVal VUndef);
m ← copy headers "subject" m "subject" (DefaultVal VUndef);
m ← copy headers "content-type" m "contentType" (DefaultVal VUndef);
m ← copy headers "content-disposition" m "contentDisposition" (DefaultVal VUndef);
m ← copy headers "dkim-signature" m "dkimSignature" (DefaultVal VUndef);
copy headers "date" m "time" (DefaultVal (VDate now)).

Definition attachment_of (data : AttachmentDatum) : Attachment :=
{| att_generatedFileName := d_filename data;
   att_filename := d_filename data;
   att_contentType := d_contentType data;
   att_contentDisposition := d_contentDisposition data;
   att_checksum := d_checksum data;
   att_size := d_size data;
   att_headers := d_headers data;
   att_contentId := d_cid data;
   att_related := d_related data;
   att_source := None |}.

Section Assembler.
(** [require('strip-tags')] and [utils.formatBytes]. *)
Variable stripTags : JsVal -> list string -> JsVal.
Variable formatBytes : Z -> string.
Variable streamAttachments : bool.
Variable outStreams : OutStreams.

(** The text branch: [data] is the parser's datum, a plain object. *)
Definition on_text (fields : gmap string JsVal) (message : Message) : Result Message :=
let data := SrcObj fields in
m ← copy data "text" message "text" (DefaultVal VUndef);
m ← copy data "html" m "html" (Transform (fun txt => stripTags txt ["script"]));
copy data "textAsHtml" m "textAsHtml" (DefaultVal VUndef).

(** The ['data'] listener of the parser.  The sink is asked of
[outStreams.attachmentStream]. *)
Definition on_parser_data (data : Datum) (st : Ingest) : Result Ingest :=
match data with
| DAttachment a =>
  open_attachment_sink (attachmentStream outStreams) streamAttachments
    (attachment_of a) st
| DText fields =>
  m ← on_text fields (ing_message st);
  Ok (with_message st m)
| DOther => Ok st
end.

(** The ['end'] listener of [inStream]: it records the size, ends the
raw sink and ends the parser. *)
Definition on_in_end (r : Run) : Run :=
let st := pipes_on_end (run_state r) in
let st := record_size formatBytes st in
let st := with_io st (opt_end (ing_emlStream st) (ing_io st)) in
with_state r (parser_end_call st).

(** The ['end'] listener of the parser completes. *)
Definition on_parser_end (r : Run) : Run :=
complete (with_state r (mark_parser_ended (run_state r))).

Definition handle (r : Run) (ev : Event) : Result Run :=
let st := run_state r in
match ev with
| InData chunk => Ok (with_state r (on_in_data chunk st))
| InEnd => Ok (on_in_end r)
| ParserHeaders headers now =>
  m ← on_headers headers now (ing_message st);
  Ok (with_state r (with_message st m))
| ParserData data =>
  st' ← on_parser_data data st;
  Ok (with_state r st')
| ParserEnd => Ok (on_parser_end r)
| ContentData i chunk => Ok (with_state r (on_content_data i chunk st))
| ContentEnd i => Ok (with_state r (on_content_end i st))
end.

Fixpoint run (r : Run) (trace : list Event) : Result Run :=
match trace with
| [] => Ok r
| ev :: rest => r' ← handle r ev; run r' rest
end.

Definition parseMessage (envelope : Envelope) (id : string) (io : Io)
(trace : list Event) : Result Run :=
r ← parseMessage_start envelope id outStreams io;
run r trace.

End Assembler.

(** The [emlStream] provider of [handleNewMessage]: it returns the write
  stream itself. *)
Definition emlStream_provider (s : Store) (id : string) (io : Io)
: Result (JsObject * Io) :=
let '(w, io') := createWriteStream (path_join (mailDir s) (id +:+ ".eml")) io in
Ok (WriteStreamObj w, io').

(** The [attachmentStream] provider of [handleNewMessage]. *)
Definition attachmentStream_provider (s : Store) (id : string)
  (attachment : Attachment) (io : Io) : Result (JsObject * Io) :=
let dir := path_join (mailDir s) id in
let d := if existsSync (disk io) dir then disk io else mkdirSync (disk io) dir in
match att_generatedFileName attachment with
| VStr name =>
    let source := path_join dir name in
    let '(w, io') := createWriteStream source {| disk := d; sinks := sinks io |} in
    Ok (SinkObj (Some source) [("stream", w)], io')
| _ => Thrown (TypeError "The path argument must be of type string")
end.

Definition handleNewMessage (stripTags : JsVal -> list string -> JsVal)
  (formatBytes : Z -> string) (s : Store) (id : string)
  (envelope : Envelope) (io : Io) (trace : list Event) : Result (Store * Run) :=
let outStreams :=
  {| emlStream := Some (emlStream_provider s id);
     attachmentStream := Some (attachmentStream_provider s id);
     attachmentWriteStream := None |} in
r ← parseMessage stripTags formatBytes true outStreams envelope id io trace;
Ok (register s r, r).

Definition emailAttachmentStreamById (s : Store) (id : string) (filename : JsVal)
: Result (JsVal * ReadStream) :=
email ← emailById s id;
if bool_decide (msg_attachments email = []) then
  Err (Error "Email has no attachments")
else
  let match_ := filter (fun attachment =>
                  strict_eq (att_generatedFileName attachment) filename = true)
                  (msg_attachments email) in
  match match_ with
  | [] => Err (Error "Attachment not found")
  | match0 :: _ =>
      let contentType := att_contentType match0 in
      stream ← createReadStream (att_source match0);
      Ok (contentType, stream)
  end.

End Part002.

(** ** [lib/mailserver.js]: the store-facing functions *)
Module MailServer.

Definition getEmail (s : Store) (id : string) : Result Message := emailById s id.

Definition getRawEmail (s : Store) (id : string) : Result ReadStream :=
emailStreamById s id.

Definition readAllEmail (s : Store) : Store * Z := markAllEmailRead s.

Definition getAllEmail (s : Store) : list Message := allEmails s.

(** [deleteEmail]: [done(null, true)] when the store passes an [ok],
  [done(err)] otherwise. *)
Definition deleteEmail (g : Globals) (s : Store) (d : Disk) (id : string)
: CallbackArgs bool * Store * Disk :=
match deleteById g s d id with
| (Callback err ok, s', d') =>
    (match ok with
     | Some _ => Callback None (Some true)
     | None => Callback err None
     end, s', d')
| (Uncaught e, s', d') => (Uncaught e, s', d')
end.

(** [deleteAllEmail]: [store.deleteAll()] is called without a callback, and
    [done(null, true)] follows at once. *)
Definition deleteAllEmail (g : Globals) (s : Store) (d : Disk)
  : CallbackArgs bool * Store * Disk * option JsError :=
  let '(s', d', thrown) := deleteAll g s d in
  (Callback None (Some true), s', d', thrown).

(** *** The regular expression of [getEmailHTML]

  The pattern is [src=], a double or single quote, [cid:], the content
  id as it is, and a double or single quote again, with the [g] flag.
  It is modelled for the content ids in which every character stands
  for itself or is a dot; any other character with a meaning in a
  pattern puts the id outside of the model. *)
Inductive Pat :=
| PChar (c : ascii)
| PAny
| PQuote.

#[export] Instance Pat_eq_dec : EqDecision Pat.
Proof. solve_decision. Defined.

Definition dquote : ascii := "034"%char.

Definition line_terminator (c : ascii) : bool :=
bool_decide (c = "010"%char) || bool_decide (c = "013"%char).

Definition pat_matches (p : Pat) (c : ascii) : bool :=
match p with
| PChar x => bool_decide (x = c)
| PAny => negb (line_terminator c)
| PQuote => bool_decide (c = dquote) || bool_decide (c = "'"%char)
end.

(** The text left after a match of [pat] at the start of [s]. *)
Fixpoint match_prefix (pat : list Pat) (s : list ascii) : option (list ascii) :=
match pat with
| [] => Some s
| p :: pat' =>
    match s with
    | [] => None
    | c :: s' => if pat_matches p c then match_prefix pat' s' else None
    end
end.

Definition syntax_chars : list ascii :=
list_ascii_of_string "\^$*+?()[]{}|".

Definition pat_of_char (c : ascii) : option Pat :=
if bool_decide (c = "."%char) then Some PAny
else if bool_decide (c ∈ syntax_chars) then None
else Some (PChar c).

Definition literal (s : string) : list Pat := PChar <$> list_ascii_of_string s.

Definition cid_pattern (cid : string) : option (list Pat) :=
body ← mapM pat_of_char (list_ascii_of_string cid);
Some (literal "src=" ++ [PQuote] ++ literal "cid:" ++ body ++ [PQuote]).

(** [s.replace(regex, replacement)] with the [g] flag: matches are taken
  from left to right and do not overlap; [skip] counts the characters
  of a match still to be passed over. *)
Fixpoint replace_from (pat : list Pat) (replacement : list ascii)
  (s : list ascii) (skip : nat) : list ascii :=
match s with
| [] => []
| c :: rest =>
    match skip with
    | S k => replace_from pat replacement rest k
    | O =>
        match match_prefix pat s with
        | Some _ => replacement ++ replace_from pat replacement rest (List.length pat - 1)
        | None => c :: replace_from pat replacement rest 0
        end
    end
end.

Definition is_ascii (s : list ascii) : bool :=
forallb (fun c => (N_of_ascii c <? 128)%N) s.

(** [html.replace(regex, replacement)] where the model has an answer: the
  replacement holds no [$], and a pattern with a dot runs on ASCII
  text only (a dot stands for one UTF-16 unit, strings here are
  bytes). *)
Definition js_replace (cid : string) (replacement : string) (html : string)
: option string :=
pat ← cid_pattern cid;
if bool_decide ("$"%char ∈ list_ascii_of_string replacement) then None
else if bool_decide (PAny ∈ pat) && negb (is_ascii (list_ascii_of_string html)) then None
else Some (string_of_list_ascii
             (replace_from pat (list_ascii_of_string replacement)
                (list_ascii_of_string html) 0)).

(** *** [encodeURIComponent] on byte strings *)
Definition unreserved (c : ascii) : bool :=
let n := N_of_ascii c in
((48 <=? n) && (n <=? 57) || (65 <=? n) && (n <=? 90) || (97 <=? n) && (n <=? 122))%N
|| bool_decide (c ∈ list_ascii_of_string "-_.!~*'()").

Definition hex_digit (n : N) : ascii :=
ascii_of_N (if (n <? 10)%N then 48 + n else 55 + n)%N.

Definition percent_encode (c : ascii) : list ascii :=
if unreserved c then [c]
else let n := N_of_ascii c in
     ["%"%char; hex_digit (n / 16)%N; hex_digit (n mod 16)%N].

Definition encodeURIComponent (s : string) : string :=
string_of_list_ascii (concat (percent_encode <$> list_ascii_of_string s)).

(** [String(v)] for the values a file name or content id is expected to
  be. *)
Definition to_string (v : JsVal) : option string :=
match v with
| VStr s => Some s
| VUndef => Some "undefined"
| VNull => Some "null"
| VBool true => Some "true"
| VBool false => Some "false"
| _ => None
end.

(** [if (baseUrl) { baseUrl = '//' + baseUrl }] and, later, [baseUrl || ''] *)
Definition base_prefix (baseUrl : option string) : string :=
match baseUrl with
| Some b => if String.eqb b "" then "" else "//" +:+ b
| None => ""
end.

Definition getFileUrl (id : string) (prefix : string) (filename : string) : string :=
prefix +:+ "/email/" +:+ id +:+ "/attachment/" +:+ encodeURIComponent filename.

(** One turn of [embeddedAttachments.forEach]; [None] is an input the
  model of [replace] does not cover. *)
Definition replace_cid (id : string) (prefix : string) (attachment : Attachment)
  (html : JsVal) : option (Result JsVal) :=
match att_contentId attachment with
| VStr cid =>
    filename ← to_string (att_generatedFileName attachment);
    let replacement :=
      "src=" +:+ String dquote (getFileUrl id prefix filename) +:+ String dquote "" in
    match html with
    | VStr h => (fun r => Ok (VStr r)) <$> js_replace cid replacement h
    | VUndef | VNull => Some (Thrown (TypeError "Cannot read properties of undefined"))
    | _ => Some (Thrown (TypeError "html.replace is not a function"))
    end
| _ => None
end.

Fixpoint replace_cids (id : string) (prefix : string) (embedded : list Attachment)
  (html : JsVal) : option (Result JsVal) :=
match embedded with
| [] => Some (Ok html)
| attachment :: rest =>
    match replace_cid id prefix attachment html with
    | Some (Ok html') => replace_cids id prefix rest html'
    | other => other
    end
end.

Definition getEmailHTML (s : Store) (id : string) (baseUrl : option string)
: option (Result JsVal) :=
match getEmail s id with
| Err err => Some (Err err)
| Thrown e => Some (Thrown e)
| Ok email =>
    let html := prop email "html" in
    let embeddedAttachments :=
      filter (fun attachment => truthy (att_contentId attachment) = true)
        (msg_attachments email) in
    replace_cids id (base_prefix baseUrl) embeddedAttachments html
end.

(** *** Relay *)

Inductive RelayOutcome :=
| RelayDone (err : JsError)                       (* [done(err)] *)
| RelayHandedOver (mail : Message) (raw : ReadStream) (isAutoRelay : bool)
                                                 (* [outgoing.relayMail(...)] *)
| RelayThrown (e : JsError).

(** [relayMail] with a mail object. *)
Definition relay_object (outgoing_enabled : bool) (s : Store) (mail : Message)
  (isAutoRelay : bool) : RelayOutcome :=
if negb outgoing_enabled then RelayDone (Error "Outgoing mail not configured")
else
  match getRawEmail s (msg_id mail) with
  | Err err => RelayDone err
  | Thrown e => RelayThrown e
  | Ok rawEmailStream => RelayHandedOver mail rawEmailStream isAutoRelay
  end.

(** [relayMail] with an id: the record is looked up and [relayMail] is
  entered again with it (and without [isAutoRelay]). *)
Definition relayMail (outgoing_enabled : bool) (s : Store) (id : string) : RelayOutcome :=
if negb outgoing_enabled then RelayDone (Error "Outgoing mail not configured")
else
  match getEmail s id with
  | Err err => RelayDone err
  | Thrown e => RelayThrown e
  | Ok email => relay_object outgoing_enabled s email false
  end.

End MailServer.

(** ** Sample data *)

Module Sample.

Definition envelope : Envelope :=
{| env_from := VObj "mailFrom"; env_to := VObj "rcptTo";
   env_host := VStr "client.local"; env_remoteAddress := VStr "127.0.0.1" |}.

Definition root : Path := ["tmp"; "maildev"].

Definition empty_store : Store := {| mailDir := root; messages := [] |}.

(** The root directory exists ([init] has run) and is empty. *)
Definition fresh_io : Io :=
{| disk := {| files := ∅; dirs := {[ root ]} |}; sinks := [] |}.

(** Stand-ins for [utils.formatBytes] and [strip-tags]. *)
Definition formatBytes (n : Z) : string := "bytes".
Definition stripTags (v : JsVal) (tags : list string) : JsVal :=
match v with
| VStr s => VStr ("stripped:" +:+ s)
| other => other
end.

Definition image : Attachment :=
{| att_generatedFileName := VStr "logo.png";
   att_filename := VStr "logo.png";
   att_contentType := VStr "image/png";
   att_contentDisposition := VStr "inline";
   att_checksum := VStr "c0ffee";
   att_size := VNum 3;
   att_headers := VObj "headers";
   att_contentId := VStr "logo@maildev";
   att_related := VBool true;
   att_source := Some (path_join (path_join root "m1") "logo.png") |}.

Definition record (id : string) (atts : list Attachment) : Message :=
set_attachments (new_message envelope id) atts.

Definition image_datum : AttachmentDatum :=
{| d_filename := VStr "logo.png"; d_contentType := VStr "image/png";
   d_contentDisposition := VStr "inline"; d_checksum := VStr "c0ffee";
   d_size := VNum 3; d_headers := VObj "headers";
   d_cid := VStr "logo@maildev"; d_related := VBool true |}.

Definition text_fields : gmap string JsVal :=
{[ "text" := VStr "Hello";
   "html" := VStr "<p>Hello</p><script>x()</script>";
   "textAsHtml" := VStr "<p>Hello</p>" ]}.

End Sample.

(** ** Names used in the statements *)

Definition mark (m : Message) : Message := if not_read m then set_read m else m.

Definition not_found : JsError := Error "Email was not found".

Definition no_path : JsError := TypeError "The path argument must be of type string".

Definition nullish (v : JsVal) : bool :=
  match v with
  | VUndef | VNull => true
  | _ => false
  end.

Definition no_property : JsError := TypeError "Cannot read properties of undefined".

(** The (source header, target field) pairs of the ['headers'] listener, in
    its order, each with the default its [copy] is given. *)
Definition header_defaults (sender : JsVal) (now : Z) : list (string * string * JsVal) :=
  [ ("from", "from", sender);
    ("to", "to", VUndef);
    ("cc", "cc", VUndef);
    ("bcc", "bcc", VUndef);
    ("sender", "sender", VUndef);
    ("reply-to", "replyTo", VUndef);
    ("delivered-to", "deliveredTo", VUndef);
    ("return-path", "returnPath", VUndef);
    ("priority", "priority", VUndef);
    ("subject", "subject", VUndef);
    ("content-type", "contentType", VUndef);
    ("content-disposition", "contentDisposition", VUndef);
    ("dkim-signature", "dkimSignature", VUndef);
    ("date", "time", VDate now) ].

(** One [copy] from a [Map], as the later revision does it. *)
Definition map_step (entries : gmap string JsVal) (m : Message)
    (e : string * string * JsVal) : Message :=
  match entries !! e.1.1 with
  | Some v => set_prop m e.1.2 v
  | None => if truthy e.2 then set_prop m e.1.2 e.2 else m
  end.

(** One [copy] from a plain object. *)
Definition obj_step (fields : gmap string JsVal) (m : Message)
    (e : string * string * JsVal) : Message :=
  if truthy (default VUndef (fields !! e.1.1))
  then set_prop m e.1.2 (default VUndef (fields !! e.1.1))
  else if truthy e.2 then set_prop m e.1.2 e.2 else m.

(** The bytes the inbound stream has delivered along a trace. *)
Fixpoint inbound_bytes (trace : list Event) : Z :=
  match trace with
  | [] => 0
  | InData chunk :: rest => Z.of_nat (String.length chunk) + inbound_bytes rest
  | _ :: rest => inbound_bytes rest
  end.

Module Trace.

(** A two-byte message with a subject: the stream drains, then the parser
  reports the headers and ends. *)
Definition plain : list Event :=
[ InData "Hi"; InEnd;
  ParserHeaders (SrcMap {[ "subject" := VStr "Hi" ]}) 9;
  ParserEnd ].

(** A message with one inline image. *)
Definition with_image : list Event :=
[ InData "Hi";
  ParserHeaders (SrcMap {[ "subject" := VStr "Hi" ]}) 9;
  ParserData (DAttachment Sample.image_datum);
  ContentData 0 "PNG";
  InEnd;
  ContentEnd 0;
  ParserData (DText Sample.text_fields);
  ParserEnd ].

End Trace.

(** ** What the streams promise

    The listeners are called by Node's streams and by the parser, which
    keep to their contracts: a stream emits nothing after its 'end'; the
    parser emits its 'end' only once it has been ended, and holds it until
    every attachment it handed out has been released; the content stream of
    an attachment ends once. *)

Definition all_released (st : Ingest) : bool :=
  forallb (fun i => bool_decide (i ∈ ing_released st))
    (seq 0 (List.length (ing_contents st))).

Definition enabled (st : Ingest) (ev : Event) : bool :=
  match ev with
  | InData _ | InEnd => negb (ing_in_ended st)
  | ParserHeaders _ _ | ParserData _ => negb (ing_parser_ended st)
  | ParserEnd =>
      ing_parser_end_called st && negb (ing_parser_ended st) && all_released st
  | ContentData i _ | ContentEnd i =>
      bool_decide (i < List.length (ing_contents st))%nat
      && negb (bool_decide (i ∈ ing_released st))
  end.

(** Every event of the trace is one the contracts allow when it comes. *)
Fixpoint obeys (handle : Run -> Event -> Result Run) (r : Run) (trace : list Event)
  : bool :=
  match trace with
  | [] => true
  | ev :: rest =>
      enabled (run_state r) ev
      && match handle r ev with
         | Ok r' => obeys handle r' rest
         | _ => true
         end
  end.

(** The sink [w] exists and has been ended. *)
Definition sink_closed (io : Io) (w : nat) : Prop :=
  ∃ k, sinks io !! w = Some k ∧ sink_ended k = true.

(** The [outStreams] that [handleNewMessage] of the later revision builds. *)
Definition Part002_outStreams (s : Store) (id : string) : OutStreams :=
  {| emlStream := Some (Part002.emlStream_provider s id);
     attachmentStream := Some (Part002.attachmentStream_provider s id);
     attachmentWriteStream := None |}.

(** What holds of an ingestion of the later revision after the events
    [done], when they came as the contracts allow. *)
Record Joined (formatBytes : Z -> string) (done : list Event) (r : Run) : Prop := {
  j_size : ing_size (run_state r) = inbound_bytes done;
  j_not_drained : ing_in_ended (run_state r) = false →
                  ing_parser_end_called (run_state r) = false;
  j_drained : ing_parser_end_called (run_state r) = true →
              msg_size (ing_message (run_state r)) = Some (ing_size (run_state r)) ∧
              msg_sizeHuman (ing_message (run_state r))
              = Some (formatBytes (ing_size (run_state r)));
  j_ended : ing_parser_ended (run_state r) = true →
            ing_parser_end_called (run_state r) = true ∧
            List.length (run_completions r) = 1%nat;
  j_not_ended : ing_parser_ended (run_state r) = false → run_completions r = [];
  j_seen_end : ParserEnd ∈ done → ing_parser_ended (run_state r) = true;
  j_sinks : ∀ i w, ing_contents (run_state r) !! i = Some (Some w) →
            (w < List.length (sinks (ing_io (run_state r))))%nat;
  j_released : ∀ i, i ∈ ing_released (run_state r) →
               ∃ w, ing_contents (run_state r) !! i = Some (Some w) ∧
                    sink_closed (ing_io (run_state r)) w;
  j_completions : ∀ c, c ∈ run_completions r →
      ing_in_ended c = true ∧
      msg_size (ing_message c) = Some (inbound_bytes done) ∧
      msg_sizeHuman (ing_message c) = Some (formatBytes (inbound_bytes done)) ∧
      ing_parser_ended c = true ∧
      ∀ i w, ing_contents c !! i = Some (Some w) → sink_closed (ing_io c) w
}.

(** The properties of a record that no [copy] touches. *)
Definition same_but_props (m m' : Message) : Prop :=
  msg_id m' = msg_id m ∧ msg_attachments m' = msg_attachments m ∧
  msg_source m' = msg_source m ∧ msg_size m' = msg_size m ∧
  msg_sizeHuman m' = msg_sizeHuman m ∧ msg_read m' = msg_read m.

(** The events of [trace] come as the contracts allow, for an ingestion
    that [handleNewMessage] of the later revision has started. *)
Definition Part002_obeys (stripTags : JsVal -> list string -> JsVal)
    (formatBytes : Z -> string) (s : Store) (id : string) (envelope : Envelope)
    (io : Io) (trace : list Event) : bool :=
  match parseMessage_start envelope id (Part002_outStreams s id) io with
  | Ok r0 =>
      obeys (Part002.handle stripTags formatBytes true (Part002_outStreams s id)) r0 trace
  | _ => true
  end.

(** The value a call has left, for a call that is known to succeed. *)
Definition ok_or {A : Type} (d : A) (x : Result A) : A :=
  match x with
  | Ok a => a
  | _ => d
  end.

Module Ingestion.

Definition blank : Ingest :=
{| ing_message := new_message Sample.envelope "";
   ing_size := 0; ing_emlStream := None; ing_contents := []; ing_released := [];
   ing_parser_input := ""; ing_parser_end_called := false;
   ing_in_ended := false; ing_parser_ended := false;
   ing_io := Sample.fresh_io |}.

Definition blank_pair : Store * Run :=
(Sample.empty_store, {| run_state := blank; run_completions := [] |}).

(** The plain message through [src/lib/store.js]. *)
Definition plain_StoreJs : Store * Run :=
ok_or blank_pair
  (StoreJs.handleNewMessage Sample.formatBytes Sample.empty_store "m1"
     Sample.envelope Sample.fresh_io Trace.plain).

(** The plain message and the one with an image through the later
  revision. *)
Definition plain_Part002 : Store * Run :=
ok_or blank_pair
  (Part002.handleNewMessage Sample.stripTags Sample.formatBytes
     Sample.empty_store "m1" Sample.envelope Sample.fresh_io Trace.plain).

Definition image_Part002 : Store * Run :=
ok_or blank_pair
  (Part002.handleNewMessage Sample.stripTags Sample.formatBytes
     Sample.empty_store "m1" Sample.envelope Sample.fresh_io Trace.with_image).

(** The state at the first completion. *)
Definition first_completion (p : Store * Run) : Ingest :=
default blank (head (run_completions p.2)).

End Ingestion.

(** What holds of the raw file throughout an ingestion that
    [handleNewMessage] has started: no stream to it is kept, the record has
    no [source], the file is empty, and no attachment sink is on its path. *)
Record Unwritten (raw : Path) (st : Ingest) : Prop := {
  u_stream : ing_emlStream st = None;
  u_source : msg_source (ing_message st) = None;
  u_file : files (disk (ing_io st)) !! raw = Some "";
  u_sinks : ∀ i w, ing_contents st !! i = Some (Some w) →
            ∃ k, sinks (ing_io st) !! w = Some k ∧ sink_path k ≠ raw
}.

Module Removal.

(** A store with one record whose raw file is on the disk. *)
Definition store : Store :=
{| mailDir := Sample.root; messages := [Sample.record "m1" []] |}.

Definition disk : Disk :=
{| files := {[ path_join Sample.root "m1.eml" := "Hi" ]};
   dirs := {[ Sample.root ]} |}.

(** A [rimraf] that removes what it is given. *)
Definition rimraf (p : option Path) (d : Disk) : Result Disk :=
match p with
| Some q => Ok (remove_tree q d)
| None => Thrown (Error "rimraf: missing path")
end.



End Removal.

(** ** An html body as text and references

    A body is cut into pieces: plain text, and references
    [src=<quote>cid:<content id><quote>] to the k-th embedded attachment. *)
Module Html.
Import MailServer.

Inductive Piece :=
| Text (t : string)
| CidRef (k : nat) (q1 q2 : ascii).


Definition cid_of (a : Attachment) : string :=
match att_contentId a with
| VStr c => c
| _ => ""
end.

Definition name_of (a : Attachment) : string :=
default "" (to_string (att_generatedFileName a)).

(** The reference as the sender wrote it. *)
Definition ref_text (cid : string) (q1 q2 : ascii) : list ascii :=
list_ascii_of_string "src=" ++ q1 :: list_ascii_of_string "cid:"
  ++ list_ascii_of_string cid ++ [q2].

(** The attribute that takes its place:
  [src="<prefix>/email/<id>/attachment/<encoded file name>"]. *)
Definition url_attr (id prefix : string) (a : Attachment) : list ascii :=
list_ascii_of_string
  ("src=" +:+ String dquote (getFileUrl id prefix (name_of a)) +:+ String dquote "").

(** A piece once the first [n] embedded attachments have had their turn. *)
Definition render (id prefix : string) (embedded : list Attachment) (n : nat)
  (p : Piece) : list ascii :=
match p with
| Text t => list_ascii_of_string t
| CidRef k q1 q2 =>
    match embedded !! k with
    | Some a => if (k <? n)%nat then url_attr id prefix a
                else ref_text (cid_of a) q1 q2
    | None => []
    end
end.

Definition html_at (id prefix : string) (embedded : list Attachment) (n : nat)
  (pieces : list Piece) : list ascii :=
concat (render id prefix embedded n <$> pieces).

(** The body as stored, and with every reference resolved. *)
Definition source_html (id prefix : string) (embedded : list Attachment)
  (pieces : list Piece) : string :=
string_of_list_ascii (html_at id prefix embedded 0 pieces).








End Html.

(** Every attachment of the record has a file name and lies under it in the
    attachment directory of the message. *)
Definition stored_by_name (root : Path) (id : string) (m : Message) : Prop :=
  ∀ a, a ∈ msg_attachments m →
    ∃ name, att_generatedFileName a = VStr name ∧
            att_source a = Some (path_join (path_join root id) name).

Module Page.
Import MailServer Html.

(** A string between double quotes. *)
Definition quoted (s : string) : string := String dquote s +:+ String dquote "".

Definition inline : Attachment :=
{| att_generatedFileName := VStr "logo 1.png";
   att_filename := VStr "logo 1.png";
   att_contentType := VStr "image/png";
   att_contentDisposition := VStr "inline";
   att_checksum := VStr "c0ffee";
   att_size := VNum 3;
   att_headers := VObj "headers";
   att_contentId := VStr "logo@maildev.test";
   att_related := VBool true;
   att_source := Some (path_join (path_join Sample.root "m1") "logo 1.png") |}.

Definition report : Attachment :=
{| att_generatedFileName := VStr "report.pdf";
   att_filename := VStr "report.pdf";
   att_contentType := VStr "application/pdf";
   att_contentDisposition := VStr "attachment";
   att_checksum := VStr "decaf";
   att_size := VNum 9;
   att_headers := VObj "headers";
   att_contentId := VUndef;
   att_related := VBool false;
   att_source := Some (path_join (path_join Sample.root "m1") "report.pdf") |}.

(** Two references to the image, one in double and one in single quotes. *)
Definition pieces : list Piece :=
[ Text "<p>Hello</p><img alt='logo' ";
  CidRef 0 dquote dquote;
  Text "><img ";
  CidRef 0 "'"%char "'"%char;
  Text ">" ].

Definition body : string := source_html "m1" "" [inline] pieces.

Definition email : Message :=
set_prop (Sample.record "m1" [report; inline]) "html" (VStr body).

Definition store : Store := {| mailDir := Sample.root; messages := [email] |}.


Definition answered : string :=
"<p>Hello</p><img alt='logo' src="
+:+ quoted "//localhost:1080/email/m1/attachment/logo%201.png"
+:+ "><img src="
+:+ quoted "//localhost:1080/email/m1/attachment/logo%201.png" +:+ ">".

(** Two images; the content id of the first, read as a pattern, also
  matches the content id of the second. *)
Definition first : Attachment :=
{| att_generatedFileName := VStr "A.png"; att_filename := VStr "A.png";
   att_contentType := VStr "image/png"; att_contentDisposition := VStr "inline";
   att_checksum := VStr "a"; att_size := VNum 1; att_headers := VObj "headers";
   att_contentId := VStr "a.c"; att_related := VBool true;
   att_source := Some (path_join (path_join Sample.root "m2") "A.png") |}.



End Page.

(** An [emlStream] provider of the shape [parseMessage] destructures: the
    path as [source], the stream as [emlStream]; with the attachment
    provider of the later revision. *)
Definition shaped_emlStream (s : Store) (id : string) (io : Io) : Result (JsObject * Io) :=
  let raw := path_join (mailDir s) (id +:+ ".eml") in
  let '(w, io') := createWriteStream raw io in
  Ok (SinkObj (Some raw) [("emlStream", w)], io').

Definition shaped_outStreams (s : Store) (id : string) : OutStreams :=
  {| emlStream := Some (shaped_emlStream s id);
     attachmentStream := Some (Part002.attachmentStream_provider s id);
     attachmentWriteStream := None |}.

(** What holds of the raw file when the provider has that shape and the
    events come as the contracts allow. *)
Record Written (raw : Path) (r : Run) : Prop := {
  w_source : msg_source (ing_message (run_state r)) = Some raw;
  w_stream : ∃ w k, ing_emlStream (run_state r) = Some w ∧
             sinks (ing_io (run_state r)) !! w = Some k ∧ sink_path k = raw ∧
             (sink_ended k = true → ing_in_ended (run_state r) = true);
  w_file : ∃ content, files (disk (ing_io (run_state r))) !! raw = Some content ∧
           ing_size (run_state r) = Z.of_nat (String.length content);
  w_not_drained : ing_in_ended (run_state r) = false →
                  ing_parser_end_called (run_state r) = false;
  w_drained : ing_parser_end_called (run_state r) = true →
              msg_size (ing_message (run_state r)) = Some (ing_size (run_state r));
  w_sinks : ∀ i w, ing_contents (run_state r) !! i = Some (Some w) →
            ∃ k, sinks (ing_io (run_state r)) !! w = Some k ∧ sink_path k ≠ raw;
  w_completions : ∀ c, c ∈ run_completions r →
      msg_source (ing_message c) = Some raw ∧
      ∃ content, files (disk (ing_io c)) !! raw = Some content ∧
                 msg_size (ing_message c) = Some (Z.of_nat (String.length content))
}.

(** ** [lib/mailserver.js]: the server-facing functions *)
Module Server.

(** *** [getHideExtensionOptions] *)

Definition HIDEABLE_EXTENSIONS : list string :=
["STARTTLS"; "PIPELINING"; "8BITMIME"; "SMTPUTF8"].

Definition upper_char (c : ascii) : ascii :=
let n := N_of_ascii c in
if ((97 <=? n) && (n <=? 122))%N then ascii_of_N (n - 32) else c.

(** [extension.toUpperCase()] on ASCII text; [None] for a text with a
  unit outside of ASCII, whose upper case is not modelled. *)
Definition toUpperCase (s : string) : option string :=
if MailServer.is_ascii (list_ascii_of_string s)
then Some (string_of_list_ascii (upper_char <$> list_ascii_of_string s))
else None.

(** One turn of the reducer: [options['hide' + ext] = true], or the
  exception for a name that is not in the list. *)
Definition hide_turn (options : gmap string JsVal) (extension : string)
: option (Result (gmap string JsVal)) :=
ext ← toUpperCase extension;
Some (if bool_decide (ext ∈ HIDEABLE_EXTENSIONS)
      then Ok (<["hide" +:+ ext := VBool true]> options)
      else Thrown (Error ("Invalid hideable extension: " +:+ ext))).

(** [extensions.reduce(..., options)]; an exception ends it. *)
Fixpoint reduce (extensions : list string) (options : gmap string JsVal)
: option (Result (gmap string JsVal)) :=
match extensions with
| [] => Some (Ok options)
| extension :: rest =>
    match hide_turn options extension with
    | Some (Ok options') => reduce rest options'
    | other => other
    end
end.

(** [extensions] is an array of names, or missing. *)
Definition getHideExtensionOptions (extensions : option (list string))
: option (Result (gmap string JsVal)) :=
match extensions with
| None => Some (Ok ∅)
| Some l => reduce l ∅
end.

(** *** [getEmailEml]

  The file name is built from [email.id], and [email] is no parameter
  and no variable of the module: [email] is what that name is bound to
  in the global scope, [None] when it is not bound. *)
Definition getEmailEml (email : option Message) (s : Store) (id : string)
: Result (string * string * ReadStream) :=
match emailStreamById s id with
| Err err => Err err
| Thrown e => Thrown e
| Ok stream =>
    match email with
    | None => Thrown (ReferenceError "email")
    | Some e => Ok ("message/rfc822", msg_id e +:+ ".eml", stream)
    end
end.

(** *** [relayMail], with its optional argument

  A callback is known by a label; [None] is a callback that was not
  passed ([undefined]). *)
Inductive Arg :=
| AFunction (f : string)
| AValue (v : JsVal).

Inductive Relayed :=
| Called (f : string) (err : JsError)          (* [done(err)] *)
| HandedOver (mail : Message) (raw : ReadStream) (isAutoRelay : JsVal)
             (done : option string)            (* [outgoing.relayMail(...)] *)
| Threw (e : JsError).

(** [done(err)] *)
Definition call (done : option string) (err : JsError) : Relayed :=
match done with
| Some f => Called f err
| None => Threw (TypeError "done is not a function")
end.

(** [if (typeof isAutoRelay === 'function') { done = isAutoRelay; isAutoRelay = false }] *)
Definition optional (isAutoRelay : Arg) (done : option string) : JsVal * option string :=
match isAutoRelay with
| AFunction f => (VBool false, Some f)
| AValue v => (v, done)
end.

(** [relayMail(mail, isAutoRelay, done)] with a mail object. *)
Definition relayMail_object (outgoing_enabled : bool) (s : Store) (mail : Message)
  (isAutoRelay : Arg) (done : option string) : Relayed :=
if negb outgoing_enabled then call done (Error "Outgoing mail not configured")
else
  let '(isAutoRelay, done) := optional isAutoRelay done in
  match MailServer.getRawEmail s (msg_id mail) with
  | Err err => call done err
  | Thrown e => Threw e
  | Ok rawEmailStream => HandedOver mail rawEmailStream isAutoRelay done
  end.

(** [relayMail(id, isAutoRelay, done)] with an id: once the record is
  found, [relayMail(email, done)] is called. *)
Definition relayMail (outgoing_enabled : bool) (s : Store) (id : string)
  (isAutoRelay : Arg) (done : option string) : Relayed :=
if negb outgoing_enabled then call done (Error "Outgoing mail not configured")
else
  let '(_, done) := optional isAutoRelay done in
  match MailServer.getEmail s id with
  | Err err => call done err
  | Thrown e => Threw e
  | Ok email =>
      relayMail_object outgoing_enabled s email
        (match done with Some f => AFunction f | None => AValue VUndef end) None
  end.

(** *** [handleDataStream] and [onNewMessageReceived] *)

Record Session := {
  mailFrom : JsVal;             (* [session.envelope.mailFrom] *)
  rcptTo : JsVal;               (* [session.envelope.rcptTo] *)
  hostNameAppearsAs : JsVal;
  remoteAddress : JsVal
}.

Definition envelope_of (session : Session) : Envelope :=
{| env_from := mailFrom session; env_to := rcptTo session;
   env_host := hostNameAppearsAs session;
   env_remoteAddress := remoteAddress session |}.

(** What [lib/outgoing] answers. *)
Record Outgoing := {
  isEnabled : bool;
  isAutoRelayEnabled : bool
}.

(** What the server has done for the message so far. *)
Record Served := {
  pushed : nat;                 (* [this.messages.push(message)] *)
  emitted : list Message;       (* ['new'] events, with the record as it was *)
  relayed : list Relayed;       (* what the automatic relays came to *)
  replies : list string         (* [callback(null, reply)] *)
}.

(** The store as it is while the message is served: the records that
  were there, then the record of the message, as it now is, once for
  each [push]. *)
Definition index (s : Store) (message : Message) (sv : Served) : Store :=
with_messages s (messages s ++ repeat message (pushed sv)).

(** The callback of the automatic relay only logs. *)
Definition onNewMessageReceived (outgoing : Outgoing) (store : Store)
  (serialized : Message) (sv : Served) : Result Served :=
relay ← (if isAutoRelayEnabled outgoing then
           match relayMail_object (isEnabled outgoing) store serialized
                   (AValue (VBool true)) (Some "log") with
           | Threw e => Thrown e
           | other => Ok [other]
           end
         else Ok []);
Ok {| pushed := pushed sv; emitted := emitted sv ++ [serialized];
      relayed := relayed sv ++ relay; replies := replies sv |}.

(** What a completion sets off: the callback that [handleNewMessage]
  gives [parseMessage] pushes the record, then calls the one that
  [handleDataStream] gave it.  [parseMessage] calls back with the record
  and with nothing else, so it is the branch of [if (message)] that
  runs. *)
Definition on_message (outgoing : Outgoing) (s : Store) (message : Message)
  (sv : Served) : Result Served :=
let sv := {| pushed := S (pushed sv); emitted := emitted sv;
             relayed := relayed sv; replies := replies sv |} in
sv ← onNewMessageReceived outgoing (index s message sv) message sv;
Ok {| pushed := pushed sv; emitted := emitted sv; relayed := relayed sv;
      replies := replies sv ++ ["Message queued as " +:+ msg_id message] |}.

Section Serving.
Variable handle : Run -> Event -> Result Run.
Variable outgoing : Outgoing.
Variable s : Store.

(** The listeners at work: a listener that completes runs the callback
as its last statement. *)
Fixpoint serve (sv : Served) (r : Run) (trace : list Event) : Result (Served * Run) :=
match trace with
| [] => Ok (sv, r)
| ev :: rest =>
  r' ← handle r ev;
  sv' ← (if (List.length (run_completions r) <? List.length (run_completions r'))%nat
         then on_message outgoing s (ing_message (run_state r')) sv
         else Ok sv);
  serve sv' r' rest
end.

End Serving.

(** The [outStreams] that [handleNewMessage] of [src/lib/store.js] builds. *)
Definition outStreams (s : Store) : OutStreams :=
{| emlStream := Some (StoreJs.emlWriteStream s);
   attachmentStream := Some (StoreJs.attachmentWriteStream_method s);
   attachmentWriteStream := None |}.

(** [handleDataStream(stream, session, callback)]; [id] is what
  [utils.makeId()] returns. *)
Definition handleDataStream (formatBytes : Z -> string) (outgoing : Outgoing)
  (s : Store) (id : string) (session : Session) (io : Io) (trace : list Event)
: Result (Served * Run) :=
r ← parseMessage_start (envelope_of session) id (outStreams s) io;
serve (StoreJs.handle formatBytes true (outStreams s)) outgoing s
  {| pushed := 0; emitted := []; relayed := []; replies := [] |} r trace.

End Server.

(** ** [methodOf] of [src/unnamed/part_002] *)
Module MethodOf.

(** An object as [methodOf] looks at it: its own property names, in the
  order [Object.getOwnPropertyNames] lists them, each with whether the
  value read through the object is a function (reading a property is
  taken not to throw). *)
Definition Own := list (string * bool).

(** [properties.add(item)] on a [Set]: a name that is there stays where it
  is. *)
Definition add (properties : list string) (item : string) : list string :=
if bool_decide (item ∈ properties) then properties else properties ++ [item].

(** [typeof obj[item] === 'function']: the first object of the chain with
  a property of that name decides. *)
Fixpoint is_function (chain : list Own) (item : string) : bool :=
match chain with
| [] => false
| own :: protos =>
    match List.find (fun kv => String.eqb (fst kv) item) own with
    | Some kv => snd kv
    | None => is_function protos item
    end
end.

(** [methodOf(obj)]: [obj] with its own properties, then its prototypes up
  to the end of the chain. *)
Definition methodOf (obj : Own) (protos : list Own) : list string :=
let properties :=
  foldl (fun properties currentObj => foldl add properties (currentObj.*1))
    [] (obj :: protos) in
filter (fun item => is_function (obj :: protos) item = true) properties.

End MethodOf.

(** ** Further names used in the statements *)

(** The attachment data of a trace, in the order the parser hands them
    out. *)
Definition attachment_data (trace : list Event) : list AttachmentDatum :=
  omap (fun ev => match ev with
                  | ParserData (DAttachment a) => Some a
                  | _ => None
                  end) trace.


(** The properties of the record that the listeners of [parseMessage]
    write with [copy]. *)
Definition copy_targets : list string :=
  [ "from"; "to"; "cc"; "bcc"; "sender"; "replyTo"; "deliveredTo"; "returnPath";
    "priority"; "subject"; "contentType"; "contentDisposition"; "dkimSignature";
    "time"; "text"; "html"; "textAsHtml" ].

(** What no listener changes of a record: its id, its [read] flag, its
    [source], and the properties that are no target of [copy]. *)
Definition untouched (m m' : Message) : Prop :=
  msg_id m' = msg_id m ∧ msg_read m' = msg_read m ∧
  msg_source m' = msg_source m ∧
  ∀ key, key ∉ copy_targets → prop m' key = prop m key.

(** The bytes the content stream of attachment [i] delivers along a trace. *)
Definition content_bytes (i : nat) (trace : list Event) : string :=
  foldl (fun bytes ev => match ev with
                         | ContentData j chunk =>
                             if decide (j = i) then bytes +:+ chunk else bytes
                         | _ => bytes
                         end) "" trace.

(** The events of [trace] come as the contracts allow, for an ingestion
    that [handleNewMessage] of [src/lib/store.js] has started. *)
Definition StoreJs_obeys (formatBytes : Z -> string) (s : Store) (id : string)
    (envelope : Envelope) (io : Io) (trace : list Event) : bool :=
  match parseMessage_start envelope id (Server.outStreams s) io with
  | Ok r0 => obeys (StoreJs.handle formatBytes true (Server.outStreams s)) r0 trace
  | _ => true
  end.




(** What holds of an ingestion of [src/lib/store.js] after the events
    [done], when they came as the contracts allow. *)
Record Drained (formatBytes : Z -> string) (done : list Event) (r : Run) : Prop := {
  dr_size : ing_size (run_state r) = inbound_bytes done;
  dr_open : ing_in_ended (run_state r) = false → run_completions r = [];
  dr_ended : ing_in_ended (run_state r) = true →
             List.length (run_completions r) = 1%nat;
  dr_seen : InEnd ∈ done → ing_in_ended (run_state r) = true;
  dr_completions : ∀ c, c ∈ run_completions r →
      ing_in_ended c = true ∧
      msg_size (ing_message c) = Some (inbound_bytes done) ∧
      msg_sizeHuman (ing_message c) = Some (formatBytes (inbound_bytes done))
}.


(** * Properties *)

(** Splits a conjunction into its parts, and nothing else. *)
Ltac conjuncts := repeat match goal with |- _ ∧ _ => split end.

(** ** Marking every record read *)

Lemma mark_loop_map (ms : list Message) (count : Z) :
  mark_loop ms count
  = (mark <$> ms,
     count + Z.of_nat (List.length (filter (fun m => msg_read m ≠ Some true) ms))).
Proof.
  revert count. induction ms as [|m ms IH]; intros count; simpl.
  - f_equal. lia.
  - rewrite filter_cons. unfold mark at 1, not_read.
    destruct (msg_read m) as [[|]|] eqn:E; rewrite IH;
      case_decide; try congruence; simpl; f_equal; lia.
Qed.

Lemma mark_read (m : Message) : msg_read (mark m) = Some true.
Proof.
  unfold mark, not_read. destruct (msg_read m) as [[|]|] eqn:E; simpl; auto.
Qed.

Lemma mark_idempotent (m : Message) : mark (mark m) = mark m.
Proof.
  unfold mark at 1. unfold not_read. rewrite mark_read. reflexivity.
Qed.

Lemma filter_unread_mark (ms : list Message) :
  filter (fun m => msg_read m ≠ Some true) (mark <$> ms) = [].
Proof.
  induction ms as [|m ms IH]; simpl; [reflexivity|].
  rewrite filter_cons, decide_False; [exact IH|].
  intros H. apply H, mark_read.
Qed.

(** C6.  [markAllEmailRead] keeps the number and the order of the records;
    every record ends with [read = true], a record that was already read is
    left as it was, and of the others only the [read] flag changes; the
    count returned is the number of records whose flag was not [true]; a
    second call straight after returns 0 and changes nothing. *)
Theorem markAllEmailRead_marks_and_counts (s : Store) :
  let s' := (markAllEmailRead s).1 in
  let count := (markAllEmailRead s).2 in
  mailDir s' = mailDir s ∧
  List.length (messages s') = List.length (messages s) ∧
  (∀ (i : nat) (m : Message), messages s !! i = Some m →
     ∃ m', messages s' !! i = Some m' ∧
           msg_read m' = Some true ∧
           (msg_read m = Some true → m' = m) ∧
           msg_id m' = msg_id m ∧ msg_props m' = msg_props m ∧
           msg_attachments m' = msg_attachments m ∧
           msg_source m' = msg_source m ∧ msg_size m' = msg_size m ∧
           msg_sizeHuman m' = msg_sizeHuman m) ∧
  count = Z.of_nat (List.length (filter (fun m => msg_read m ≠ Some true) (messages s))) ∧
  (markAllEmailRead s').2 = 0 ∧
  (markAllEmailRead s').1 = s'.
Proof.
  unfold markAllEmailRead. rewrite mark_loop_map. simpl.
  rewrite mark_loop_map. simpl. rewrite filter_unread_mark. simpl.
  repeat split.
  - apply length_fmap.
  - intros i m Hi. exists (mark m). rewrite list_lookup_fmap, Hi. simpl.
    split; [reflexivity|]. split; [apply mark_read|].
    unfold mark, not_read.
    destruct (msg_read m) as [[|]|] eqn:E; simpl; repeat split; auto; discriminate.
  - unfold with_messages. simpl. f_equal.
    rewrite <- list_fmap_compose. apply list_fmap_ext. intros _ m _. apply mark_idempotent.
Qed.

(** ** Deleting one record *)

(** C2, on the code: the first record of the index is at position 0, and
    [!index] takes position 0 for a miss.  Whatever the scope, the disk and
    the other records are, asking [deleteById] for the first record's id
    reports 'Email not found' and leaves the store as it was. *)
Theorem deleteById_first_record_not_found
    (g : Globals) (d : Disk) (dir : Path) (m : Message) (rest : list Message) :
  deleteById g {| mailDir := dir; messages := m :: rest |} d (msg_id m)
  = (Callback (Some (Error "Email not found")) None,
     {| mailDir := dir; messages := m :: rest |}, d).
Proof.
  unfold deleteById. simpl. rewrite decide_True by reflexivity. reflexivity.
Qed.

(** With the scope the module has, no call of [deleteById] removes anything:
    past position 0 the call of [rimraf] raises a [ReferenceError] before
    the [splice]. *)
Lemma deleteById_module_scope_keeps_store (s : Store) (d : Disk) (id : string) :
  (deleteById module_globals s d id).1.2 = s ∧
  (deleteById module_globals s d id).2 = d.
Proof.
  unfold deleteById.
  destruct (index_falsy _); [split; reflexivity|].
  destruct (messages s !! _); split; reflexivity.
Qed.

(** The facade passes the error on: no ['delete'] event, no [done(null, true)]. *)
Lemma deleteEmail_first_record_not_found
    (g : Globals) (d : Disk) (dir : Path) (m : Message) (rest : list Message) :
  MailServer.deleteEmail g {| mailDir := dir; messages := m :: rest |} d (msg_id m)
  = (Callback (Some (Error "Email not found")) None,
     {| mailDir := dir; messages := m :: rest |}, d).
Proof.
  unfold MailServer.deleteEmail, deleteById. simpl.
  rewrite decide_True by reflexivity. reflexivity.
Qed.

(** ** Lookup by id *)


Lemma emailById_found (s : Store) (id : string) (email : Message) :
  emailById s id = Ok email →
  filter (fun m => msg_id m = id) (messages s) = [email] ∧ msg_id email = id.
Proof.
  unfold emailById. intros H.
  destruct (filter _ (messages s)) as [|a [|b l]] eqn:E; try discriminate.
  injection H as ->. split; [reflexivity|].
  assert (Hin : email ∈ filter (fun m => msg_id m = id) (messages s))
    by (rewrite E; left).
  apply list_elem_of_filter in Hin. tauto.
Qed.

Lemma emailById_absent (s : Store) (id : string) :
  (∀ m, m ∈ messages s → msg_id m ≠ id) → emailById s id = Err not_found.
Proof.
  unfold emailById. intros H.
  destruct (filter _ (messages s)) as [|a l] eqn:E; [reflexivity|].
  assert (Hin : a ∈ filter (fun m => msg_id m = id) (messages s))
    by (rewrite E; left).
  apply list_elem_of_filter in Hin. destruct Hin as [Hid Hm].
  destruct (H a Hm Hid).
Qed.

(** Registration appends: no test of the ids already in the index stands
    between a completion and the [push]. *)
Lemma register_appends (s : Store) (r : Run) :
  messages (register s r)
  = messages s ++ repeat (ing_message (run_state r)) (List.length (run_completions r)).
Proof. reflexivity. Qed.




(** ** Attachment streams *)

(** C7, on [src/lib/store.js]: whenever the record is found and one of its
    attachments has the file name asked for, the call ends in a [TypeError]
    and the callback is never reached: [match] is the array of hits, so
    [match.source] is [undefined] and [fs.createReadStream] refuses it. *)
Theorem StoreJs_attachment_match_throws
    (s : Store) (id : string) (filename : JsVal) (email : Message) (a : Attachment) :
  emailById s id = Ok email →
  a ∈ msg_attachments email →
  strict_eq (att_generatedFileName a) filename = true →
  StoreJs.emailAttachmentStreamById s id filename = Thrown no_path.
Proof.
  intros E Ha Hm. unfold StoreJs.emailAttachmentStreamById.
  simpl. unfold mbind, Result_bind. rewrite E. simpl.
  rewrite bool_decide_eq_false_2.
  2: { intros Hnil. rewrite Hnil in Ha. inversion Ha. }
  rewrite bool_decide_eq_false_2; [reflexivity|].
  intros Hnil.
  assert (Hin : a ∈ filter (fun attachment =>
             strict_eq (att_generatedFileName attachment) filename = true)
             (msg_attachments email))
    by (apply list_elem_of_filter; auto).
  rewrite Hnil in Hin. inversion Hin.
Qed.

Lemma StoreJs_attachment_match_throws_witness :
  StoreJs.emailAttachmentStreamById
    {| mailDir := Sample.root; messages := [Sample.record "m1" [Sample.image]] |}
    "m1" (VStr "logo.png")
  = Thrown no_path.
Proof.
  apply (StoreJs_attachment_match_throws _ "m1" (VStr "logo.png")
           (Sample.record "m1" [Sample.image]) Sample.image).
  - reflexivity.
  - simpl. left.
  - reflexivity.
Defined.

(** The later revision answers the same request with the content type and
    a stream on the attachment's file. *)
Example Part002_attachment_match_streams :
  Part002.emailAttachmentStreamById
    {| mailDir := Sample.root; messages := [Sample.record "m1" [Sample.image]] |}
    "m1" (VStr "logo.png")
  = Ok (VStr "image/png",
        ReadStreamOf (path_join (path_join Sample.root "m1") "logo.png")).
Proof. reflexivity. Qed.


(** ** The text part *)

Lemma prop_set_prop (m : Message) (k k' : string) (v : JsVal) :
  prop (set_prop m k v) k' = if decide (k = k') then v else prop m k'.
Proof.
  unfold prop, set_prop. simpl. rewrite lookup_insert.
  destruct (decide (k = k')); reflexivity.
Qed.

(** C5, on [src/lib/store.js]: the text listener reads [text], [html] and
    [textAsHtml] from [data.text], the plain text itself, where they are not
    to be found.  It sets nothing, whatever the datum holds, and throws
    when the datum has no plain text. *)
Theorem StoreJs_on_text_sets_nothing (fields : gmap string JsVal) (message : Message) :
  StoreJs.on_text fields message
  = if nullish (default VUndef (fields !! "text")) then Thrown no_property
    else Ok message.
Proof.
  unfold StoreJs.on_text, StoreJs.copy. simpl. unfold mbind, Result_bind.
  destruct (default VUndef (fields !! "text")); reflexivity.
Qed.

Example StoreJs_on_text_sample :
  StoreJs.on_text Sample.text_fields (Sample.record "m1" [])
  = Ok (Sample.record "m1" []).
Proof. reflexivity. Qed.

Lemma Part002_copy_obj
    (fields : gmap string JsVal) (k dk : string) (m : Message)
    (dv : Part002.DefaultValue) :
  truthy (default VUndef (fields !! "has")) = false →
  Part002.copy (SrcObj fields) k m dk dv
  = Ok (let v := default VUndef (fields !! k) in
        match dv with
        | Part002.Transform f => if truthy v then set_prop m dk (f v) else m
        | Part002.DefaultVal d =>
            if truthy v then set_prop m dk v
            else if truthy d then set_prop m dk d else m
        end).
Proof.
  intros H. unfold Part002.copy. simpl. unfold mbind, Result_bind. rewrite H. simpl.
  destruct dv as [d|f]; simpl;
    destruct (truthy (default VUndef (fields !! k))); simpl; try reflexivity.
  destruct (truthy d); reflexivity.
Qed.

(** X23.  The text listener of the later revision on a parser datum (a
    plain object with no [has] member): each of the three fields is
    written when its
    source is truthy and kept otherwise, [html] goes through
    [stripTags(txt, ['script'])], and nothing else in the record moves. *)
Lemma Part002_on_text_sets_present_fields
    (stripTags : JsVal → list string → JsVal)
    (fields : gmap string JsVal) (message : Message) :
  truthy (default VUndef (fields !! "has")) = false →
  ∃ m', Part002.on_text stripTags fields message = Ok m' ∧
    let field k := default VUndef (fields !! k) in
    prop m' "text"
      = (if truthy (field "text") then field "text" else prop message "text") ∧
    prop m' "html"
      = (if truthy (field "html") then stripTags (field "html") ["script"]
         else prop message "html") ∧
    prop m' "textAsHtml"
      = (if truthy (field "textAsHtml") then field "textAsHtml"
         else prop message "textAsHtml") ∧
    (∀ k, k ≠ "text" → k ≠ "html" → k ≠ "textAsHtml" → prop m' k = prop message k) ∧
    msg_id m' = msg_id message ∧ msg_attachments m' = msg_attachments message ∧
    msg_source m' = msg_source message ∧ msg_size m' = msg_size message ∧
    msg_read m' = msg_read message.
Proof.
  intros H. unfold Part002.on_text.
  rewrite (Part002_copy_obj _ _ _ _ _ H). simpl. unfold mbind, Result_bind.
  rewrite (Part002_copy_obj _ _ _ _ _ H). simpl.
  rewrite (Part002_copy_obj _ _ _ _ _ H). simpl.
  eexists. split; [reflexivity|].
  destruct (truthy (default VUndef (fields !! "text")));
    destruct (truthy (default VUndef (fields !! "html")));
    destruct (truthy (default VUndef (fields !! "textAsHtml")));
    repeat split; try reflexivity;
    repeat rewrite prop_set_prop; simpl; try reflexivity;
    intros k H1 H2 H3; repeat rewrite prop_set_prop;
    repeat (destruct (decide _); [congruence|]); reflexivity.
Qed.

Example Part002_on_text_sample :
  ∃ m', Part002.on_text Sample.stripTags Sample.text_fields (Sample.record "m1" []) = Ok m' ∧
        prop m' "text" = VStr "Hello" ∧
        prop m' "html" = Sample.stripTags (VStr "<p>Hello</p><script>x()</script>") ["script"] ∧
        prop m' "textAsHtml" = VStr "<p>Hello</p>".
Proof. eexists. split; [reflexivity|]. repeat split; reflexivity. Qed.

(** ** The header set *)

Lemma Part002_copy_map
    (entries : gmap string JsVal) (k dk : string) (m : Message) (d : JsVal) :
  Part002.copy (SrcMap entries) k m dk (Part002.DefaultVal d)
  = Ok (map_step entries m (k, dk, d)).
Proof.
  unfold Part002.copy, map_step. simpl. unfold mbind, Result_bind. simpl.
  destruct (entries !! k) as [v|] eqn:E; simpl.
  - reflexivity.
  - destruct (truthy d); reflexivity.
Qed.

Lemma Part002_on_headers_map
    (entries : gmap string JsVal) (now : Z) (message : Message) :
  Part002.on_headers (SrcMap entries) now message
  = Ok (foldl (map_step entries) message (header_defaults VUndef now)).
Proof.
  unfold Part002.on_headers. simpl. unfold mbind, Result_bind. simpl.
  repeat (rewrite Part002_copy_map; simpl). reflexivity.
Qed.

Lemma prop_map_step_ne
    (entries : gmap string JsVal) (m : Message) (k dk : string) (d : JsVal) (key : string) :
  dk ≠ key → prop (map_step entries m (k, dk, d)) key = prop m key.
Proof.
  intros Hne. unfold map_step. simpl.
  destruct (entries !! k); [|destruct (truthy d)];
    rewrite ?prop_set_prop; destruct (decide (dk = key)); congruence.
Qed.

Lemma prop_map_step_eq
    (entries : gmap string JsVal) (m : Message) (k key : string) (d : JsVal) :
  prop (map_step entries m (k, key, d)) key
  = match entries !! k with
    | Some v => v
    | None => if truthy d then d else prop m key
    end.
Proof.
  unfold map_step. simpl.
  destruct (entries !! k); [|destruct (truthy d)];
    rewrite ?prop_set_prop; try destruct (decide (key = key)); congruence.
Qed.

Lemma map_step_same_but_props
    (entries : gmap string JsVal) (tbl : list (string * string * JsVal)) (m : Message) :
  same_but_props m (foldl (map_step entries) m tbl).
Proof.
  revert m. induction tbl as [|e tbl IH]; intros m; simpl.
  - repeat split.
  - destruct (IH (map_step entries m e)) as (H1 & H2 & H3 & H4 & H5 & H6).
    unfold same_but_props. rewrite H1, H2, H3, H4, H5, H6.
    unfold map_step. destruct (entries !! e.1.1); [|destruct (truthy e.2)];
      repeat split.
Qed.

(** Peels the [copy]s that write another field than the one looked at. *)
Ltac peel_steps :=
  repeat (rewrite prop_map_step_ne by discriminate).

(** C4, on the code: the header set of the parser is a [Map], and the
    default handed to the first [copy] is [headers['sender']], a property
    read that a [Map] answers with [undefined].  So on a [Map] the [from]
    field is the [from] header or stays what it was: the [sender] header is
    copied to [sender] and never to [from]. *)
Theorem on_headers_Map_from_ignores_sender
    (entries : gmap string JsVal) (now : Z) (message : Message) :
  ∃ m', Part002.on_headers (SrcMap entries) now message = Ok m' ∧
        prop m' "from"
          = match entries !! "from" with
            | Some v => v
            | None => prop message "from"
            end ∧
        prop m' "sender"
          = match entries !! "sender" with
            | Some v => v
            | None => prop message "sender"
            end.
Proof.
  eexists. split; [apply Part002_on_headers_map|].
  simpl. split; peel_steps; rewrite prop_map_step_eq; simpl; peel_steps; reflexivity.
Qed.

(** The same at a sender-only header set: the record keeps the envelope's
    [from]. *)
Example on_headers_Map_sender_only :
  ∃ m', Part002.on_headers (SrcMap {[ "sender" := VStr "list@example.org" ]}) 7
          (new_message Sample.envelope "m1") = Ok m' ∧
        prop m' "sender" = VStr "list@example.org" ∧
        prop m' "from" = VObj "mailFrom".
Proof. eexists. split; [reflexivity|]. split; reflexivity. Qed.

(** X22.  The headers listener of the later revision on a [Map]: a
    header that is there is copied to its
    field, [time] is the time of receipt without a [date] header, and any
    other field whose header is missing, like every property that is no
    target, stays as it was. *)
Lemma Part002_on_headers_Map_fields
    (entries : gmap string JsVal) (now : Z) (message : Message) :
  ∃ m', Part002.on_headers (SrcMap entries) now message = Ok m' ∧
    (∀ k dk d, (k, dk, d) ∈ header_defaults VUndef now →
       prop m' dk = match entries !! k with
                    | Some v => v
                    | None => if decide (dk = "time") then VDate now
                              else prop message dk
                    end) ∧
    (∀ key, (∀ k dk d, (k, dk, d) ∈ header_defaults VUndef now → dk ≠ key) →
       prop m' key = prop message key) ∧
    same_but_props message m'.
Proof.
  eexists. split; [apply Part002_on_headers_map|].
  split; [|split].
  - intros k dk d Hin. unfold header_defaults in Hin.
    repeat (apply elem_of_cons in Hin; destruct Hin as [Hin|Hin];
            [injection Hin as -> -> ->; simpl; peel_steps;
             rewrite prop_map_step_eq; simpl; peel_steps; reflexivity|]).
    inversion Hin.
  - intros key Hkey.
    assert (Hall : Forall (fun e => e.1.2 ≠ key) (header_defaults VUndef now)).
    { apply Forall_forall. intros [[k dk] d] Hin. simpl. eapply Hkey, Hin. }
    simpl. unfold header_defaults in Hall.
    repeat (apply Forall_cons_1 in Hall; destruct Hall as [? Hall]).
    simpl in *. repeat (rewrite prop_map_step_ne by assumption). reflexivity.
  - apply map_step_same_but_props.
Qed.

Lemma StoreJs_on_headers_Map (entries : gmap string JsVal) (now : Z) (message : Message) :
  StoreJs.on_headers (SrcMap entries) now message
  = Ok (set_prop message "time" (VDate now)).
Proof. reflexivity. Qed.

Lemma StoreJs_copy_obj
    (fields : gmap string JsVal) (k dk : string) (m : Message) (d : JsVal) :
  StoreJs.copy (SrcObj fields) k m dk d = Ok (obj_step fields m (k, dk, d)).
Proof.
  unfold StoreJs.copy, obj_step. simpl. unfold mbind, Result_bind. simpl.
  destruct (truthy (default VUndef (fields !! k))); [reflexivity|].
  destruct (truthy d); reflexivity.
Qed.

Lemma prop_obj_step_ne
    (fields : gmap string JsVal) (m : Message) (k dk : string) (d : JsVal) (key : string) :
  dk ≠ key → prop (obj_step fields m (k, dk, d)) key = prop m key.
Proof.
  intros Hne. unfold obj_step. simpl.
  destruct (truthy (default VUndef (fields !! k))); [|destruct (truthy d)];
    rewrite ?prop_set_prop; destruct (decide (dk = key)); congruence.
Qed.

Lemma prop_obj_step_eq
    (fields : gmap string JsVal) (m : Message) (k key : string) (d : JsVal) :
  prop (obj_step fields m (k, key, d)) key
  = if truthy (default VUndef (fields !! k)) then default VUndef (fields !! k)
    else if truthy d then d else prop m key.
Proof.
  unfold obj_step. simpl.
  destruct (truthy (default VUndef (fields !! k))); [|destruct (truthy d)];
    rewrite ?prop_set_prop; try destruct (decide (key = key)); congruence.
Qed.

Lemma StoreJs_on_headers_object
    (fields : gmap string JsVal) (now : Z) (message : Message) :
  StoreJs.on_headers (SrcObj fields) now message
  = Ok (foldl (obj_step fields) message
          (header_defaults (default VUndef (fields !! "sender")) now)).
Proof.
  unfold StoreJs.on_headers. simpl. unfold mbind, Result_bind. simpl.
  repeat (rewrite StoreJs_copy_obj; simpl). reflexivity.
Qed.

(** On a plain object the fallback of [from] to [sender] does work. *)
Lemma StoreJs_on_headers_object_from
    (fields : gmap string JsVal) (now : Z) (message : Message) :
  ∃ m', StoreJs.on_headers (SrcObj fields) now message = Ok m' ∧
        prop m' "from"
          = if truthy (default VUndef (fields !! "from"))
            then default VUndef (fields !! "from")
            else if truthy (default VUndef (fields !! "sender"))
                 then default VUndef (fields !! "sender")
                 else prop message "from".
Proof.
  eexists. split; [apply StoreJs_on_headers_object|].
  simpl. repeat (rewrite prop_obj_step_ne by discriminate).
  rewrite prop_obj_step_eq. reflexivity.
Qed.

(** ** Completion *)

(** C1, on [src/lib/store.js]: completion is the last statement of the
    listener for the inbound stream's 'end', and the parser's 'end' has no
    listener.  On a plain two-byte message the callback has run once when
    the stream has drained, with the size in the record, before the parser
    has reported the headers or its end; the record that was handed over
    and registered is the one the later events still write to. *)
Theorem StoreJs_completes_before_parser_end :
  let s' := Ingestion.plain_StoreJs.1 in
  let r := Ingestion.plain_StoreJs.2 in
  let c := Ingestion.first_completion Ingestion.plain_StoreJs in
  StoreJs.handleNewMessage Sample.formatBytes Sample.empty_store "m1"
    Sample.envelope Sample.fresh_io Trace.plain = Ok (s', r) ∧
  run_completions r = [c] ∧
  ing_in_ended c = true ∧
  msg_size (ing_message c) = Some 2 ∧
  ing_parser_ended c = false ∧
  prop (ing_message c) "time" = VUndef ∧
  prop (ing_message (run_state r)) "time" = VDate 9 ∧
  messages s' = [ing_message (run_state r)].
Proof. cbv zeta. conjuncts; vm_compute; reflexivity. Qed.

(** In that revision every 'end' of the inbound stream completes, whatever
    the parser and the attachment sinks have come to, and the parser's
    'end' never does. *)
Lemma StoreJs_completion_is_stream_end
    (formatBytes : Z → string) (streamAttachments : bool) (outStreams : OutStreams)
    (r : Run) :
  (∃ r', StoreJs.handle formatBytes streamAttachments outStreams r InEnd = Ok r' ∧
         ∃ c, run_completions r' = run_completions r ++ [c] ∧
              ing_parser_ended c = ing_parser_ended (run_state r) ∧
              ing_contents c = ing_contents (run_state r) ∧
              ing_released c = ing_released (run_state r)) ∧
  (∃ r', StoreJs.handle formatBytes streamAttachments outStreams r ParserEnd = Ok r' ∧
         run_completions r' = run_completions r).
Proof.
  split; eexists; (split; [reflexivity|]).
  - eexists. split; [reflexivity|]. repeat split; reflexivity.
  - reflexivity.
Qed.

(** The later revision completes from the parser's 'end': on the same
    message, once, after the stream has drained and the parser has ended. *)
Example Part002_completes_at_parser_end :
  let s' := Ingestion.plain_Part002.1 in
  let r := Ingestion.plain_Part002.2 in
  let c := Ingestion.first_completion Ingestion.plain_Part002 in
  Part002.handleNewMessage Sample.stripTags Sample.formatBytes Sample.empty_store "m1"
    Sample.envelope Sample.fresh_io Trace.plain = Ok (s', r) ∧
  run_completions r = [c] ∧
  ing_in_ended c = true ∧
  msg_size (ing_message c) = Some 2 ∧
  ing_parser_ended c = true ∧
  prop (ing_message c) "subject" = VStr "Hi".
Proof. cbv zeta. conjuncts; vm_compute; reflexivity. Qed.

(** ** Completion in the later revision: the join *)

Lemma sinks_sink_write (w : nat) (chunk : string) (io : Io) :
  sinks (sink_write w chunk io) = sinks io.
Proof.
  unfold sink_write. destruct (sinks io !! w) as [k|]; [|reflexivity].
  destruct (sink_ended k); reflexivity.
Qed.

Lemma sinks_opt_write (w : option nat) (chunk : string) (io : Io) :
  sinks (opt_write w chunk io) = sinks io.
Proof. destruct w; [apply sinks_sink_write|reflexivity]. Qed.

Lemma sink_closed_write (w w' : nat) (chunk : string) (io : Io) :
  sink_closed io w → sink_closed (sink_write w' chunk io) w.
Proof. unfold sink_closed. rewrite sinks_sink_write. auto. Qed.

Lemma sink_closed_end (w w' : nat) (io : Io) :
  sink_closed io w → sink_closed (sink_end w' io) w.
Proof.
  unfold sink_closed, sink_end. intros (k & Hk & He).
  destruct (sinks io !! w') as [k'|] eqn:E; [|eauto]. simpl.
  destruct (decide (w' = w)) as [->|Hne].
  - eexists. split; [apply list_lookup_insert_eq; eapply lookup_lt_Some, Hk|]. reflexivity.
  - rewrite list_lookup_insert_ne by exact Hne. eauto.
Qed.

Lemma sink_end_closes (w : nat) (io : Io) :
  (w < List.length (sinks io))%nat → sink_closed (sink_end w io) w.
Proof.
  intros Hlt. unfold sink_closed, sink_end.
  destruct (lookup_lt_is_Some_2 _ _ Hlt) as [k Hk]. rewrite Hk. simpl.
  eexists. split; [apply list_lookup_insert_eq; exact Hlt|]. reflexivity.
Qed.

Lemma length_sinks_end (w : nat) (io : Io) :
  List.length (sinks (sink_end w io)) = List.length (sinks io).
Proof.
  unfold sink_end. destruct (sinks io !! w); [|reflexivity]. simpl. apply length_insert.
Qed.

Lemma sink_closed_opt_end (w : nat) (o : option nat) (io : Io) :
  sink_closed io w → sink_closed (opt_end o io) w.
Proof. destruct o; [apply sink_closed_end|auto]. Qed.

Lemma sink_closed_opt_write (w : nat) (o : option nat) (chunk : string) (io : Io) :
  sink_closed io w → sink_closed (opt_write o chunk io) w.
Proof. destruct o; [apply sink_closed_write|auto]. Qed.

Lemma length_sinks_opt_end (o : option nat) (io : Io) :
  List.length (sinks (opt_end o io)) = List.length (sinks io).
Proof. destruct o; [apply length_sinks_end|reflexivity]. Qed.

(** Inverts [(x ← r; k) = Ok y]. *)
Ltac bind_ok H :=
  match type of H with
  | mbind _ ?r = Ok _ =>
      let E := fresh "E" in
      destruct r eqn:E; [simpl in H | discriminate H | discriminate H]
  end.

Lemma same_but_props_refl (m : Message) : same_but_props m m.
Proof. repeat split. Qed.

Lemma same_but_props_trans (a b c : Message) :
  same_but_props a b → same_but_props b c → same_but_props a c.
Proof.
  unfold same_but_props. intros (?&?&?&?&?&?) (?&?&?&?&?&?).
  repeat split; congruence.
Qed.

Lemma same_but_props_set_prop (m : Message) (k : string) (v : JsVal) :
  same_but_props m (set_prop m k v).
Proof. repeat split. Qed.

Lemma Part002_copy_same (src : Src) (k dk : string) (m m' : Message)
    (dv : Part002.DefaultValue) :
  Part002.copy src k m dk dv = Ok m' → same_but_props m m'.
Proof.
  unfold Part002.copy. intros H.
  bind_ok H. destruct a.
  - injection H as <-. apply same_but_props_set_prop.
  - bind_ok H. destruct (truthy a).
    + injection H as <-. apply same_but_props_set_prop.
    + destruct (_ && _); injection H as <-;
        [apply same_but_props_set_prop | apply same_but_props_refl].
Qed.

Lemma Part002_on_headers_same (headers : Src) (now : Z) (m m' : Message) :
  Part002.on_headers headers now m = Ok m' → same_but_props m m'.
Proof.
  unfold Part002.on_headers. intros H. bind_ok H.
  repeat (bind_ok H;
          match goal with
          | E : Part002.copy _ _ ?x _ _ = Ok ?y |- same_but_props ?x _ =>
              apply (same_but_props_trans x y); [exact (Part002_copy_same _ _ _ _ _ _ E)|];
              clear E
          end).
  exact (Part002_copy_same _ _ _ _ _ _ H).
Qed.

Lemma Part002_on_text_same (stripTags : JsVal → list string → JsVal)
    (fields : gmap string JsVal) (m m' : Message) :
  Part002.on_text stripTags fields m = Ok m' → same_but_props m m'.
Proof.
  unfold Part002.on_text. intros H.
  repeat (bind_ok H;
          match goal with
          | E : Part002.copy _ _ ?x _ _ = Ok ?y |- same_but_props ?x _ =>
              apply (same_but_props_trans x y); [exact (Part002_copy_same _ _ _ _ _ _ E)|];
              clear E
          end).
  exact (Part002_copy_same _ _ _ _ _ _ H).
Qed.

Lemma inbound_bytes_app (a b : list Event) :
  inbound_bytes (a ++ b) = inbound_bytes a + inbound_bytes b.
Proof.
  induction a as [|ev a IH]; simpl; [lia|].
  destruct ev; rewrite ?IH; lia.
Qed.

Lemma attachment_opened (s : Store) (id : string) (att : Attachment) (st st' : Ingest) :
  open_attachment_sink (Some (Part002.attachmentStream_provider s id)) true att st = Ok st' →
  ∃ name,
    att_generatedFileName att = VStr name ∧
    let source := path_join (path_join (mailDir s) id) name in
    ing_message st'
    = set_attachments (ing_message st)
        (msg_attachments (ing_message st) ++ [att_set_source att (Some source)]) ∧
    ing_size st' = ing_size st ∧
    ing_emlStream st' = ing_emlStream st ∧
    ing_contents st' = ing_contents st ++ [Some (List.length (sinks (ing_io st)))] ∧
    ing_released st' = ing_released st ∧
    ing_parser_end_called st' = ing_parser_end_called st ∧
    ing_in_ended st' = ing_in_ended st ∧
    ing_parser_ended st' = ing_parser_ended st ∧
    sinks (ing_io st')
    = sinks (ing_io st) ++ [{| sink_path := source; sink_ended := false |}] ∧
    files (disk (ing_io st')) = <[source := ""]> (files (disk (ing_io st))).
Proof.
  unfold open_attachment_sink, Part002.attachmentStream_provider.
  destruct (att_generatedFileName att) as [| | | |name| |]; simpl; try discriminate.
  intros H. injection H as <-. exists name. simpl.
  split; [reflexivity|].
  destruct (existsSync _ _); simpl; repeat split; reflexivity.
Qed.

Ltac seen_end :=
  let Hin := fresh "Hin" in
  intros Hin; apply elem_of_app in Hin as [Hin|Hin]; [auto|];
  apply list_elem_of_singleton in Hin; congruence.

Ltac unchanged_run r :=
  replace (with_state r (run_state r)) with r by (destruct r; reflexivity).

Section Part002_join.
Variable stripTags : JsVal → list string → JsVal.
Variable formatBytes : Z → string.
Variable s : Store.
Variable id : string.

Let handle := Part002.handle stripTags formatBytes true (Part002_outStreams s id).

Lemma joined_message (done : list Event) (ev : Event) (r : Run) (m : Message) :
Joined formatBytes done r →
inbound_bytes [ev] = 0 → ev ≠ ParserEnd →
same_but_props (ing_message (run_state r)) m →
Joined formatBytes (done ++ [ev])
  (with_state r (with_message (run_state r) m)).
Proof.
intros [J1 J2 J3 J4 J5 J6 J7 J8 J9] Hb Hne (_ & _ & _ & Hs & Hh & _).
constructor; simpl; rewrite ?inbound_bytes_app, ?Hb, ?Z.add_0_r; auto.
- rewrite Hs, Hh. exact J3.
- intros Hin. apply elem_of_app in Hin as [Hin|Hin]; [auto|].
  apply list_elem_of_singleton in Hin. congruence.
Qed.

Lemma joined_step (done : list Event) (r r' : Run) (ev : Event) :
Joined formatBytes done r →
enabled (run_state r) ev = true →
handle r ev = Ok r' →
Joined formatBytes (done ++ [ev]) r'.
Proof.
intros J He H. unfold handle, Part002.handle in H.
destruct ev as [chunk| |headers now|data| |i chunk|i]; simpl in H, He.
- (* InData *)
  injection H as <-. destruct J as [J1 J2 J3 J4 J5 J6 J7 J8 J9].
  apply negb_true_iff in He.
  assert (Hpec := J2 He).
  assert (Hpe : ing_parser_ended (run_state r) = false).
  { destruct (ing_parser_ended (run_state r)) eqn:E; [|reflexivity].
    destruct (J4 eq_refl) as [? _]. congruence. }
  assert (Hc := J5 Hpe).
  constructor; simpl; rewrite ?inbound_bytes_app; simpl; auto;
    try solve [lia | congruence | seen_end | intros; rewrite sinks_opt_write; eauto].
  + intros i Hi. destruct (J8 i Hi) as (w & Hw & Hcl).
    exists w. split; [exact Hw|]. apply sink_closed_opt_write, Hcl.
  + rewrite Hc. intros c Hin. inversion Hin.
- (* InEnd *)
  injection H as <-. destruct J as [J1 J2 J3 J4 J5 J6 J7 J8 J9].
  apply negb_true_iff in He.
  assert (Hpec := J2 He).
  assert (Hpe : ing_parser_ended (run_state r) = false).
  { destruct (ing_parser_ended (run_state r)) eqn:E; [|reflexivity].
    destruct (J4 eq_refl) as [? _]. congruence. }
  assert (Hc := J5 Hpe).
  unfold Part002.on_in_end.
  constructor; simpl; rewrite ?inbound_bytes_app; simpl; auto;
    try solve [lia | congruence | seen_end
              | intros; rewrite !length_sinks_opt_end; eauto].
  + intros i Hi. destruct (J8 i Hi) as (w & Hw & Hcl).
    exists w. split; [exact Hw|]. do 2 apply sink_closed_opt_end. exact Hcl.
  + rewrite Hc. intros c Hin. inversion Hin.
- (* ParserHeaders *)
  bind_ok H. injection H as <-.
  apply joined_message; [exact J|reflexivity|discriminate|].
  eapply Part002_on_headers_same, E.
- (* ParserData *)
  bind_ok H. injection H as <-.
  unfold Part002.on_parser_data in E.
  destruct data as [datum|fields|].
  + apply attachment_opened in E.
    destruct E as (name & _ & Hm & Hsz & Heml & Hco & Hrel & Hpec & Hie & Hpe & Hsk & _).
    destruct J as [J1 J2 J3 J4 J5 J6 J7 J8 J9].
    constructor; simpl;
      rewrite ?inbound_bytes_app, ?Hm, ?Hsz, ?Hco, ?Hrel, ?Hpec, ?Hie, ?Hpe, ?Hsk;
      simpl; rewrite ?Z.add_0_r; auto; try solve [seen_end].
    * intros i w Hi. rewrite length_app. simpl.
      apply lookup_app_Some in Hi as [Hi|[Hlen Hi]].
      -- apply J7 in Hi. lia.
      -- destruct (i - List.length (ing_contents (run_state r)))%nat; [|discriminate].
         injection Hi as <-. lia.
    * intros i Hi. destruct (J8 i Hi) as (w & Hw & k & Hk & Hcl).
      exists w. split; [apply lookup_app_l_Some, Hw|].
      exists k. rewrite Hsk. split; [apply lookup_app_l_Some, Hk|exact Hcl].
  + bind_ok E. injection E as <-.
    apply joined_message; [exact J|reflexivity|discriminate|].
    eapply Part002_on_text_same, E0.
  + injection E as <-. unchanged_run r.
    destruct J as [J1 J2 J3 J4 J5 J6 J7 J8 J9].
    constructor; simpl; rewrite ?inbound_bytes_app; simpl; rewrite ?Z.add_0_r; auto.
    seen_end.
- (* ParserEnd *)
  injection H as <-. destruct J as [J1 J2 J3 J4 J5 J6 J7 J8 J9].
  apply andb_true_iff in He as [He Hall].
  apply andb_true_iff in He as [Hpec Hpe].
  apply negb_true_iff in Hpe.
  assert (Hc := J5 Hpe).
  assert (Hie : ing_in_ended (run_state r) = true).
  { destruct (ing_in_ended (run_state r)) eqn:E; [reflexivity|].
    rewrite (J2 eq_refl) in Hpec. discriminate. }
  destruct (J3 Hpec) as [Hsz Hh].
  unfold Part002.on_parser_end, complete. simpl.
  constructor; simpl; rewrite ?inbound_bytes_app; simpl; rewrite ?Z.add_0_r; auto;
    try discriminate.
  + intros _. rewrite Hc. split; [exact Hpec|reflexivity].
  + rewrite Hc. intros c Hin. apply list_elem_of_singleton in Hin. subst c. simpl.
    rewrite <- J1. repeat split; auto.
    intros i w Hi.
    assert (Hrel : i ∈ ing_released (run_state r)).
    { unfold all_released in Hall. rewrite forallb_forall in Hall.
      assert (Hlt := lookup_lt_Some _ _ _ Hi).
      specialize (Hall i). rewrite bool_decide_eq_true in Hall.
      apply Hall. apply in_seq. lia. }
    destruct (J8 i Hrel) as (w' & Hw' & Hcl). congruence.
- (* ContentData *)
  injection H as <-. destruct J as [J1 J2 J3 J4 J5 J6 J7 J8 J9].
  unfold on_content_data.
  destruct (ing_contents (run_state r) !! i) as [[w|]|] eqn:Ei;
    try unchanged_run r;
    constructor; simpl; rewrite ?inbound_bytes_app; simpl; rewrite ?Z.add_0_r; auto;
    try solve [seen_end | intros; rewrite sinks_sink_write; eauto].
  intros j Hj. destruct (J8 j Hj) as (w' & Hw' & Hcl).
  exists w'. split; [exact Hw'|]. apply sink_closed_write, Hcl.
- (* ContentEnd *)
  injection H as <-. destruct J as [J1 J2 J3 J4 J5 J6 J7 J8 J9].
  unfold on_content_end.
  destruct (ing_contents (run_state r) !! i) as [[w|]|] eqn:Ei;
    try unchanged_run r;
    constructor; simpl; rewrite ?inbound_bytes_app; simpl; rewrite ?Z.add_0_r; auto;
    try solve [seen_end | intros; rewrite length_sinks_end; eauto].
  intros j Hj. apply elem_of_cons in Hj as [->|Hj].
  + exists w. split; [exact Ei|]. apply sink_end_closes. eauto.
  + destruct (J8 j Hj) as (w' & Hw' & Hcl).
    exists w'. split; [exact Hw'|]. apply sink_closed_end, Hcl.
Qed.

Lemma joined_run (trace done : list Event) (r r' : Run) :
Joined formatBytes done r →
obeys handle r trace = true →
Part002.run stripTags formatBytes true (Part002_outStreams s id) r trace = Ok r' →
Joined formatBytes (done ++ trace) r'.
Proof.
revert done r. induction trace as [|ev trace IH]; intros done r J Ho H; simpl in *.
- injection H as <-. rewrite app_nil_r. exact J.
- apply andb_true_iff in Ho as [He Ho].
  fold handle in H. destruct (handle r ev) as [r1| |] eqn:E; try discriminate.
  simpl in H. replace (done ++ ev :: trace) with ((done ++ [ev]) ++ trace)
    by (rewrite <- app_assoc; reflexivity).
  apply (IH _ r1); [eapply joined_step; eauto|exact Ho|exact H].
Qed.

Lemma joined_start (envelope : Envelope) (io : Io) (r : Run) :
parseMessage_start envelope id (Part002_outStreams s id) io = Ok r →
Joined formatBytes [] r.
Proof.
unfold parseMessage_start, Part002_outStreams, Part002.emlStream_provider. simpl.
intros H. injection H as <-.
constructor; simpl; auto; try discriminate.
- intros Hin. inversion Hin.
- intros i Hi. inversion Hi.
- intros c Hin. inversion Hin.
Qed.
End Part002_join.

(** X21.  The later revision, under the contracts of the streams: the callback
    runs at most once, and once when the parser has ended; when it runs the
    inbound stream has drained and the record carries the size of all the
    bytes of the trace, the parser has emitted its 'end', and every sink
    that was opened for an attachment has been ended. *)
Theorem Part002_completion_joins
    (stripTags : JsVal → list string → JsVal) (formatBytes : Z → string)
    (s : Store) (id : string) (envelope : Envelope) (io : Io)
    (trace : list Event) (s' : Store) (r : Run) :
  Part002.handleNewMessage stripTags formatBytes s id envelope io trace = Ok (s', r) →
  Part002_obeys stripTags formatBytes s id envelope io trace = true →
  (List.length (run_completions r) ≤ 1)%nat ∧
  (ParserEnd ∈ trace → List.length (run_completions r) = 1%nat) ∧
  ∀ c, c ∈ run_completions r →
    ing_in_ended c = true ∧
    msg_size (ing_message c) = Some (inbound_bytes trace) ∧
    msg_sizeHuman (ing_message c) = Some (formatBytes (inbound_bytes trace)) ∧
    ing_parser_ended c = true ∧
    ∀ i w, ing_contents c !! i = Some (Some w) → sink_closed (ing_io c) w.
Proof.
  unfold Part002.handleNewMessage, Part002.parseMessage, Part002_obeys.
  unfold Part002_outStreams. cbv zeta.
  intros H Ho. bind_ok H. injection H as <- <-.
  bind_ok E.
  pose proof (joined_run stripTags formatBytes s id trace [] a0 a
                (joined_start formatBytes s id envelope io a0 E0) Ho E) as J.
  simpl in J. destruct J as [J1 J2 J3 J4 J5 J6 J7 J8 J9].
  split; [|split].
  - destruct (ing_parser_ended (run_state a)) eqn:Ee.
    + destruct (J4 eq_refl) as [_ ->]. lia.
    + rewrite (J5 eq_refl). simpl. lia.
  - intros Hin. apply J4, J6, Hin.
  - exact J9.
Qed.

Lemma Part002_completion_joins_witness :
  let r := Ingestion.image_Part002.2 in
  (List.length (run_completions r) ≤ 1)%nat ∧
  (ParserEnd ∈ Trace.with_image → List.length (run_completions r) = 1%nat) ∧
  ∀ c, c ∈ run_completions r →
    ing_in_ended c = true ∧
    msg_size (ing_message c) = Some (inbound_bytes Trace.with_image) ∧
    msg_sizeHuman (ing_message c)
    = Some (Sample.formatBytes (inbound_bytes Trace.with_image)) ∧
    ing_parser_ended c = true ∧
    ∀ i w, ing_contents c !! i = Some (Some w) → sink_closed (ing_io c) w.
Proof.
  apply (Part002_completion_joins Sample.stripTags Sample.formatBytes
           Sample.empty_store "m1" Sample.envelope Sample.fresh_io Trace.with_image
           Ingestion.image_Part002.1 Ingestion.image_Part002.2).
  - vm_compute. reflexivity.
  - vm_compute. reflexivity.
Defined.

(** On the message with an image the one completion comes with the sink of
    the image (sink 1; sink 0 is the raw file's) ended. *)
Example Part002_image_sink_closed :
  let c := Ingestion.first_completion Ingestion.image_Part002 in
  run_completions Ingestion.image_Part002.2 = [c] ∧
  ing_contents c = [Some 1%nat] ∧
  (sink_ended <$> sinks (ing_io c)) = [false; true] ∧
  msg_size (ing_message c) = Some 2.
Proof. cbv zeta. conjuncts; vm_compute; reflexivity. Qed.

(** ** The raw file *)

Lemma files_sink_write_ne (w : nat) (chunk : string) (io : Io) (k : Sink) (p : Path) :
  sinks io !! w = Some k → sink_path k ≠ p →
  files (disk (sink_write w chunk io)) !! p = files (disk io) !! p.
Proof.
  intros Hk Hne. unfold sink_write. rewrite Hk.
  destruct (sink_ended k); [reflexivity|]. simpl.
  apply lookup_insert_ne. exact Hne.
Qed.

Lemma disk_sink_end (w : nat) (io : Io) : disk (sink_end w io) = disk io.
Proof. unfold sink_end. destruct (sinks io !! w); reflexivity. Qed.

Lemma sink_end_keeps (w w' : nat) (io : Io) (k : Sink) :
  sinks io !! w' = Some k →
  ∃ k', sinks (sink_end w io) !! w' = Some k' ∧ sink_path k' = sink_path k.
Proof.
  intros Hk. unfold sink_end. destruct (sinks io !! w) as [k0|] eqn:E; [|eauto]. simpl.
  destruct (decide (w = w')) as [->|Hne].
  - rewrite list_lookup_insert_eq by (eapply lookup_lt_Some, E).
    eexists. split; [reflexivity|]. simpl. congruence.
  - rewrite list_lookup_insert_ne by exact Hne. eauto.
Qed.

Section Part002_raw.
Variable stripTags : JsVal → list string → JsVal.
Variable formatBytes : Z → string.
Variable s : Store.
Variable id : string.

Let raw : Path := path_join (mailDir s) (id +:+ ".eml").

Lemma attachment_path_not_raw (name : string) :
path_join (path_join (mailDir s) id) name ≠ raw.
Proof.
unfold raw, path_join. intros H.
apply (f_equal (@List.length string)) in H.
rewrite !length_app in H. simpl in H. lia.
Qed.

Lemma unwritten_step (r r' : Run) (ev : Event) :
Unwritten raw (run_state r) →
Part002.handle stripTags formatBytes true (Part002_outStreams s id) r ev = Ok r' →
Unwritten raw (run_state r').
Proof.
intros [U1 U2 U3 U4] H. unfold Part002.handle in H.
destruct ev as [chunk| |headers now|data| |i chunk|i]; simpl in H.
- injection H as <-. constructor; simpl; auto; rewrite U1; simpl; auto.
- injection H as <-. unfold Part002.on_in_end.
  constructor; simpl; auto; rewrite U1; simpl; auto.
- bind_ok H. injection H as <-.
  apply Part002_on_headers_same in E. destruct E as (_ & _ & Hs & _).
  constructor; simpl; auto. congruence.
- bind_ok H. injection H as <-. unfold Part002.on_parser_data in E.
  destruct data as [datum|fields|].
  + apply attachment_opened in E.
    destruct E as (name & _ & Hm & _ & Heml & Hco & _ & _ & _ & _ & Hsk & Hf).
    constructor; simpl; rewrite ?Hm, ?Heml, ?Hco, ?Hsk, ?Hf; simpl; auto.
    * rewrite lookup_insert_ne by apply attachment_path_not_raw. exact U3.
    * intros i w Hi.
      apply lookup_app_Some in Hi as [Hi|[Hlen Hi]].
      -- destruct (U4 i w Hi) as (k & Hk & Hne).
         exists k. split; [apply lookup_app_l_Some, Hk|exact Hne].
      -- destruct (i - _)%nat; [|discriminate]. injection Hi as <-.
         eexists. split.
         ++ rewrite lookup_app_r by lia. rewrite Nat.sub_diag. reflexivity.
         ++ simpl. apply attachment_path_not_raw.
  + bind_ok E. injection E as <-.
    apply Part002_on_text_same in E0. destruct E0 as (_ & _ & Hs & _).
    constructor; simpl; auto. congruence.
  + injection E as <-. constructor; auto.
- injection H as <-. constructor; simpl; auto.
- injection H as <-. unfold on_content_data.
  destruct (ing_contents (run_state r) !! i) as [[w|]|] eqn:Ei;
    constructor; simpl; auto.
  + destruct (U4 i w Ei) as (k & Hk & Hne).
    rewrite (files_sink_write_ne _ _ _ k) by eauto. exact U3.
  + intros j w' Hj. rewrite sinks_sink_write. eauto.
- injection H as <-. unfold on_content_end.
  destruct (ing_contents (run_state r) !! i) as [[w|]|] eqn:Ei;
    constructor; simpl; auto.
  + rewrite disk_sink_end. exact U3.
  + intros j w' Hj. destruct (U4 j w' Hj) as (k & Hk & Hne).
    destruct (sink_end_keeps w w' (ing_io (run_state r)) k Hk) as (k' & Hk' & Hp).
    exists k'. split; [exact Hk'|congruence].
Qed.

Lemma unwritten_run (trace : list Event) (r r' : Run) :
Unwritten raw (run_state r) →
Part002.run stripTags formatBytes true (Part002_outStreams s id) r trace = Ok r' →
Unwritten raw (run_state r').
Proof.
revert r. induction trace as [|ev trace IH]; intros r U H; simpl in H.
- injection H as <-. exact U.
- bind_ok H. eapply IH; [|exact H]. eapply unwritten_step; eauto.
Qed.

Lemma unwritten_start (envelope : Envelope) (io : Io) (r : Run) :
parseMessage_start envelope id (Part002_outStreams s id) io = Ok r →
Unwritten raw (run_state r).
Proof.
unfold parseMessage_start, Part002_outStreams, Part002.emlStream_provider. simpl.
intros H. injection H as <-.
constructor; simpl; auto.
- apply lookup_insert_eq.
- intros i w Hi. inversion Hi.
Qed.
End Part002_raw.

(** C3, on the code: [handleNewMessage] hands [parseMessage] a provider
    that returns the write stream itself, and [parseMessage] takes the
    [source] and [emlStream] properties of what it gets.  A write stream
    has neither, so nothing is piped to the raw file and [message.source]
    is never set: after any run, the record that is registered has no
    [source] and the raw file is as empty as it was created. *)
Theorem raw_file_never_written
    (stripTags : JsVal → list string → JsVal) (formatBytes : Z → string)
    (s : Store) (id : string) (envelope : Envelope) (io : Io)
    (trace : list Event) (s' : Store) (r : Run) :
  Part002.handleNewMessage stripTags formatBytes s id envelope io trace = Ok (s', r) →
  msg_source (ing_message (run_state r)) = None ∧
  files (disk (ing_io (run_state r))) !! path_join (mailDir s) (id +:+ ".eml") = Some "" ∧
  messages s'
  = messages s ++ repeat (ing_message (run_state r)) (List.length (run_completions r)).
Proof.
  unfold Part002.handleNewMessage, Part002.parseMessage. cbv zeta.
  intros H. bind_ok H. injection H as <- <-. bind_ok E.
  pose proof (unwritten_run stripTags formatBytes s id trace a0 a
                (unwritten_start s id envelope io a0 E0) E) as [U1 U2 U3 U4].
  split; [exact U2|]. split; [exact U3|]. reflexivity.
Qed.

Lemma raw_file_never_written_witness :
  let s' := Ingestion.plain_Part002.1 in
  let r := Ingestion.plain_Part002.2 in
  msg_source (ing_message (run_state r)) = None ∧
  files (disk (ing_io (run_state r)))
    !! path_join (mailDir Sample.empty_store) ("m1" +:+ ".eml") = Some "" ∧
  messages s'
  = messages Sample.empty_store
    ++ repeat (ing_message (run_state r)) (List.length (run_completions r)).
Proof.
  apply (raw_file_never_written Sample.stripTags Sample.formatBytes
           Sample.empty_store "m1" Sample.envelope Sample.fresh_io Trace.plain
           Ingestion.plain_Part002.1 Ingestion.plain_Part002.2).
  vm_compute. reflexivity.
Defined.

(** On the plain message: two bytes came in and were counted, the record
    says [size = 2], and the raw file holds none of them.  The same in
    [src/lib/store.js], whose raw file is named after [undefined]. *)
Example raw_file_empty_size_two :
  msg_size <$> messages Ingestion.plain_Part002.1 = [Some 2] ∧
  msg_source <$> messages Ingestion.plain_Part002.1 = [None] ∧
  map_to_list (files (disk (ing_io (run_state Ingestion.plain_Part002.2))))
  = [(path_join Sample.root "m1.eml", "")] ∧
  msg_size <$> messages Ingestion.plain_StoreJs.1 = [Some 2] ∧
  msg_source <$> messages Ingestion.plain_StoreJs.1 = [None] ∧
  map_to_list (files (disk (ing_io (run_state Ingestion.plain_StoreJs.2))))
  = [(path_join Sample.root "undefined.eml", "")].
Proof. conjuncts; vm_compute; reflexivity. Qed.

(** *** The raw file under a provider of the right shape *)

Lemma sink_end_keeps_opt (o : option nat) (w' : nat) (io : Io) (k : Sink) :
  sinks io !! w' = Some k →
  ∃ k', sinks (opt_end o io) !! w' = Some k' ∧ sink_path k' = sink_path k.
Proof. destruct o; [apply sink_end_keeps|eauto]. Qed.

Lemma length_append (a b : string) :
  String.length (a +:+ b) = (String.length a + String.length b)%nat.
Proof. induction a as [|c a IH]; simpl; [reflexivity|]. rewrite IH. reflexivity. Qed.

Lemma sink_write_open (w : nat) (chunk : string) (io : Io) (k : Sink) :
  sinks io !! w = Some k → sink_ended k = false →
  files (disk (sink_write w chunk io))
  = <[sink_path k := default "" (files (disk io) !! sink_path k) +:+ chunk]>
      (files (disk io)).
Proof. intros Hk He. unfold sink_write. rewrite Hk, He. reflexivity. Qed.

Section Part002_written.
Variable stripTags : JsVal → list string → JsVal.
Variable formatBytes : Z → string.
Variable s : Store.
Variable id : string.

Let raw : Path := path_join (mailDir s) (id +:+ ".eml").
Let handle := Part002.handle stripTags formatBytes true (shaped_outStreams s id).

Lemma written_message (r : Run) (m : Message) :
  Written raw r →
  same_but_props (ing_message (run_state r)) m →
  Written raw (with_state r (with_message (run_state r) m)).
Proof.
  intros [W1 W2 W3 W8 W9 W10 W11] (_ & _ & Hs & Hz & _).
  constructor; simpl; rewrite ?Hs, ?Hz; auto.
Qed.

Lemma written_step (r r' : Run) (ev : Event) :
  Written raw r →
  enabled (run_state r) ev = true →
  handle r ev = Ok r' →
  Written raw r'.
Proof.
  intros W He H.
  pose proof W as [W1 (w & k & W2 & W3 & W4 & W5) (content & W6 & W7) W8 W9 W10 W11].
  unfold handle, Part002.handle in H.
  destruct ev as [chunk| |headers now|data| |i chunk|i]; simpl in H, He.
  - (* InData *)
    injection H as <-. apply negb_true_iff in He.
    assert (Hopen : sink_ended k = false).
    { destruct (sink_ended k) eqn:E; [|reflexivity]. rewrite (W5 eq_refl) in He.
      discriminate. }
    constructor; simpl; auto.
    + exists w, k. rewrite W2. simpl. rewrite sinks_sink_write. auto.
    + exists (content +:+ chunk). rewrite W2. simpl.
      rewrite (sink_write_open _ _ _ k W3 Hopen), W4, W6. simpl.
      split; [apply lookup_insert_eq|]. rewrite length_append. lia.
    + intros Hp. rewrite (W8 He) in Hp. discriminate.
    + intros j w' Hj. rewrite sinks_opt_write. eauto.
  - (* InEnd *)
    injection H as <-. unfold Part002.on_in_end.
    constructor; simpl; auto.
    + rewrite W2. simpl.
      destruct (sink_end_keeps w w (ing_io (run_state r)) k W3) as (k1 & Hk1 & Hp1).
      destruct (sink_end_keeps w w (sink_end w (ing_io (run_state r))) k1 Hk1)
        as (k2 & Hk2 & Hp2).
      exists w, k2. repeat split; auto. congruence.
    + exists content. rewrite W2. simpl. rewrite !disk_sink_end. auto.
    + intros j w' Hj. destruct (W10 j w' Hj) as (k' & Hk' & Hne).
      destruct (sink_end_keeps_opt (ing_emlStream (run_state r)) w'
                  (ing_io (run_state r)) k' Hk') as (k1 & Hk1 & Hp1).
      destruct (sink_end_keeps_opt (ing_emlStream (run_state r)) w' _ k1 Hk1)
        as (k2 & Hk2 & Hp2).
      exists k2. split; [exact Hk2|congruence].
  - (* ParserHeaders *)
    bind_ok H. injection H as <-.
    apply written_message; [exact W|eapply Part002_on_headers_same, E].
  - (* ParserData *)
    bind_ok H. injection H as <-. unfold Part002.on_parser_data in E.
    destruct data as [datum|fields|].
    + apply attachment_opened in E.
      destruct E as (name & _ & Hm & Hsz & Heml & Hco & _ & Hpec & Hie & _ & Hsk & Hf).
      constructor; simpl; rewrite ?Hm, ?Hsz, ?Heml, ?Hco, ?Hpec, ?Hie, ?Hsk, ?Hf; simpl; auto.
      * exists w, k. repeat split; auto. apply lookup_app_l_Some, W3.
      * exists content. split; [|exact W7].
        rewrite lookup_insert_ne by apply attachment_path_not_raw. exact W6.
      * intros j w' Hj.
        apply lookup_app_Some in Hj as [Hj|[Hlen Hj]].
        -- destruct (W10 j w' Hj) as (k' & Hk' & Hne).
           exists k'. split; [apply lookup_app_l_Some, Hk'|exact Hne].
        -- destruct (j - _)%nat; [|discriminate]. injection Hj as <-.
           eexists. split.
           ++ rewrite lookup_app_r by lia. rewrite Nat.sub_diag. reflexivity.
           ++ simpl. apply attachment_path_not_raw.
    + bind_ok E. injection E as <-.
      apply written_message; [exact W|eapply Part002_on_text_same, E0].
    + injection E as <-. unchanged_run r. exact W.
  - (* ParserEnd *)
    injection H as <-.
    apply andb_true_iff in He as [He _]. apply andb_true_iff in He as [Hpec _].
    unfold Part002.on_parser_end, complete. simpl.
    constructor; simpl; auto;
      try solve [exists w, k; repeat split; auto | exists content; split; auto].
    intros c Hc. apply elem_of_app in Hc as [Hc|Hc]; [auto|].
    apply list_elem_of_singleton in Hc. subst c. simpl.
    split; [exact W1|]. exists content. split; [exact W6|].
    rewrite (W9 Hpec), W7. reflexivity.
  - (* ContentData *)
    injection H as <-. unfold on_content_data.
    destruct (ing_contents (run_state r) !! i) as [[w'|]|] eqn:Ei;
      try unchanged_run r; try exact W.
    constructor; simpl; auto.
    + exists w, k. rewrite sinks_sink_write. auto.
    + exists content. split; [|exact W7].
      destruct (W10 i w' Ei) as (k' & Hk' & Hne).
      rewrite (files_sink_write_ne _ _ _ k') by eauto. exact W6.
    + intros j w2 Hj. rewrite sinks_sink_write. eauto.
  - (* ContentEnd *)
    injection H as <-. unfold on_content_end.
    destruct (ing_contents (run_state r) !! i) as [[w'|]|] eqn:Ei;
      try unchanged_run r; try exact W.
    destruct (W10 i w' Ei) as (k' & Hk' & Hne).
    constructor; simpl; auto.
    + destruct (decide (w' = w)) as [->|Hw]; [congruence|].
      exists w, k. unfold sink_end. rewrite Hk'. simpl.
      rewrite list_lookup_insert_ne by exact Hw. auto.
    + exists content. rewrite disk_sink_end. auto.
    + intros j w2 Hj. destruct (W10 j w2 Hj) as (k2 & Hk2 & Hne2).
      destruct (sink_end_keeps w' w2 (ing_io (run_state r)) k2 Hk2) as (k3 & Hk3 & Hp).
      exists k3. split; [exact Hk3|congruence].
Qed.

Lemma written_run (trace : list Event) (r r' : Run) :
  Written raw r →
  obeys handle r trace = true →
  Part002.run stripTags formatBytes true (shaped_outStreams s id) r trace = Ok r' →
  Written raw r'.
Proof.
  revert r. induction trace as [|ev trace IH]; intros r W Ho H; simpl in *.
  - injection H as <-. exact W.
  - apply andb_true_iff in Ho as [He Ho].
    fold handle in H. destruct (handle r ev) as [r1| |] eqn:E; try discriminate.
    simpl in H. apply (IH r1); [eapply written_step; eauto|exact Ho|exact H].
Qed.

Lemma written_start (envelope : Envelope) (io : Io) (r : Run) :
  parseMessage_start envelope id (shaped_outStreams s id) io = Ok r →
  Written raw r.
Proof.
  unfold parseMessage_start, shaped_outStreams, shaped_emlStream. simpl.
  intros H. injection H as <-.
  constructor; simpl; auto.
  - eexists _, _. split; [reflexivity|]. split.
    + rewrite lookup_app_r by lia. rewrite Nat.sub_diag. reflexivity.
    + split; [reflexivity|discriminate].
  - exists "". split; [apply lookup_insert_eq|reflexivity].
  - discriminate.
  - intros i w Hi. inversion Hi.
  - intros c Hc. inversion Hc.
Qed.
End Part002_written.

(** With a provider of the shape that [parseMessage] destructures, C3 holds
    of the later revision: when the events come as the contracts allow,
    every completion hands over a record whose [source] is the raw file and
    whose [size] is the length of what that file holds. *)
Lemma shaped_provider_size_is_file_length
    (stripTags : JsVal → list string → JsVal) (formatBytes : Z → string)
    (s : Store) (id : string) (envelope : Envelope) (io : Io)
    (trace : list Event) (r0 r : Run) :
  parseMessage_start envelope id (shaped_outStreams s id) io = Ok r0 →
  obeys (Part002.handle stripTags formatBytes true (shaped_outStreams s id)) r0 trace
  = true →
  Part002.run stripTags formatBytes true (shaped_outStreams s id) r0 trace = Ok r →
  ∀ c, c ∈ run_completions r →
    msg_source (ing_message c) = Some (path_join (mailDir s) (id +:+ ".eml")) ∧
    ∃ content,
      files (disk (ing_io c)) !! path_join (mailDir s) (id +:+ ".eml") = Some content ∧
      msg_size (ing_message c) = Some (Z.of_nat (String.length content)).
Proof.
  intros Hs Ho Hr.
  apply (written_run stripTags formatBytes s id trace r0 r
           (written_start s id envelope io r0 Hs) Ho Hr).
Qed.

Example shaped_provider_plain :
  match Part002.parseMessage Sample.stripTags Sample.formatBytes true
          (shaped_outStreams Sample.empty_store "m1") Sample.envelope "m1"
          Sample.fresh_io Trace.plain with
  | Ok r =>
      (fun c => (msg_size (ing_message c), msg_source (ing_message c),
                 files (disk (ing_io c)) !! path_join Sample.root "m1.eml"))
        <$> run_completions r
      = [(Some 2, Some (path_join Sample.root "m1.eml"), Some "Hi")]
  | _ => False
  end.
Proof. vm_compute. reflexivity. Qed.

(** ** Deleting everything *)

Lemma sweep_thrown_is_failure
    (g : Globals) (root : Path) (fs : list string) (d d' : Disk) (e : JsError) :
  sweep g root fs d = (d', Some e) →
  (g_rimraf g = None ∧ e = ReferenceError "rimraf") ∨
  ∃ rimraf file, g_rimraf g = Some rimraf ∧ file ∈ fs ∧
    (rimraf (Some (path_join root file)) d' = Err e ∨
     rimraf (Some (path_join root file)) d' = Thrown e).
Proof.
  revert d. induction fs as [|file rest IH]; intros d H; simpl in H; [discriminate|].
  destruct (g_rimraf g) as [rimraf|] eqn:Eg.
  - destruct (rimraf (Some (path_join root file)) d) as [d1|e1|e1] eqn:Er.
    + destruct (IH _ H) as [[? _]|(rm & f & Hrm & Hf & Hor)]; [discriminate|].
      right. exists rm, f. split; [exact Hrm|]. split; [right; exact Hf|exact Hor].
    + injection H as <- <-. right. exists rimraf, file.
      split; [reflexivity|]. split; [left|]. left. exact Er.
    + injection H as <- <-. right. exists rimraf, file.
      split; [reflexivity|]. split; [left|]. right. exact Er.
  - injection H as <- <-. left. split; reflexivity.
Qed.



(** As the module stands, [rimraf] is not bound: a root directory with an
    entry in it makes the sweep raise a [ReferenceError] at the first one,
    and the disk is as it was.  The index is empty all the same, and the
    facade has answered [done(null, true)]. *)
Lemma deleteAll_module_scope (s : Store) (d : Disk) (file : string) (rest : list string) :
  fs_readdir d (mailDir s) = Ok (file :: rest) →
  deleteAll module_globals s d
  = (with_messages s [], d, Some (ReferenceError "rimraf")).
Proof. unfold deleteAll. intros ->. reflexivity. Qed.


Example deleteAllEmail_answers_true :
  (MailServer.deleteAllEmail module_globals Removal.store Removal.disk).1.1.1
  = Callback None (Some true).
Proof. vm_compute. reflexivity. Qed.

(** ** Rendering the html body *)

Import MailServer Html.




Lemma match_literal (l : list ascii) (pat : list Pat) (s : list ascii) :
  match_prefix ((PChar <$> l) ++ pat) (l ++ s) = match_prefix pat s.
Proof.
  induction l as [|c l IH]; [reflexivity|]. simpl.
  rewrite bool_decide_eq_true_2 by reflexivity. exact IH.
Qed.











(** The record of the witness is stored by name. *)
Example Page_stored_by_name : stored_by_name (mailDir Page.store) "m1" Page.email.
Proof.
  intros a Ha. simpl in Ha.
  repeat (apply elem_of_cons in Ha as [->|Ha]);
    [eexists; split; reflexivity..|inversion Ha].
Qed.

(** What that answer reads: both references, whatever their quotes, have
    become the url of the image between double quotes, with the blank of
    the file name encoded. *)
Example getEmailHTML_answer :
  getEmailHTML Page.store "m1" (Some "localhost:1080") = Some (Ok (VStr Page.answered)) ∧
  getEmailHTML Page.store "m1" None
  = Some (Ok (VStr ("<p>Hello</p><img alt='logo' src="
                    +:+ Page.quoted "/email/m1/attachment/logo%201.png"
                    +:+ "><img src="
                    +:+ Page.quoted "/email/m1/attachment/logo%201.png" +:+ ">"))).
Proof. split; vm_compute; reflexivity. Qed.


Section Part002_stored.
Variable stripTags : JsVal → list string → JsVal.
Variable formatBytes : Z → string.
Variable s : Store.
Variable id : string.

Lemma stored_step (r r' : Run) (ev : Event) :
stored_by_name (mailDir s) id (ing_message (run_state r)) →
Part002.handle stripTags formatBytes true (Part002_outStreams s id) r ev = Ok r' →
stored_by_name (mailDir s) id (ing_message (run_state r')).
Proof.
intros S H. unfold Part002.handle in H.
destruct ev as [chunk| |headers now|data| |i chunk|i]; simpl in H.
- injection H as <-. exact S.
- injection H as <-. exact S.
- bind_ok H. injection H as <-.
  apply Part002_on_headers_same in E. destruct E as (_ & Ha & _).
  unfold stored_by_name. simpl. rewrite Ha. exact S.
- bind_ok H. injection H as <-. unfold Part002.on_parser_data in E.
  destruct data as [datum|fields|].
  + apply attachment_opened in E. destruct E as (name & Hn & Hm & _).
    unfold stored_by_name. simpl. rewrite Hm. simpl.
    intros b Hb. apply elem_of_app in Hb as [Hb|Hb]; [exact (S b Hb)|].
    apply list_elem_of_singleton in Hb. subst b. exists name. split; [exact Hn|reflexivity].
  + bind_ok E. injection E as <-.
    apply Part002_on_text_same in E0. destruct E0 as (_ & Ha & _).
    unfold stored_by_name. simpl. rewrite Ha. exact S.
  + injection E as <-. exact S.
- injection H as <-. exact S.
- injection H as <-. unfold on_content_data.
  destruct (ing_contents (run_state r) !! i) as [[w|]|]; exact S.
- injection H as <-. unfold on_content_end.
  destruct (ing_contents (run_state r) !! i) as [[w|]|]; exact S.
Qed.

Lemma stored_run (trace : list Event) (r r' : Run) :
stored_by_name (mailDir s) id (ing_message (run_state r)) →
Part002.run stripTags formatBytes true (Part002_outStreams s id) r trace = Ok r' →
stored_by_name (mailDir s) id (ing_message (run_state r')).
Proof.
revert r. induction trace as [|ev trace IH]; intros r S H; simpl in H.
- injection H as <-. exact S.
- bind_ok H. eapply IH; [|exact H]. eapply stored_step; eauto.
Qed.
End Part002_stored.

(** What the later revision registers is stored by name: every attachment
    of an ingested record has a file name and its [source] is that name in
    the attachment directory of the message. *)
Lemma Part002_ingested_stored_by_name
    (stripTags : JsVal → list string → JsVal) (formatBytes : Z → string)
    (s : Store) (id : string) (envelope : Envelope) (io : Io)
    (trace : list Event) (s' : Store) (r : Run) :
  Part002.handleNewMessage stripTags formatBytes s id envelope io trace = Ok (s', r) →
  stored_by_name (mailDir s) id (ing_message (run_state r)).
Proof.
  unfold Part002.handleNewMessage, Part002.parseMessage. cbv zeta.
  intros H. bind_ok H. injection H as <- <-. bind_ok E.
  eapply stored_run; [|exact E].
  unfold parseMessage_start, Part002.emlStream_provider in E0. simpl in E0.
  injection E0 as <-. intros b Hb. inversion Hb.
Qed.

(** * Further properties *)

(** ** The extensions to hide *)

Lemma reduce_names (extensions names : list string) (options : gmap string JsVal) :
  mapM Server.toUpperCase extensions = Some names →
  Forall (fun ext => ext ∈ Server.HIDEABLE_EXTENSIONS) names →
  Server.reduce extensions options
  = Some (Ok (foldl (fun o ext => <["hide" +:+ ext := VBool true]> o) options names)).
Proof.
  revert names options.
  induction extensions as [|extension rest IH]; intros names options Hm Hall.
  - injection Hm as <-. reflexivity.
  - apply mapM_Some_1 in Hm. inversion Hm as [|? ext ? names' Hu Hrest]; subst.
    apply Forall_cons_1 in Hall as [Hext Hall].
    simpl. unfold Server.hide_turn. rewrite Hu. simpl.
    rewrite bool_decide_eq_true_2 by exact Hext.
    apply IH; [apply mapM_Some_2, Hrest|exact Hall].
Qed.

Lemma lookup_hidden (names : list string) (options : gmap string JsVal) (key : string) :
  foldl (fun o ext => <["hide" +:+ ext := VBool true]> o) options names !! key
  = if decide (key ∈ String.append "hide" <$> names) then Some (VBool true)
    else options !! key.
Proof.
  revert options. induction names as [|ext names IH]; intros options.
  - destruct (decide _) as [H|_]; [inversion H|reflexivity].
  - change (foldl (fun o ext => <["hide" +:+ ext := VBool true]> o)
              (<["hide" +:+ ext := VBool true]> options) names !! key
            = if decide (key ∈ ("hide" +:+ ext) :: (String.append "hide" <$> names))
              then Some (VBool true) else options !! key).
    rewrite IH. destruct (decide (key ∈ String.append "hide" <$> names)) as [Hin|Hnin].
    + rewrite decide_True by (right; exact Hin). reflexivity.
    + destruct (decide (key = "hide" +:+ ext)) as [->|Hne].
      * rewrite decide_True by left. apply lookup_insert_eq.
      * rewrite decide_False.
        -- apply lookup_insert_ne. congruence.
        -- intros H. apply elem_of_cons in H as [H|H]; [congruence|exact (Hnin H)].
Qed.

(** X1.  [getHideExtensionOptions] on a list of names that all are, in upper
    case, names of the list of extensions that can be hidden: the options
    hold [hide<NAME>: true] for each name given, and nothing else.  The
    case of the letters, the order and the repetitions of the names do
    not show in the result. *)
Theorem getHideExtensionOptions_accepts (extensions names : list string) :
  mapM Server.toUpperCase extensions = Some names →
  Forall (fun ext => ext ∈ Server.HIDEABLE_EXTENSIONS) names →
  Server.getHideExtensionOptions (Some extensions)
  = Some (Ok (gset_to_gmap (VBool true) (list_to_set (String.append "hide" <$> names)))).
Proof.
  intros Hm Hall. simpl. rewrite (reduce_names _ names) by assumption.
  do 2 f_equal. apply map_eq. intros key.
  rewrite lookup_hidden, lookup_gset_to_gmap, lookup_empty.
  destruct (decide (key ∈ String.append "hide" <$> names)) as [Hin|Hnin].
  - rewrite option_guard_True by (apply elem_of_list_to_set; exact Hin). reflexivity.
  - rewrite option_guard_False; [reflexivity|].
    intros H. apply elem_of_list_to_set in H. exact (Hnin H).
Qed.

Lemma getHideExtensionOptions_accepts_witness :
  Server.getHideExtensionOptions (Some ["pipelining"; "8BitMime"; "PIPELINING"])
  = Some (Ok (gset_to_gmap (VBool true)
                (list_to_set (String.append "hide" <$> ["PIPELINING"; "8BITMIME"; "PIPELINING"])))).
Proof.
  apply (getHideExtensionOptions_accepts
           ["pipelining"; "8BitMime"; "PIPELINING"] ["PIPELINING"; "8BITMIME"; "PIPELINING"]).
  - reflexivity.
  - repeat constructor.
Defined.

(** X2.  A name that is not, in upper case, in the list ends
    [getHideExtensionOptions] with the exception that names it in upper
    case, when the names before it are accepted; the names after it are
    not looked at. *)
Theorem getHideExtensionOptions_rejects
    (before : list string) (bad : string) (after : list string)
    (names : list string) (ext : string) :
  mapM Server.toUpperCase before = Some names →
  Forall (fun ext => ext ∈ Server.HIDEABLE_EXTENSIONS) names →
  Server.toUpperCase bad = Some ext →
  ext ∉ Server.HIDEABLE_EXTENSIONS →
  Server.getHideExtensionOptions (Some (before ++ bad :: after))
  = Some (Thrown (Error ("Invalid hideable extension: " +:+ ext))).
Proof.
  intros Hm Hall Hu Hbad. simpl. generalize (∅ : gmap string JsVal) as options.
  revert names Hm Hall.
  induction before as [|extension rest IH]; intros names Hm Hall options.
  - simpl. unfold Server.hide_turn. rewrite Hu. simpl.
    rewrite bool_decide_eq_false_2 by exact Hbad. reflexivity.
  - apply mapM_Some_1 in Hm. inversion Hm as [|? e ? names' He Hrest]; subst.
    apply Forall_cons_1 in Hall as [Hext Hall].
    simpl. unfold Server.hide_turn at 1. rewrite He. simpl.
    rewrite bool_decide_eq_true_2 by exact Hext.
    apply (IH names'); [apply mapM_Some_2, Hrest|exact Hall].
Qed.

Lemma getHideExtensionOptions_rejects_witness :
  Server.getHideExtensionOptions (Some (["smtputf8"] ++ "chunking" :: ["STARTTLS"]))
  = Some (Thrown (Error ("Invalid hideable extension: " +:+ "CHUNKING"))).
Proof.
  apply (getHideExtensionOptions_rejects ["smtputf8"] "chunking" ["STARTTLS"]
           ["SMTPUTF8"] "CHUNKING").
  - reflexivity.
  - repeat constructor.
  - reflexivity.
  - vm_compute. intros H. repeat (apply elem_of_cons in H as [H|H]; [discriminate|]).
    inversion H.
Defined.

(** ** Lookup by id, again *)

Lemma filter_id_unique (ms : list Message) (id : string) :
  NoDup (msg_id <$> ms) →
  (List.length (filter (fun m => msg_id m = id) ms) ≤ 1)%nat.
Proof.
  induction ms as [|m ms IH]; intros Hnd; simpl; [lia|].
  apply NoDup_cons in Hnd as [Hnin Hnd].
  rewrite filter_cons. destruct (decide (msg_id m = id)) as [Hid|Hid].
  - assert (Hnil : filter (fun m => msg_id m = id) ms = []).
    { destruct (filter (fun m => msg_id m = id) ms) as [|b l] eqn:E; [reflexivity|].
      assert (Hb : b ∈ filter (fun m => msg_id m = id) ms) by (rewrite E; left).
      apply list_elem_of_filter in Hb as [Hbid Hb].
      exfalso. apply Hnin. rewrite Hid, <- Hbid.
      apply list_elem_of_fmap. exists b. split; [reflexivity|exact Hb]. }
    rewrite Hnil. simpl. lia.
  - apply IH, Hnd.
Qed.

(** X3.  In a store whose records have different ids, [emailById] finds a
    record exactly when it is in the store under that id, and reports
    'Email was not found' exactly when no record has the id. *)
Theorem emailById_unique_ids (s : Store) (id : string) :
  NoDup (msg_id <$> messages s) →
  (∀ m, emailById s id = Ok m ↔ m ∈ messages s ∧ msg_id m = id) ∧
  (emailById s id = Err not_found ↔ ∀ m, m ∈ messages s → msg_id m ≠ id).
Proof.
  intros Hnd. pose proof (filter_id_unique (messages s) id Hnd) as Hlen.
  unfold emailById.
  destruct (filter (fun m => msg_id m = id) (messages s)) as [|a [|b l]] eqn:E;
    simpl in Hlen; try lia.
  - assert (Hnone : ∀ m, m ∈ messages s → msg_id m ≠ id).
    { intros m Hm Hid.
      assert (Hin : m ∈ filter (fun m => msg_id m = id) (messages s))
        by (apply list_elem_of_filter; auto).
      rewrite E in Hin. inversion Hin. }
    split.
    + intros m. split; [discriminate|]. intros [Hm Hid]. destruct (Hnone m Hm Hid).
    + split; [intros _; exact Hnone|reflexivity].
  - assert (Ha : a ∈ filter (fun m => msg_id m = id) (messages s)) by (rewrite E; left).
    apply list_elem_of_filter in Ha as [Haid Ha].
    split.
    + intros m. split.
      * intros [= <-]. auto.
      * intros [Hm Hid].
        assert (Hin : m ∈ filter (fun m => msg_id m = id) (messages s))
          by (apply list_elem_of_filter; auto).
        rewrite E in Hin. apply list_elem_of_singleton in Hin. congruence.
    + split; [discriminate|]. intros H. destruct (H a Ha Haid).
Qed.

Lemma emailById_unique_ids_witness :
  let s := {| mailDir := Sample.root;
              messages := [Sample.record "m1" []; Sample.record "m2" [Sample.image]] |} in
  (∀ m, emailById s "m2" = Ok m ↔ m ∈ messages s ∧ msg_id m = "m2") ∧
  (emailById s "m2" = Err not_found ↔ ∀ m, m ∈ messages s → msg_id m ≠ "m2").
Proof.
  intros s. apply (emailById_unique_ids s "m2").
  simpl. apply NoDup_cons. split; [|apply NoDup_singleton].
  intros H. apply list_elem_of_singleton in H. discriminate.
Defined.

Lemma msg_id_mark (m : Message) : msg_id (mark m) = msg_id m.
Proof. unfold mark. destruct (not_read m); reflexivity. Qed.

Lemma filter_id_mark (ms : list Message) (id : string) :
  filter (fun m => msg_id m = id) (mark <$> ms)
  = mark <$> filter (fun m => msg_id m = id) ms.
Proof.
  induction ms as [|m ms IH]; [reflexivity|].
  rewrite fmap_cons, !filter_cons, msg_id_mark.
  destruct (decide (msg_id m = id)); rewrite IH; reflexivity.
Qed.

(** X4.  Marking every record read does not change what [emailById] finds:
    an id that was found is found, with the record as it was but for
    [read = true]; an id that was not found, for want of a record or for
    having several, is still not found. *)
Theorem emailById_after_markAllEmailRead (s : Store) (id : string) :
  emailById (markAllEmailRead s).1 id
  = match emailById s id with
    | Ok m => Ok (if not_read m then set_read m else m)
    | other => other
    end.
Proof.
  unfold markAllEmailRead. rewrite mark_loop_map. simpl.
  unfold emailById. simpl. rewrite filter_id_mark.
  destruct (filter (fun m => msg_id m = id) (messages s)) as [|a [|b l]]; reflexivity.
Qed.

(** ** The html body, at the edges *)

(** X5.  For a record none of whose attachments has a content id,
    [getEmailHTML] answers the html as it is stored, whatever it is and
    whatever the base url. *)
Theorem getEmailHTML_without_embedded
    (s : Store) (id : string) (baseUrl : option string) (email : Message) :
  emailById s id = Ok email →
  (∀ a, a ∈ msg_attachments email → truthy (att_contentId a) = false) →
  getEmailHTML s id baseUrl = Some (Ok (prop email "html")).
Proof.
  intros He Hnone. unfold getEmailHTML, getEmail. rewrite He.
  replace (filter _ (msg_attachments email)) with (@nil Attachment); [reflexivity|].
  symmetry. induction (msg_attachments email) as [|a l IH]; [reflexivity|].
  rewrite filter_cons, decide_False.
  - apply IH. intros b Hb. apply Hnone. right. exact Hb.
  - rewrite Hnone by left. discriminate.
Qed.

Lemma getEmailHTML_without_embedded_witness :
  let email := set_prop (Sample.record "m1" [Page.report]) "html" (VStr "<p>Hi</p>") in
  getEmailHTML {| mailDir := Sample.root; messages := [email] |} "m1" (Some "localhost:1080")
  = Some (Ok (prop email "html")).
Proof.
  intros email.
  apply (getEmailHTML_without_embedded _ "m1" (Some "localhost:1080") email).
  - reflexivity.
  - intros a Ha. apply list_elem_of_singleton in Ha. subst a. reflexivity.
Defined.

(** X6.  For a record with an attachment that has a content id and with
    no html body, [getEmailHTML] does not answer: [html.replace] is
    called on [undefined] and raises a [TypeError]. *)
Theorem getEmailHTML_without_html
    (s : Store) (id : string) (baseUrl : option string) (email : Message)
    (a : Attachment) (rest : list Attachment) (cid : string) :
  emailById s id = Ok email →
  filter (fun a => truthy (att_contentId a) = true) (msg_attachments email) = a :: rest →
  att_contentId a = VStr cid →
  is_Some (cid_pattern cid) →
  is_Some (to_string (att_generatedFileName a)) →
  nullish (prop email "html") = true →
  getEmailHTML s id baseUrl = Some (Thrown no_property).
Proof.
  intros He Hf Hcid _ [name Hname] Hhtml. unfold getEmailHTML, getEmail.
  rewrite He, Hf. simpl. unfold replace_cid. rewrite Hcid, Hname. simpl.
  destruct (prop email "html"); try discriminate; reflexivity.
Qed.

Lemma getEmailHTML_without_html_witness :
  getEmailHTML {| mailDir := Sample.root; messages := [Sample.record "m1" [Sample.image]] |}
    "m1" None
  = Some (Thrown no_property).
Proof.
  apply (getEmailHTML_without_html _ "m1" None (Sample.record "m1" [Sample.image])
           Sample.image [] "logo@maildev").
  - reflexivity.
  - reflexivity.
  - reflexivity.
  - vm_compute. eexists. reflexivity.
  - eexists. reflexivity.
  - reflexivity.
Defined.

(** ** Downloading and relaying *)

(** X7.  [getEmailEml] never answers with a stream.  It passes on the
    error of the lookup; and when the raw stream of the record is there,
    building the file name from [email.id] raises a [ReferenceError],
    [email] being no name of the module. *)
Theorem getEmailEml_never_answers (s : Store) (id : string) :
  (∀ answer, Server.getEmailEml None s id ≠ Ok answer) ∧
  (∀ e, emailById s id = Err e → Server.getEmailEml None s id = Err e) ∧
  (∀ email p, emailById s id = Ok email → msg_source email = Some p →
     Server.getEmailEml None s id = Thrown (ReferenceError "email")) ∧
  (∀ email, emailById s id = Ok email → msg_source email = None →
     Server.getEmailEml None s id = Thrown no_path).
Proof.
  unfold Server.getEmailEml, emailStreamById. conjuncts.
  - intros answer. destruct (emailById s id) as [email|e|e]; try discriminate.
    destruct (msg_source email); discriminate.
  - intros e ->. reflexivity.
  - intros email p -> ->. reflexivity.
  - intros email -> ->. reflexivity.
Qed.

(** X8.  [relayMail] with an id, for every way of passing its arguments.
    [outgoing.isEnabled()] is tested before the optional argument is
    sorted out, so with outgoing mail not configured the error goes to
    the third argument, and a callback passed second is not called:
    calling [undefined] raises a [TypeError].  Otherwise the record is
    looked up; its error goes to the callback; a record without [source]
    makes [createReadStream] throw; otherwise the record and a stream on
    its [source] are handed to [outgoing.relayMail], never as an
    automatic relay, whatever was passed for [isAutoRelay]. *)
Theorem relayMail_by_id_cases
    (outgoing_enabled : bool) (s : Store) (id : string)
    (isAutoRelay : Server.Arg) (done : option string) :
  let callback := (Server.optional isAutoRelay done).2 in
  Server.relayMail outgoing_enabled s id isAutoRelay done
  = if negb outgoing_enabled
    then Server.call done (Error "Outgoing mail not configured")
    else match emailById s id with
         | Err e => Server.call callback e
         | Thrown e => Server.Threw e
         | Ok mail =>
             match msg_source mail with
             | None => Server.Threw no_path
             | Some p =>
                 Server.HandedOver mail (ReadStreamOf p)
                   (match callback with Some _ => VBool false | None => VUndef end)
                   callback
             end
         end.
Proof.
  intros callback. unfold Server.relayMail. destruct outgoing_enabled; [|reflexivity].
  simpl. subst callback.
  destruct (Server.optional isAutoRelay done) as [flag callback] eqn:Eo. simpl.
  unfold getEmail. destruct (emailById s id) as [mail|e|e] eqn:E; try reflexivity.
  destruct (emailById_found s id mail E) as [_ Hid].
  unfold Server.relayMail_object, getRawEmail, emailStreamById. simpl.
  rewrite Hid, E.
  destruct callback as [f|]; simpl; destruct (msg_source mail); reflexivity.
Qed.

(** X9.  [deleteEmail] never answers [done(null, true)]: the [ok] that
    [deleteById] passes is set by a callback that has not run when it is
    passed.  And with the names the module has, it leaves the store and
    the disk as they were. *)
Theorem deleteEmail_never_succeeds (g : Globals) (s : Store) (d : Disk) (id : string) :
  (∀ err ok, (deleteEmail g s d id).1.1 = Callback err ok → ok = None) ∧
  (deleteEmail module_globals s d id).1.2 = s ∧
  (deleteEmail module_globals s d id).2 = d.
Proof.
  unfold deleteEmail, deleteById. conjuncts.
  - intros err ok.
    destruct (index_falsy _); simpl; [intros H; injection H as _ <-; reflexivity|].
    destruct (messages s !! _) as [email|]; simpl; [|discriminate].
    destruct (g_rimraf g) as [rimraf|]; simpl; [|discriminate].
    destruct (rimraf_later rimraf (msg_source email) d) as [d1|e|e]; simpl;
      try discriminate.
    destruct (rimraf_later rimraf None d1) as [d2|e|e]; simpl; try discriminate.
    destruct (g_errors g) as [errors|]; simpl; [|discriminate].
    intros H. injection H as _ <-. reflexivity.
  - destruct (index_falsy _); [reflexivity|].
    destruct (messages s !! _); reflexivity.
  - destruct (index_falsy _); [reflexivity|].
    destruct (messages s !! _); reflexivity.
Qed.

(** ** The url of an attachment *)









(** ** The methods of an object *)

Section Methods.
Import MethodOf.

Lemma add_spec (properties : list string) (item x : string) :
  x ∈ add properties item ↔ x ∈ properties ∨ x = item.
Proof.
  unfold add. case_bool_decide as Hin.
  - split; [auto|]. intros [H| ->]; assumption.
  - rewrite elem_of_app, list_elem_of_singleton. reflexivity.
Qed.

Lemma add_NoDup (properties : list string) (item : string) :
  NoDup properties → NoDup (add properties item).
Proof.
  intros Hnd. unfold add. case_bool_decide as Hin; [exact Hnd|].
  apply NoDup_app. split; [exact Hnd|]. split.
  - intros x Hx Hx'. apply list_elem_of_singleton in Hx'. subst x. exact (Hin Hx).
  - apply NoDup_singleton.
Qed.

Lemma adds_spec (names properties : list string) (x : string) :
  x ∈ foldl add properties names ↔ x ∈ properties ∨ x ∈ names.
Proof.
  revert properties. induction names as [|n names IH]; intros properties; simpl.
  - split; [auto|]. intros [H|H]; [exact H|inversion H].
  - rewrite IH, add_spec, elem_of_cons. tauto.
Qed.

Lemma adds_NoDup (names properties : list string) :
  NoDup properties → NoDup (foldl add properties names).
Proof.
  revert properties. induction names as [|n names IH]; intros properties Hnd; simpl.
  - exact Hnd.
  - apply IH, add_NoDup, Hnd.
Qed.

Lemma collected_spec (chain : list Own) (properties : list string) (x : string) :
  x ∈ foldl (fun properties currentObj => foldl add properties (currentObj.*1))
        properties chain
  ↔ x ∈ properties ∨ ∃ own, own ∈ chain ∧ x ∈ own.*1.
Proof.
  revert properties. induction chain as [|o chain IH]; intros properties; simpl.
  - split; [auto|]. intros [H|(own & H & _)]; [exact H|inversion H].
  - rewrite IH, adds_spec. split.
    + intros [[H|H]|(own & Ho & Hx)]; [auto| |].
      * right. exists o. split; [left|exact H].
      * right. exists own. split; [right; exact Ho|exact Hx].
    + intros [H|(own & Ho & Hx)]; [auto|].
      apply elem_of_cons in Ho as [->|Ho]; [auto|].
      right. exists own. auto.
Qed.

Lemma collected_NoDup (chain : list Own) (properties : list string) :
  NoDup properties →
  NoDup (foldl (fun properties currentObj => foldl add properties (currentObj.*1))
           properties chain).
Proof.
  revert properties. induction chain as [|o chain IH]; intros properties Hnd; simpl.
  - exact Hnd.
  - apply IH, adds_NoDup, Hnd.
Qed.

Lemma find_name (own : Own) (item : string) (kv : string * bool) :
  List.find (fun kv => String.eqb (fst kv) item) own = Some kv →
  kv ∈ own ∧ kv.1 = item.
Proof.
  intros H. apply find_some in H as [Hin Heq].
  apply String.eqb_eq in Heq. split; [apply list_elem_of_In, Hin|exact Heq].
Qed.

Lemma is_function_named (chain : list Own) (item : string) :
  is_function chain item = true → ∃ own, own ∈ chain ∧ item ∈ own.*1.
Proof.
  induction chain as [|own chain IH]; simpl; [discriminate|].
  destruct (List.find _ own) as [kv|] eqn:E.
  - intros _. apply find_name in E as [Hin <-].
    exists own. split; [left|]. apply list_elem_of_fmap. exists kv. auto.
  - intros H. destruct (IH H) as (o & Ho & Hx). exists o. split; [right; exact Ho|exact Hx].
Qed.

(** X11.  [methodOf] lists each name once, and lists exactly the names
    whose value, read through the object, is a function: a method of a
    prototype that the object or a nearer prototype overrides with a
    value that is no function is not listed, and one that it overrides
    with a function is listed once. *)
Theorem methodOf_lists_functions (obj : Own) (protos : list Own) :
  NoDup (methodOf obj protos) ∧
  ∀ item, item ∈ methodOf obj protos ↔ is_function (obj :: protos) item = true.
Proof.
  unfold methodOf. split.
  - apply NoDup_filter, collected_NoDup, NoDup_nil_2.
  - intros item. rewrite list_elem_of_filter, collected_spec. split; [tauto|].
    intros H. split; [exact H|]. right. apply is_function_named, H.
Qed.

End Methods.

(** ** What an ingestion leaves alone *)

Lemma untouched_refl (m : Message) : untouched m m.
Proof. repeat split. Qed.

Lemma untouched_trans (a b c : Message) :
  untouched a b → untouched b c → untouched a c.
Proof.
  intros (H1 & H2 & Hs & H3) (H4 & H5 & Hs' & H6).
  split; [congruence|]. split; [congruence|]. split; [congruence|].
  intros key Hk. rewrite (H6 key Hk). apply H3, Hk.
Qed.

Lemma untouched_set_prop (m : Message) (dk : string) (v : JsVal) :
  dk ∈ copy_targets → untouched m (set_prop m dk v).
Proof.
  intros Hdk. split; [reflexivity|]. split; [reflexivity|]. split; [reflexivity|].
  intros key Hk. rewrite prop_set_prop.
  destruct (decide (dk = key)) as [->|]; [destruct (Hk Hdk)|reflexivity].
Qed.

Lemma untouched_set_attachments (m : Message) (l : list Attachment) :
  untouched m (set_attachments m l).
Proof. repeat split. Qed.

Lemma untouched_set_size (m : Message) (n : Z) (human : string) :
  untouched m (set_size m n human).
Proof. repeat split. Qed.

Lemma Part002_copy_untouched (src : Src) (k dk : string) (m m' : Message)
    (dv : Part002.DefaultValue) :
  dk ∈ copy_targets →
  Part002.copy src k m dk dv = Ok m' → untouched m m'.
Proof.
  intros Hdk. unfold Part002.copy. intros H.
  bind_ok H. destruct a.
  - injection H as <-. apply untouched_set_prop, Hdk.
  - bind_ok H. destruct (truthy a).
    + injection H as <-. apply untouched_set_prop, Hdk.
    + destruct (_ && _); injection H as <-;
        [apply untouched_set_prop, Hdk | apply untouched_refl].
Qed.

Lemma StoreJs_copy_untouched (src : Src) (k dk : string) (m m' : Message) (d : JsVal) :
  dk ∈ copy_targets →
  StoreJs.copy src k m dk d = Ok m' → untouched m m'.
Proof.
  intros Hdk. unfold StoreJs.copy. intros H.
  bind_ok H. destruct (truthy a).
  - injection H as <-. apply untouched_set_prop, Hdk.
  - destruct (truthy d); injection H as <-;
      [apply untouched_set_prop, Hdk | apply untouched_refl].
Qed.

Ltac decided := apply (bool_decide_unpack _); vm_compute; exact I.

Ltac untouched_chain copy_untouched :=
  repeat (match goal with
          | H : mbind _ _ = Ok _ |- _ => bind_ok H
          end;
          match goal with
          | E : _ _ _ ?x ?dk _ = Ok ?y |- untouched ?x _ =>
              apply (untouched_trans x y);
              [eapply copy_untouched; [|exact E]; decided|];
              clear E
          end).

Lemma Part002_on_headers_untouched (headers : Src) (now : Z) (m m' : Message) :
  Part002.on_headers headers now m = Ok m' → untouched m m'.
Proof.
  unfold Part002.on_headers. intros H. bind_ok H.
  untouched_chain Part002_copy_untouched.
  refine (Part002_copy_untouched _ _ _ _ _ _ _ H). decided.
Qed.

Lemma Part002_on_text_untouched (stripTags : JsVal → list string → JsVal)
    (fields : gmap string JsVal) (m m' : Message) :
  Part002.on_text stripTags fields m = Ok m' → untouched m m'.
Proof.
  unfold Part002.on_text. intros H.
  untouched_chain Part002_copy_untouched.
  refine (Part002_copy_untouched _ _ _ _ _ _ _ H). decided.
Qed.

Lemma StoreJs_on_headers_untouched (headers : Src) (now : Z) (m m' : Message) :
  StoreJs.on_headers headers now m = Ok m' → untouched m m'.
Proof.
  unfold StoreJs.on_headers. intros H. bind_ok H.
  untouched_chain StoreJs_copy_untouched.
  refine (StoreJs_copy_untouched _ _ _ _ _ _ _ H). decided.
Qed.

Lemma StoreJs_on_text_untouched (fields : gmap string JsVal) (m m' : Message) :
  StoreJs.on_text fields m = Ok m' → untouched m m'.
Proof.
  unfold StoreJs.on_text. intros H.
  untouched_chain StoreJs_copy_untouched.
  refine (StoreJs_copy_untouched _ _ _ _ _ _ _ H). decided.
Qed.

Lemma open_attachment_sink_untouched
    (provider : option (Attachment → Io → Result (JsObject * Io)))
    (streamAttachments : bool) (attachment : Attachment) (st st' : Ingest) :
  open_attachment_sink provider streamAttachments attachment st = Ok st' →
  untouched (ing_message st) (ing_message st').
Proof.
  unfold open_attachment_sink. destruct streamAttachments.
  - destruct provider as [f|]; [|discriminate]. intros H. bind_ok H.
    destruct a as [o io]. destruct (obj_member o "stream"); [|discriminate].
    injection H as <-. apply untouched_set_attachments.
  - intros H. injection H as <-. apply untouched_set_attachments.
Qed.

Lemma on_content_data_message (i : nat) (chunk : string) (st : Ingest) :
  ing_message (on_content_data i chunk st) = ing_message st.
Proof. unfold on_content_data. destruct (ing_contents st !! i) as [[w|]|]; reflexivity. Qed.

Lemma on_content_end_message (i : nat) (st : Ingest) :
  ing_message (on_content_end i st) = ing_message st.
Proof. unfold on_content_end. destruct (ing_contents st !! i) as [[w|]|]; reflexivity. Qed.

Section Untouched.
Variable stripTags : JsVal → list string → JsVal.
Variable formatBytes : Z → string.
Variable streamAttachments : bool.
Variable outStreams : OutStreams.

Lemma Part002_handle_untouched (r r' : Run) (ev : Event) :
Part002.handle stripTags formatBytes streamAttachments outStreams r ev = Ok r' →
untouched (ing_message (run_state r)) (ing_message (run_state r')).
Proof.
unfold Part002.handle. intros H.
destruct ev as [chunk| |headers now|data| |i chunk|i]; simpl in H.
- injection H as <-. apply untouched_refl.
- injection H as <-. apply untouched_set_size.
- bind_ok H. injection H as <-. simpl. eapply Part002_on_headers_untouched, E.
- bind_ok H. injection H as <-. simpl. unfold Part002.on_parser_data in E.
  destruct data as [datum|fields|].
  + eapply open_attachment_sink_untouched, E.
  + bind_ok E. injection E as <-. simpl. eapply Part002_on_text_untouched, E0.
  + injection E as <-. apply untouched_refl.
- injection H as <-. apply untouched_refl.
- injection H as <-. simpl. rewrite on_content_data_message. apply untouched_refl.
- injection H as <-. simpl. rewrite on_content_end_message. apply untouched_refl.
Qed.

Lemma Part002_run_untouched (trace : list Event) (r r' : Run) :
Part002.run stripTags formatBytes streamAttachments outStreams r trace = Ok r' →
untouched (ing_message (run_state r)) (ing_message (run_state r')).
Proof.
revert r. induction trace as [|ev trace IH]; intros r H; simpl in H.
- injection H as <-. apply untouched_refl.
- bind_ok H. eapply untouched_trans; [eapply Part002_handle_untouched, E|apply IH, H].
Qed.

Lemma StoreJs_handle_untouched (r r' : Run) (ev : Event) :
StoreJs.handle formatBytes streamAttachments outStreams r ev = Ok r' →
untouched (ing_message (run_state r)) (ing_message (run_state r')).
Proof.
unfold StoreJs.handle. intros H.
destruct ev as [chunk| |headers now|data| |i chunk|i]; simpl in H.
- injection H as <-. apply untouched_refl.
- injection H as <-. apply untouched_set_size.
- bind_ok H. injection H as <-. simpl. eapply StoreJs_on_headers_untouched, E.
- bind_ok H. injection H as <-. simpl. unfold StoreJs.on_parser_data in E.
  destruct data as [datum|fields|].
  + eapply open_attachment_sink_untouched, E.
  + bind_ok E. injection E as <-. simpl. eapply StoreJs_on_text_untouched, E0.
  + injection E as <-. apply untouched_refl.
- injection H as <-. apply untouched_refl.
- injection H as <-. simpl. rewrite on_content_data_message. apply untouched_refl.
- injection H as <-. simpl. rewrite on_content_end_message. apply untouched_refl.
Qed.

Lemma StoreJs_run_untouched (trace : list Event) (r r' : Run) :
StoreJs.run formatBytes streamAttachments outStreams r trace = Ok r' →
untouched (ing_message (run_state r)) (ing_message (run_state r')).
Proof.
revert r. induction trace as [|ev trace IH]; intros r H; simpl in H.
- injection H as <-. apply untouched_refl.
- bind_ok H. eapply untouched_trans; [eapply StoreJs_handle_untouched, E|apply IH, H].
Qed.

Lemma start_untouched (envelope : Envelope) (id : string) (io : Io) (r : Run) :
parseMessage_start envelope id outStreams io = Ok r →
msg_id (ing_message (run_state r)) = id ∧
msg_read (ing_message (run_state r)) = None ∧
∀ key, prop (ing_message (run_state r)) key = prop (new_message envelope id) key.
Proof.
unfold parseMessage_start. destruct (emlStream outStreams) as [f|]; [|discriminate].
intros H. bind_ok H. destruct a as [o io']. injection H as <-. simpl.
destruct (obj_member o "emlStream"); repeat split.
Qed.

End Untouched.



(** ** The attachments of an ingested record *)


Section Part002_listed.
Variable stripTags : JsVal → list string → JsVal.
Variable formatBytes : Z → string.
Variable s : Store.
Variable id : string.





End Part002_listed.



(** ** Ingestion and lookup *)

Lemma emailById_pushed (s : Store) (m : Message) :
  (∀ x, x ∈ messages s → msg_id x ≠ msg_id m) →
  emailById (with_messages s (messages s ++ [m])) (msg_id m) = Ok m ∧
  ∀ id', id' ≠ msg_id m →
    emailById (with_messages s (messages s ++ [m])) id' = emailById s id'.
Proof.
  intros Hfresh. unfold emailById. simpl. split.
  - rewrite filter_app, filter_cons, decide_True by reflexivity.
    replace (filter (fun element => msg_id element = msg_id m) (messages s))
      with (@nil Message); [reflexivity|].
    symmetry. induction (messages s) as [|x l IH]; [reflexivity|].
    rewrite filter_cons, decide_False by (apply Hfresh; left).
    apply IH. intros y Hy. apply Hfresh. right. exact Hy.
  - intros id' Hne. rewrite filter_app, filter_cons, decide_False by congruence.
    rewrite filter_nil, app_nil_r. reflexivity.
Qed.

Lemma Part002_ingested_once
    (stripTags : JsVal → list string → JsVal) (formatBytes : Z → string)
    (s : Store) (id : string) (envelope : Envelope) (io : Io)
    (trace : list Event) (s' : Store) (r : Run) :
  Part002.handleNewMessage stripTags formatBytes s id envelope io trace = Ok (s', r) →
  Part002_obeys stripTags formatBytes s id envelope io trace = true →
  ParserEnd ∈ trace →
  s' = with_messages s (messages s ++ [ing_message (run_state r)]) ∧
  msg_id (ing_message (run_state r)) = id ∧
  msg_source (ing_message (run_state r)) = None.
Proof.
  intros H Ho Hend.
  assert (Hid : msg_id (ing_message (run_state r)) = id).
  { unfold Part002.handleNewMessage in H. cbv zeta in H. bind_ok H.
    injection H as _ <-. unfold Part002.parseMessage in E. bind_ok E.
    destruct (start_untouched _ _ _ _ _ E0) as (U1 & _).
    destruct (Part002_run_untouched _ _ _ _ _ _ _ E) as (U2 & _).
    congruence. }
  revert H Ho. unfold Part002.handleNewMessage, Part002.parseMessage, Part002_obeys.
  unfold Part002_outStreams. cbv zeta.
  intros H Ho. bind_ok H. injection H as <- <-. bind_ok E.
  pose proof (joined_run stripTags formatBytes s id trace [] a0 a
                (joined_start formatBytes s id envelope io a0 E0) Ho E) as J.
  pose proof (unwritten_run stripTags formatBytes s id trace a0 a
                (unwritten_start s id envelope io a0 E0) E) as [_ U2 _ _].
  simpl in J. destruct J as [_ _ _ J4 _ J6 _ _ _].
  destruct (J4 (J6 Hend)) as [_ Hone].
  split; [|split; [exact Hid|exact U2]].
  unfold register. rewrite Hone. reflexivity.
Qed.

(** X14.  A message that [handleNewMessage] of the later revision has
    taken to its end, under an id that no record has, is found again:
    the store holds one more record, the one that was built, [emailById]
    finds it under its id, and the lookups of the other ids are what they
    were. *)
Theorem Part002_ingested_is_found
    (stripTags : JsVal → list string → JsVal) (formatBytes : Z → string)
    (s : Store) (id : string) (envelope : Envelope) (io : Io)
    (trace : list Event) (s' : Store) (r : Run) :
  Part002.handleNewMessage stripTags formatBytes s id envelope io trace = Ok (s', r) →
  Part002_obeys stripTags formatBytes s id envelope io trace = true →
  ParserEnd ∈ trace →
  (∀ m, m ∈ messages s → msg_id m ≠ id) →
  allEmails s' = allEmails s ++ [ing_message (run_state r)] ∧
  emailById s' id = Ok (ing_message (run_state r)) ∧
  ∀ id', id' ≠ id → emailById s' id' = emailById s id'.
Proof.
  intros H Ho Hend Hfresh.
  destruct (Part002_ingested_once _ _ _ _ _ _ _ _ _ H Ho Hend) as (-> & Hid & _).
  split; [reflexivity|].
  rewrite <- Hid in Hfresh |- *.
  exact (emailById_pushed s (ing_message (run_state r)) Hfresh).
Qed.

Lemma Part002_ingested_is_found_witness :
  allEmails Ingestion.plain_Part002.1
  = allEmails Sample.empty_store ++ [ing_message (run_state Ingestion.plain_Part002.2)] ∧
  emailById Ingestion.plain_Part002.1 "m1"
  = Ok (ing_message (run_state Ingestion.plain_Part002.2)) ∧
  ∀ id', id' ≠ "m1" →
    emailById Ingestion.plain_Part002.1 id' = emailById Sample.empty_store id'.
Proof.
  apply (Part002_ingested_is_found Sample.stripTags Sample.formatBytes
           Sample.empty_store "m1" Sample.envelope Sample.fresh_io Trace.plain
           Ingestion.plain_Part002.1 Ingestion.plain_Part002.2).
  - vm_compute. reflexivity.
  - vm_compute. reflexivity.
  - unfold Trace.plain. repeat constructor.
  - intros m Hm. inversion Hm.
Defined.

(** X15.  The raw message of such a record cannot be read back: the
    record has no [source], so [emailStreamById] calls
    [fs.createReadStream(undefined)], which throws; and so do the
    download and, with outgoing mail configured, the relay by id. *)
Theorem Part002_ingested_has_no_raw_stream
    (stripTags : JsVal → list string → JsVal) (formatBytes : Z → string)
    (s : Store) (id : string) (envelope : Envelope) (io : Io)
    (trace : list Event) (s' : Store) (r : Run)
    (isAutoRelay : Server.Arg) (done : option string) :
  Part002.handleNewMessage stripTags formatBytes s id envelope io trace = Ok (s', r) →
  Part002_obeys stripTags formatBytes s id envelope io trace = true →
  ParserEnd ∈ trace →
  (∀ m, m ∈ messages s → msg_id m ≠ id) →
  emailStreamById s' id = Thrown no_path ∧
  getRawEmail s' id = Thrown no_path ∧
  Server.getEmailEml None s' id = Thrown no_path ∧
  Server.relayMail true s' id isAutoRelay done = Server.Threw no_path.
Proof.
  intros H Ho Hend Hfresh.
  destruct (Part002_ingested_once _ _ _ _ _ _ _ _ _ H Ho Hend) as (-> & Hid & Hsrc).
  rewrite <- Hid in Hfresh.
  destruct (emailById_pushed s (ing_message (run_state r)) Hfresh) as [Hfound _].
  rewrite Hid in Hfound.
  assert (Hraw : emailStreamById
                   (with_messages s (messages s ++ [ing_message (run_state r)])) id
                 = Thrown no_path).
  { unfold emailStreamById. rewrite Hfound, Hsrc. reflexivity. }
  split; [exact Hraw|]. split; [exact Hraw|]. split.
  - unfold Server.getEmailEml. rewrite Hraw. reflexivity.
  - unfold Server.relayMail. simpl.
    destruct (Server.optional isAutoRelay done) as [flag callback].
    unfold getEmail. rewrite Hfound.
    unfold Server.relayMail_object. simpl.
    destruct (Server.optional _ None) as [flag' callback'].
    unfold getRawEmail. rewrite Hid, Hraw. reflexivity.
Qed.

Lemma Part002_ingested_has_no_raw_stream_witness :
  emailStreamById Ingestion.plain_Part002.1 "m1" = Thrown no_path ∧
  getRawEmail Ingestion.plain_Part002.1 "m1" = Thrown no_path ∧
  Server.getEmailEml None Ingestion.plain_Part002.1 "m1" = Thrown no_path ∧
  Server.relayMail true Ingestion.plain_Part002.1 "m1" (Server.AFunction "done") None
  = Server.Threw no_path.
Proof.
  apply (Part002_ingested_has_no_raw_stream Sample.stripTags Sample.formatBytes
           Sample.empty_store "m1" Sample.envelope Sample.fresh_io Trace.plain
           Ingestion.plain_Part002.1 Ingestion.plain_Part002.2).
  - vm_compute. reflexivity.
  - vm_compute. reflexivity.
  - unfold Trace.plain. repeat constructor.
  - intros m Hm. inversion Hm.
Defined.

(** ** The bytes of an attachment *)




Section Part002_bytes.
Variable stripTags : JsVal → list string → JsVal.
Variable formatBytes : Z → string.
Variable s : Store.
Variable id : string.

Let dir : Path := path_join (mailDir s) id.





End Part002_bytes.




(** On the message with an image: the three bytes of the image are in its
    file, and the attachment stream answers with a stream on that file. *)
Example Part002_image_bytes :
  attachment_data Trace.with_image = [Sample.image_datum] ∧
  content_bytes 0 Trace.with_image = "PNG" ∧
  files (disk (ing_io (run_state Ingestion.image_Part002.2)))
    !! path_join (path_join Sample.root "m1") "logo.png" = Some "PNG" ∧
  Part002.emailAttachmentStreamById Ingestion.image_Part002.1 "m1" (VStr "logo.png")
  = Ok (VStr "image/png", ReadStreamOf (path_join (path_join Sample.root "m1") "logo.png")).
Proof. conjuncts; vm_compute; reflexivity. Qed.

(** ** [src/lib/store.js]: completion, and attachments *)

Lemma StoreJs_no_attachment (s : Store) (attachment : Attachment) (st : Ingest) :
  open_attachment_sink (attachmentWriteStream (Server.outStreams s)) true attachment st
  = Thrown (TypeError "outStreams member is not a function").
Proof. reflexivity. Qed.

Section StoreJs_drained.
Variable formatBytes : Z → string.
Variable s : Store.

Let handle := StoreJs.handle formatBytes true (Server.outStreams s).

Lemma drained_step (done : list Event) (r r' : Run) (ev : Event) :
Drained formatBytes done r →
enabled (run_state r) ev = true →
handle r ev = Ok r' →
Drained formatBytes (done ++ [ev]) r'.
Proof.
intros [D1 D2 D3 D4 D5] Hen H. unfold handle, StoreJs.handle in H.
assert (Hquiet : ∀ st', ing_size st' = ing_size (run_state r) →
                 ing_in_ended st' = ing_in_ended (run_state r) →
                 inbound_bytes [ev] = 0 → ev ≠ InEnd →
                 Drained formatBytes (done ++ [ev]) (with_state r st')).
{ intros st' Hs Hi Hb Hne.
  constructor; simpl; rewrite ?inbound_bytes_app, ?Hb, ?Z.add_0_r, ?Hs, ?Hi; auto.
  intros Hin. apply elem_of_app in Hin as [Hin|Hin]; [auto|].
  apply list_elem_of_singleton in Hin. congruence. }
destruct ev as [chunk| |headers now|data| |i chunk|i]; simpl in H.
- (* InData *)
  injection H as <-. simpl in Hen. apply negb_true_iff in Hen.
  constructor; simpl; rewrite ?inbound_bytes_app; simpl; auto.
  + rewrite D1. lia.
  + intros Hin. apply elem_of_app in Hin as [Hin|Hin]; [rewrite D4 in Hen by exact Hin; discriminate|].
    apply list_elem_of_singleton in Hin. discriminate.
  + intros c Hc. rewrite (D2 Hen) in Hc. inversion Hc.
- (* InEnd *)
  injection H as <-. simpl in Hen. apply negb_true_iff in Hen.
  unfold StoreJs.on_in_end.
  constructor; simpl; rewrite ?inbound_bytes_app; simpl; rewrite ?Z.add_0_r; auto.
  + discriminate.
  + intros _. rewrite (D2 Hen). reflexivity.
  + intros c Hc. rewrite (D2 Hen) in Hc. simpl in Hc.
    apply list_elem_of_singleton in Hc. subst c. simpl. rewrite D1. auto.
- (* ParserHeaders *)
  bind_ok H. injection H as <-. apply Hquiet; auto; discriminate.
- (* ParserData *)
  bind_ok H. injection H as <-. unfold StoreJs.on_parser_data in E.
  destruct data as [datum|fields|].
  + rewrite StoreJs_no_attachment in E. discriminate.
  + bind_ok E. injection E as <-. apply Hquiet; auto; discriminate.
  + injection E as <-. apply Hquiet; auto; discriminate.
- (* ParserEnd *)
  injection H as <-. apply Hquiet; auto; discriminate.
- (* ContentData *)
  injection H as <-. apply Hquiet; auto; try discriminate;
    unfold on_content_data; destruct (ing_contents (run_state r) !! i) as [[w|]|]; reflexivity.
- (* ContentEnd *)
  injection H as <-. apply Hquiet; auto; try discriminate;
    unfold on_content_end; destruct (ing_contents (run_state r) !! i) as [[w|]|]; reflexivity.
Qed.

Lemma drained_run (trace done : list Event) (r r' : Run) :
Drained formatBytes done r →
obeys handle r trace = true →
StoreJs.run formatBytes true (Server.outStreams s) r trace = Ok r' →
Drained formatBytes (done ++ trace) r'.
Proof.
revert done r. induction trace as [|ev trace IH]; intros done r D Ho H; simpl in *.
- injection H as <-. rewrite app_nil_r. exact D.
- apply andb_true_iff in Ho as [He Ho].
  fold handle in H. destruct (handle r ev) as [r1| |] eqn:E; try discriminate.
  simpl in H. replace (done ++ ev :: trace) with ((done ++ [ev]) ++ trace)
    by (rewrite <- app_assoc; reflexivity).
  apply (IH _ r1); [eapply drained_step; eauto|exact Ho|exact H].
Qed.

Lemma drained_start (envelope : Envelope) (id : string) (io : Io) (r : Run) :
parseMessage_start envelope id (Server.outStreams s) io = Ok r →
Drained formatBytes [] r ∧ msg_source (ing_message (run_state r)) = None.
Proof.
unfold parseMessage_start, Server.outStreams, StoreJs.emlWriteStream. simpl.
intros H. injection H as <-. split; [|reflexivity].
constructor; simpl; auto; try discriminate.
- intros Hin. inversion Hin.
- intros c Hin. inversion Hin.
Qed.

End StoreJs_drained.

Lemma StoreJs_handleNewMessage_outStreams
    (formatBytes : Z → string) (s : Store) (id : string) (envelope : Envelope)
    (io : Io) (trace : list Event) :
  StoreJs.handleNewMessage formatBytes s id envelope io trace
  = (r ← StoreJs.parseMessage formatBytes true (Server.outStreams s) envelope id io trace;
     Ok (register s r, r)).
Proof. reflexivity. Qed.

(** X17.  [src/lib/store.js], under the contracts of the streams: the
    callback of [handleNewMessage] runs at most once, and once when the
    inbound stream has ended; the record it gets, which is then in the
    store, carries as [size] the number of bytes the stream delivered,
    and has no [source]. *)
Theorem StoreJs_completes_once_with_size
    (formatBytes : Z → string) (s : Store) (id : string) (envelope : Envelope)
    (io : Io) (trace : list Event) (s' : Store) (r : Run) :
  StoreJs.handleNewMessage formatBytes s id envelope io trace = Ok (s', r) →
  StoreJs_obeys formatBytes s id envelope io trace = true →
  (List.length (run_completions r) ≤ 1)%nat ∧
  (InEnd ∈ trace →
     List.length (run_completions r) = 1%nat ∧
     allEmails s' = allEmails s ++ [ing_message (run_state r)]) ∧
  msg_source (ing_message (run_state r)) = None ∧
  ∀ c, c ∈ run_completions r →
    ing_in_ended c = true ∧
    msg_size (ing_message c) = Some (inbound_bytes trace) ∧
    msg_sizeHuman (ing_message c) = Some (formatBytes (inbound_bytes trace)).
Proof.
  rewrite StoreJs_handleNewMessage_outStreams. unfold StoreJs.parseMessage, StoreJs_obeys.
  intros H Ho. bind_ok H. injection H as <- <-. bind_ok E.
  destruct (drained_start formatBytes s envelope id io a0 E0) as [D0 Hsrc].
  pose proof (drained_run formatBytes s trace [] a0 a D0 Ho E) as [D1 D2 D3 D4 D5].
  simpl in *.
  assert (Hone : InEnd ∈ trace → List.length (run_completions a) = 1%nat)
    by (intros Hin; apply D3, D4, Hin).
  conjuncts.
  - destruct (ing_in_ended (run_state a)) eqn:Ee.
    + rewrite (D3 eq_refl). lia.
    + rewrite (D2 eq_refl). simpl. lia.
  - intros Hin. split; [exact (Hone Hin)|].
    unfold allEmails, register. simpl. rewrite (Hone Hin). reflexivity.
  - destruct (StoreJs_run_untouched _ _ _ _ _ _ E) as (_ & _ & Hs & _). congruence.
  - exact D5.
Qed.

Lemma StoreJs_completes_once_with_size_witness :
  let s' := Ingestion.plain_StoreJs.1 in
  let r := Ingestion.plain_StoreJs.2 in
  (List.length (run_completions r) ≤ 1)%nat ∧
  (InEnd ∈ Trace.plain →
     List.length (run_completions r) = 1%nat ∧
     allEmails s' = allEmails Sample.empty_store ++ [ing_message (run_state r)]) ∧
  msg_source (ing_message (run_state r)) = None ∧
  ∀ c, c ∈ run_completions r →
    ing_in_ended c = true ∧
    msg_size (ing_message c) = Some (inbound_bytes Trace.plain) ∧
    msg_sizeHuman (ing_message c) = Some (Sample.formatBytes (inbound_bytes Trace.plain)).
Proof.
  apply (StoreJs_completes_once_with_size Sample.formatBytes Sample.empty_store "m1"
           Sample.envelope Sample.fresh_io Trace.plain
           Ingestion.plain_StoreJs.1 Ingestion.plain_StoreJs.2).
  - vm_compute. reflexivity.
  - vm_compute. reflexivity.
Defined.

Lemma bind_Err {A B : Type} (x : Result A) (k : A → Result B) (e : JsError) :
  x ≫= k = Err e → x = Err e ∨ ∃ a, x = Ok a ∧ k a = Err e.
Proof.
  destruct x as [a|e'|e']; simpl; intros H.
  - right. exists a. auto.
  - left. congruence.
  - discriminate.
Qed.

Lemma get_prop_not_Err (src : Src) (key : string) (e : JsError) :
  get_prop src key ≠ Err e.
Proof. destruct src as [entries|props|[]]; discriminate. Qed.







(** ** The data stream of the SMTP server *)

Lemma StoreJs_handle_completions
    (formatBytes : Z → string) (streamAttachments : bool) (outStreams : OutStreams)
    (r r' : Run) (ev : Event) :
  StoreJs.handle formatBytes streamAttachments outStreams r ev = Ok r' →
  (ev = InEnd ∧ run_completions r' = run_completions r ++ [run_state r']) ∨
  (ev ≠ InEnd ∧ run_completions r' = run_completions r).
Proof.
  unfold StoreJs.handle. intros H.
  destruct ev as [chunk| |headers now|data| |i chunk|i]; simpl in H.
  - injection H as <-. right. split; [discriminate|reflexivity].
  - injection H as <-. left. split; reflexivity.
  - bind_ok H. injection H as <-. right. split; [discriminate|reflexivity].
  - bind_ok H. injection H as <-. right. split; [discriminate|reflexivity].
  - injection H as <-. right. split; [discriminate|reflexivity].
  - injection H as <-. right. split; [discriminate|reflexivity].
  - injection H as <-. right. split; [discriminate|reflexivity].
Qed.

Section Serving_StoreJs.
Variable formatBytes : Z → string.
Variable outgoing : Server.Outgoing.
Variable s : Store.
Variable id : string.

Let handle := StoreJs.handle formatBytes true (Server.outStreams s).

Let acknowledged (sv : Server.Served) (r : Run) : Prop :=
msg_id (ing_message (run_state r)) = id ∧
Server.pushed sv = List.length (run_completions r) ∧
Server.replies sv = repeat ("Message queued as " +:+ id) (Server.pushed sv) ∧
List.length (Server.emitted sv) = Server.pushed sv ∧
∀ m, m ∈ Server.emitted sv → msg_id m = id.

Lemma on_message_Ok (message : Message) (sv sv' : Server.Served) :
Server.on_message outgoing s message sv = Ok sv' →
Server.pushed sv' = S (Server.pushed sv) ∧
Server.emitted sv' = Server.emitted sv ++ [message] ∧
Server.replies sv' = Server.replies sv ++ ["Message queued as " +:+ msg_id message].
Proof.
unfold Server.on_message, Server.onNewMessageReceived. intros H.
bind_ok H. bind_ok E. injection E as <-. injection H as <-. simpl. auto.
Qed.

Lemma serve_acknowledged (trace : list Event) (sv sv' : Server.Served) (r r' : Run) :
acknowledged sv r →
Server.serve handle outgoing s sv r trace = Ok (sv', r') →
StoreJs.run formatBytes true (Server.outStreams s) r trace = Ok r' ∧
acknowledged sv' r'.
Proof.
revert sv r. induction trace as [|ev trace IH]; intros sv r A H; simpl in H.
- injection H as <- <-. split; [reflexivity|exact A].
- bind_ok H. bind_ok H. simpl. fold handle. rewrite E. simpl.
  apply (IH a0 a); [|exact H].
  destruct A as (A1 & A2 & A3 & A4 & A5).
  destruct (StoreJs_handle_untouched _ _ _ _ _ _ E) as (Hid & _).
  destruct (StoreJs_handle_completions _ _ _ _ _ _ E) as [[_ Hc]|[_ Hc]];
    rewrite Hc in E0.
  + rewrite length_app in E0. simpl in E0.
    replace (_ <? _)%nat with true in E0 by (symmetry; apply Nat.ltb_lt; lia).
    apply on_message_Ok in E0 as (P1 & P2 & P3).
    unfold acknowledged. rewrite Hc, length_app, P1, P2, P3, length_app. simpl.
    rewrite Hid, A1, A3, A2, A4.
    conjuncts; try reflexivity; try lia.
    * symmetry. apply repeat_cons.
    * intros m Hm. apply elem_of_app in Hm as [Hm|Hm]; [auto|].
      apply list_elem_of_singleton in Hm. subst m. congruence.
  + rewrite Nat.ltb_irrefl in E0. injection E0 as <-.
    unfold acknowledged. rewrite Hc, Hid. auto.
Qed.

End Serving_StoreJs.

(** X19.  Every message that [handleDataStream] takes through the store
    is answered ['Message queued as <id>'], [id] being the id it made
    for the message and the id of the record in the store; the SMTP
    callback gets no other answer, and never an error.  There is one
    answer, one ['new'] event and one record in the store for each
    completion. *)
Theorem handleDataStream_acknowledges
    (formatBytes : Z → string) (outgoing : Server.Outgoing) (s : Store) (id : string)
    (session : Server.Session) (io : Io) (trace : list Event)
    (sv : Server.Served) (r : Run) :
  Server.handleDataStream formatBytes outgoing s id session io trace = Ok (sv, r) →
  StoreJs.handleNewMessage formatBytes s id (Server.envelope_of session) io trace
  = Ok (Server.index s (ing_message (run_state r)) sv, r) ∧
  Server.replies sv
  = repeat ("Message queued as " +:+ id) (List.length (run_completions r)) ∧
  List.length (Server.emitted sv) = List.length (run_completions r) ∧
  (∀ m, m ∈ Server.emitted sv → msg_id m = id) ∧
  msg_id (ing_message (run_state r)) = id.
Proof.
  unfold Server.handleDataStream. intros H. bind_ok H.
  destruct (start_untouched _ _ _ _ _ E) as (Hid & _).
  apply (serve_acknowledged formatBytes outgoing s id) in H as [Hrun A].
  - destruct A as (A1 & A2 & A3 & A4 & A5).
    rewrite StoreJs_handleNewMessage_outStreams. unfold StoreJs.parseMessage.
    rewrite E. simpl. unfold mbind, Result_bind. simpl.
    rewrite Hrun. simpl. unfold Server.index, register. rewrite A2.
    conjuncts; try reflexivity; try congruence.
    intros m Hm. apply A5, Hm.
  - split; [exact Hid|].
    unfold parseMessage_start in E. simpl in E. injection E as <-. simpl.
    conjuncts; try reflexivity. intros m Hm. inversion Hm.
Qed.

Lemma handleDataStream_acknowledges_witness :
  let session := {| Server.mailFrom := VObj "mailFrom"; Server.rcptTo := VObj "rcptTo";
                    Server.hostNameAppearsAs := VStr "client.local";
                    Server.remoteAddress := VStr "127.0.0.1" |} in
  let outgoing := {| Server.isEnabled := false; Server.isAutoRelayEnabled := false |} in
  let served := ok_or ({| Server.pushed := 0; Server.emitted := [];
                          Server.relayed := []; Server.replies := [] |},
                       Ingestion.blank_pair.2)
                  (Server.handleDataStream Sample.formatBytes outgoing Sample.empty_store
                     "m1" session Sample.fresh_io Trace.plain) in
  StoreJs.handleNewMessage Sample.formatBytes Sample.empty_store "m1"
    (Server.envelope_of session) Sample.fresh_io Trace.plain
  = Ok (Server.index Sample.empty_store (ing_message (run_state served.2)) served.1,
        served.2) ∧
  Server.replies served.1
  = repeat ("Message queued as " +:+ "m1") (List.length (run_completions served.2)) ∧
  List.length (Server.emitted served.1) = List.length (run_completions served.2) ∧
  (∀ m, m ∈ Server.emitted served.1 → msg_id m = "m1") ∧
  msg_id (ing_message (run_state served.2)) = "m1".
Proof.
  intros session outgoing served.
  apply (handleDataStream_acknowledges Sample.formatBytes outgoing Sample.empty_store
           "m1" session Sample.fresh_io Trace.plain served.1 served.2).
  vm_compute. reflexivity.
Defined.

Lemma serve_app
    (handle : Run → Event → Result Run) (outgoing : Server.Outgoing) (s : Store)
    (a b : list Event) (sv : Server.Served) (r : Run) :
  Server.serve handle outgoing s sv r (a ++ b)
  = (p ← Server.serve handle outgoing s sv r a;
     Server.serve handle outgoing s p.1 p.2 b).
Proof.
  revert sv r. induction a as [|ev a IH]; intros sv r; simpl; [reflexivity|].
  destruct (handle r ev) as [r1|e|e]; simpl; try reflexivity.
  destruct (if (_ <? _)%nat then _ else _) as [sv1|e|e]; simpl; try reflexivity.
  apply IH.
Qed.

Lemma serve_before_end
    (formatBytes : Z → string) (outgoing : Server.Outgoing) (s : Store)
    (before : list Event) (sv : Server.Served) (r r1 : Run) :
  InEnd ∉ before →
  StoreJs.run formatBytes true (Server.outStreams s) r before = Ok r1 →
  Server.serve (StoreJs.handle formatBytes true (Server.outStreams s)) outgoing s
    sv r before = Ok (sv, r1).
Proof.
  revert r. induction before as [|ev before IH]; intros r Hnin H; simpl in *.
  - injection H as <-. reflexivity.
  - bind_ok H. simpl.
    destruct (StoreJs_handle_completions _ _ _ _ _ _ E) as [[-> _]|[_ Hc]].
    + exfalso. apply Hnin. left.
    + rewrite Hc, Nat.ltb_irrefl. simpl. apply IH; [|exact H].
      intros Hin. apply Hnin. right. exact Hin.
Qed.

(** X20.  With the automatic relay on and outgoing mail configured, no
    message under a new id gets its answer: at the end of the inbound
    stream the record is pushed and handed to [relayMail], which asks
    the store for the raw stream of a record that has no [source], and
    [fs.createReadStream(undefined)] throws, before the ['new'] event
    and before the answer to the SMTP server. *)
Theorem automatic_relay_throws
    (formatBytes : Z → string) (outgoing : Server.Outgoing) (s : Store) (id : string)
    (session : Server.Session) (io : Io) (before after : list Event) (r1 : Run) :
  Server.isAutoRelayEnabled outgoing = true →
  Server.isEnabled outgoing = true →
  (∀ m, m ∈ messages s → msg_id m ≠ id) →
  InEnd ∉ before →
  StoreJs.parseMessage formatBytes true (Server.outStreams s)
    (Server.envelope_of session) id io before = Ok r1 →
  Server.handleDataStream formatBytes outgoing s id session io (before ++ InEnd :: after)
  = Thrown no_path.
Proof.
  intros Hauto Hen Hfresh Hnin H.
  unfold StoreJs.parseMessage in H. bind_ok H.
  unfold Server.handleDataStream. rewrite E. simpl.
  rewrite serve_app, (serve_before_end _ _ _ _ _ _ r1 Hnin H). simpl.
  assert (Hm : msg_id (ing_message (run_state r1)) = id ∧
               msg_source (ing_message (run_state r1)) = None).
  { destruct (start_untouched _ _ _ _ _ E) as (Hid & _).
    destruct (StoreJs_run_untouched _ _ _ _ _ _ H) as (Hid' & _ & Hs & _).
    destruct (drained_start formatBytes s _ _ _ _ E) as [_ Hsrc].
    split; congruence. }
  destruct Hm as [Hid Hsrc].
  rewrite length_app. simpl.
  replace (_ <? _)%nat with true by (symmetry; apply Nat.ltb_lt; lia).
  unfold Server.on_message, Server.onNewMessageReceived. rewrite Hauto, Hen. simpl.
  unfold Server.relayMail_object. simpl. unfold getRawEmail, emailStreamById.
  unfold Server.index. simpl.
  set (m := set_size _ _ _).
  assert (Hf : emailById (with_messages s (messages s ++ [m]))
                 (msg_id (ing_message (run_state r1))) = Ok m).
  { change (msg_id (ing_message (run_state r1))) with (msg_id m).
    apply (emailById_pushed s m). intros x Hx.
    change (msg_id m) with (msg_id (ing_message (run_state r1))).
    rewrite Hid. apply Hfresh, Hx. }
  rewrite Hf. change (msg_source m) with (msg_source (ing_message (run_state r1))).
  rewrite Hsrc. reflexivity.
Qed.

Lemma automatic_relay_throws_witness :
  let session := {| Server.mailFrom := VObj "mailFrom"; Server.rcptTo := VObj "rcptTo";
                    Server.hostNameAppearsAs := VStr "client.local";
                    Server.remoteAddress := VStr "127.0.0.1" |} in
  Server.handleDataStream Sample.formatBytes
    {| Server.isEnabled := true; Server.isAutoRelayEnabled := true |}
    Sample.empty_store "m1" session Sample.fresh_io
    ([InData "Hi"] ++ InEnd :: [ParserHeaders (SrcMap {[ "subject" := VStr "Hi" ]}) 9; ParserEnd])
  = Thrown no_path.
Proof.
  intros session.
  apply (automatic_relay_throws Sample.formatBytes
           {| Server.isEnabled := true; Server.isAutoRelayEnabled := true |}
           Sample.empty_store "m1" session Sample.fresh_io [InData "Hi"]
           [ParserHeaders (SrcMap {[ "subject" := VStr "Hi" ]}) 9; ParserEnd]
           (ok_or Ingestion.blank_pair.2
              (StoreJs.parseMessage Sample.formatBytes true
                 (Server.outStreams Sample.empty_store)
                 (Server.envelope_of session) "m1" Sample.fresh_io [InData "Hi"]))).
  - reflexivity.
  - reflexivity.
  - intros m Hm. inversion Hm.
  - intros Hin. apply list_elem_of_singleton in Hin. discriminate.
  - vm_compute. reflexivity.
Defined.

(** ** The two revisions of [copy] *)

(** X24.  The later revision of [copy] does what the earlier one does
    where the earlier one works: for a plain object without a [has]
    member and a default that is no function the two give the same
    record, and so do the two ['headers'] listeners. *)
Theorem copy_revisions_agree_on_objects
    (fields : gmap string JsVal) (k dk : string) (m : Message) (d : JsVal) (now : Z) :
  truthy (default VUndef (fields !! "has")) = false →
  Part002.copy (SrcObj fields) k m dk (Part002.DefaultVal d)
  = StoreJs.copy (SrcObj fields) k m dk d ∧
  Part002.on_headers (SrcObj fields) now m = StoreJs.on_headers (SrcObj fields) now m.
Proof.
  intros Hhas.
  assert (Hcopy : ∀ k dk m d,
            Part002.copy (SrcObj fields) k m dk (Part002.DefaultVal d)
            = StoreJs.copy (SrcObj fields) k m dk d).
  { intros k0 dk0 m0 d0. rewrite (Part002_copy_obj _ _ _ _ _ Hhas), StoreJs_copy_obj.
    reflexivity. }
  split; [apply Hcopy|].
  unfold Part002.on_headers, StoreJs.on_headers.
  destruct (get_prop (SrcObj fields) "sender") as [sender|e|e]; try reflexivity.
  simpl. unfold mbind, Result_bind.
  repeat (rewrite Hcopy;
          match goal with
          | |- Js.bind ?x _ = Js.bind ?x _ =>
              destruct x as [?m|?e|?e]; try reflexivity; simpl
          end).
  apply Hcopy.
Qed.

Lemma copy_revisions_agree_on_objects_witness :
  let fields : gmap string JsVal := {[ "subject" := VStr "Hi"; "sender" := VStr "list@example.org" ]} in
  Part002.copy (SrcObj fields) "subject" (Sample.record "m1" []) "subject"
    (Part002.DefaultVal VUndef)
  = StoreJs.copy (SrcObj fields) "subject" (Sample.record "m1" []) "subject" VUndef ∧
  Part002.on_headers (SrcObj fields) 9 (Sample.record "m1" [])
  = StoreJs.on_headers (SrcObj fields) 9 (Sample.record "m1" []).
Proof.
  intros fields.
  apply (copy_revisions_agree_on_objects fields "subject" "subject"
           (Sample.record "m1" []) VUndef 9).
  reflexivity.
Defined.

(** ** The text listener on the sample datum *)

Lemma Part002_on_text_sets_present_fields_witness :
  ∃ m', Part002.on_text Sample.stripTags Sample.text_fields (Sample.record "m1" []) = Ok m' ∧
    let field k := default VUndef (Sample.text_fields !! k) in
    prop m' "text"
      = (if truthy (field "text") then field "text"
         else prop (Sample.record "m1" []) "text") ∧
    prop m' "html"
      = (if truthy (field "html") then Sample.stripTags (field "html") ["script"]
         else prop (Sample.record "m1" []) "html") ∧
    prop m' "textAsHtml"
      = (if truthy (field "textAsHtml") then field "textAsHtml"
         else prop (Sample.record "m1" []) "textAsHtml") ∧
    (∀ k, k ≠ "text" → k ≠ "html" → k ≠ "textAsHtml" →
          prop m' k = prop (Sample.record "m1" []) k) ∧
    msg_id m' = msg_id (Sample.record "m1" []) ∧
    msg_attachments m' = msg_attachments (Sample.record "m1" []) ∧
    msg_source m' = msg_source (Sample.record "m1" []) ∧
    msg_size m' = msg_size (Sample.record "m1" []) ∧
    msg_read m' = msg_read (Sample.record "m1" []).
Proof.
  apply (Part002_on_text_sets_present_fields Sample.stripTags Sample.text_fields
           (Sample.record "m1" [])).
  reflexivity.
Defined.

(** ** What an ingestion touches on the disk *)



Section Part002_confined.
Variable stripTags : JsVal → list string → JsVal.
Variable formatBytes : Z → string.
Variable s : Store.
Variable id : string.
Variable io0 : Io.

Let dir : Path := path_join (mailDir s) id.
Let raw : Path := path_join (mailDir s) (id +:+ ".eml").





End Part002_confined.





Section StoreJs_one_file.
Variable formatBytes : Z → string.
Variable s : Store.

Let idle (io1 : Io) (st : Ingest) : Prop :=
ing_emlStream st = None ∧ ing_contents st = [] ∧ ing_io st = io1.

Lemma idle_step (io1 : Io) (r r' : Run) (ev : Event) :
idle io1 (run_state r) →
StoreJs.handle formatBytes true (Server.outStreams s) r ev = Ok r' →
idle io1 (run_state r').
Proof.
intros (I1 & I2 & I3) H. unfold StoreJs.handle in H.
destruct ev as [chunk| |headers now|data| |i chunk|i]; simpl in H.
- injection H as <-. unfold idle. simpl. rewrite I1. auto.
- injection H as <-. unfold idle. simpl. rewrite I1. auto.
- bind_ok H. injection H as <-. unfold idle. auto.
- bind_ok H. injection H as <-. unfold StoreJs.on_parser_data in E.
  destruct data as [datum|fields|].
  + rewrite StoreJs_no_attachment in E. discriminate.
  + bind_ok E. injection E as <-. unfold idle. auto.
  + injection E as <-. unfold idle. auto.
- injection H as <-. unfold idle. auto.
- injection H as <-. unfold idle, on_content_data. simpl. rewrite I2. auto.
- injection H as <-. unfold idle, on_content_end. simpl. rewrite I2. auto.
Qed.

Lemma idle_run (io1 : Io) (trace : list Event) (r r' : Run) :
idle io1 (run_state r) →
StoreJs.run formatBytes true (Server.outStreams s) r trace = Ok r' →
idle io1 (run_state r').
Proof.
revert r. induction trace as [|ev trace IH]; intros r I H; simpl in H.
- injection H as <-. exact I.
- bind_ok H. eapply IH; [|exact H]. eapply idle_step; eauto.
Qed.

End StoreJs_one_file.

(** X26.  All that an ingestion of [src/lib/store.js] does to the file
    system, whatever the message and its id: the file [undefined.eml] of
    the root directory is created, or emptied if it was there, and its
    stream is left open.  No byte is written to it or to any other file. *)
Theorem StoreJs_ingestion_one_empty_file
    (formatBytes : Z → string) (s : Store) (id : string) (envelope : Envelope)
    (io : Io) (trace : list Event) (s' : Store) (r : Run) :
  StoreJs.handleNewMessage formatBytes s id envelope io trace = Ok (s', r) →
  let raw := path_join (mailDir s) "undefined.eml" in
  ing_io (run_state r)
  = {| disk := {| files := <[raw := ""]> (files (disk io)); dirs := dirs (disk io) |};
       sinks := sinks io ++ [{| sink_path := raw; sink_ended := false |}] |}.
Proof.
  rewrite StoreJs_handleNewMessage_outStreams. unfold StoreJs.parseMessage.
  intros H. bind_ok H. injection H as _ <-. bind_ok E.
  unfold parseMessage_start, Server.outStreams, StoreJs.emlWriteStream in E0.
  simpl in E0. injection E0 as <-.
  eapply (idle_run formatBytes s _ trace) in E as (_ & _ & Hio).
  - exact Hio.
  - repeat split.
Qed.

Lemma StoreJs_ingestion_one_empty_file_witness :
  let raw := path_join (mailDir Sample.empty_store) "undefined.eml" in
  ing_io (run_state Ingestion.plain_StoreJs.2)
  = {| disk := {| files := <[raw := ""]> (files (disk Sample.fresh_io));
                  dirs := dirs (disk Sample.fresh_io) |};
       sinks := sinks Sample.fresh_io ++ [{| sink_path := raw; sink_ended := false |}] |}.
Proof.
  apply (StoreJs_ingestion_one_empty_file Sample.formatBytes Sample.empty_store "m1"
           Sample.envelope Sample.fresh_io Trace.plain
           Ingestion.plain_StoreJs.1 Ingestion.plain_StoreJs.2).
  vm_compute. reflexivity.
Defined.

(** ** An attachment without a file name *)

Lemma has_entry_not_Err (src : Src) (key : string) (e : JsError) :
  has_entry src key ≠ Err e.
Proof.
  destruct src as [entries|props|[]]; simpl; try discriminate.
  destruct (truthy _); discriminate.
Qed.

Lemma Part002_copy_not_Err (src : Src) (k dk : string) (m : Message)
    (dv : Part002.DefaultValue) (e : JsError) :
  Part002.copy src k m dk dv ≠ Err e.
Proof.
  unfold Part002.copy. intros H. apply bind_Err in H as [H|(in_map & _ & H)].
  - exact (has_entry_not_Err _ _ _ H).
  - destruct in_map; [discriminate|].
    apply bind_Err in H as [H|(v & _ & H)].
    + exact (get_prop_not_Err _ _ _ H).
    + destruct (truthy v); [discriminate|]. destruct (_ && _); discriminate.
Qed.

Ltac no_Err_later H :=
  first [ exact (get_prop_not_Err _ _ _ H)
        | exact (Part002_copy_not_Err _ _ _ _ _ _ H)
        | apply bind_Err in H as [H|(? & _ & H)]; no_Err_later H ].

Lemma Part002_handle_not_Err
    (stripTags : JsVal → list string → JsVal) (formatBytes : Z → string)
    (s : Store) (id : string) (r : Run) (ev : Event) (e : JsError) :
  Part002.handle stripTags formatBytes true (Part002_outStreams s id) r ev ≠ Err e.
Proof.
  unfold Part002.handle. intros H.
  destruct ev as [chunk| |headers now|data| |i chunk|i]; cbv beta iota zeta in H;
    try discriminate.
  - apply bind_Err in H as [H|(? & _ & H)]; [|discriminate].
    unfold Part002.on_headers in H. no_Err_later H.
  - apply bind_Err in H as [H|(? & _ & H)]; [|discriminate].
    destruct data as [datum|fields|]; cbv beta iota zeta in H; try discriminate.
    + unfold Part002.on_parser_data, open_attachment_sink in H. simpl in H.
      unfold Part002.attachmentStream_provider in H.
      destruct (att_generatedFileName _); simpl in H; discriminate.
    + unfold Part002.on_parser_data in H.
      apply bind_Err in H as [H|(? & _ & H)]; [|discriminate].
      unfold Part002.on_text in H. no_Err_later H.
Qed.

Lemma Part002_unnamed_throws
    (stripTags : JsVal → list string → JsVal) (formatBytes : Z → string)
    (s : Store) (id : string) (a : AttachmentDatum) (trace : list Event) (r : Run) :
  ParserData (DAttachment a) ∈ trace →
  (∀ name, d_filename a ≠ VStr name) →
  ∃ e, Part002.run stripTags formatBytes true (Part002_outStreams s id) r trace = Thrown e.
Proof.
  intros Hin Hname. revert r.
  induction trace as [|ev trace IH]; intros r; [inversion Hin|].
  simpl. apply elem_of_cons in Hin as [<-|Hin].
  - simpl. unfold open_attachment_sink. simpl.
    unfold Part002.attachmentStream_provider. simpl.
    destruct (d_filename a) as [| | | |name| |] eqn:En;
      try (eexists; reflexivity).
    destruct (Hname name eq_refl).
  - destruct (Part002.handle stripTags formatBytes true (Part002_outStreams s id) r ev)
      as [r1|e|e] eqn:E; simpl.
    + apply IH, Hin.
    + destruct (Part002_handle_not_Err _ _ _ _ _ _ _ E).
    + eexists. reflexivity.
Qed.

(** X27.  The later revision takes no message to its end that has an
    attachment without a file name (or with one that is no string): the
    provider of [handleNewMessage] joins the directory of the message
    with [attachment.generatedFileName], [path.join] refuses what is no
    string, and the exception leaves the parser's listener, if nothing
    has thrown before. *)
Theorem Part002_rejects_unnamed_attachments
    (stripTags : JsVal → list string → JsVal) (formatBytes : Z → string)
    (s : Store) (id : string) (envelope : Envelope) (io : Io)
    (trace : list Event) (a : AttachmentDatum) :
  ParserData (DAttachment a) ∈ trace →
  (∀ name, d_filename a ≠ VStr name) →
  ∃ e, Part002.handleNewMessage stripTags formatBytes s id envelope io trace = Thrown e.
Proof.
  intros Hin Hname. unfold Part002.handleNewMessage, Part002.parseMessage. cbv zeta.
  change {| emlStream := Some (Part002.emlStream_provider s id);
            attachmentStream := Some (Part002.attachmentStream_provider s id);
            attachmentWriteStream := None |} with (Part002_outStreams s id).
  destruct (parseMessage_start envelope id (Part002_outStreams s id) io) as [r0|e|e] eqn:E0;
    try (unfold parseMessage_start in E0; simpl in E0; discriminate).
  destruct (Part002_unnamed_throws stripTags formatBytes s id a trace r0 Hin Hname)
    as [e He].
  exists e. simpl. unfold mbind, Result_bind. simpl. rewrite He. reflexivity.
Qed.

Lemma Part002_rejects_unnamed_attachments_witness :
  let unnamed := {| d_filename := VUndef; d_contentType := VStr "image/png";
                    d_contentDisposition := VStr "inline"; d_checksum := VStr "c0ffee";
                    d_size := VNum 3; d_headers := VObj "headers";
                    d_cid := VStr "logo@maildev"; d_related := VBool true |} in
  ∃ e, Part002.handleNewMessage Sample.stripTags Sample.formatBytes Sample.empty_store
         "m1" Sample.envelope Sample.fresh_io
         [InData "Hi"; ParserData (DAttachment unnamed); InEnd; ParserEnd]
       = Thrown e.
Proof.
  intros unnamed.
  apply (Part002_rejects_unnamed_attachments Sample.stripTags Sample.formatBytes
           Sample.empty_store "m1" Sample.envelope Sample.fresh_io
           [InData "Hi"; ParserData (DAttachment unnamed); InEnd; ParserEnd] unnamed).
  - repeat constructor.
  - intros name. discriminate.
Defined.
